(** * Queueing simulation of [app.py]: a shallow embedding and its properties

    [run_simulation] builds a SimPy environment, a [Resource] with
    [num_cashiers] slots and one generator process that spawns a
    [service_customer] process per arrival, then runs the event loop until
    [sim_time].  The processes are Python generators; here every point at
    which a generator is suspended ([yield]) becomes a constructor of
    [event] that carries the local variables of the suspended frame, and
    the body that runs when the event is processed becomes a function on
    the simulation state.

    SimPy itself is a library the program imports.  The parts of it the
    program reaches are modelled after its implementation:
    - [Environment.schedule] pushes [(now + delay, priority, eid, event)]
      on a heap, [eid] being a fresh counter value;
    - [Environment.step] pops the least tuple, sets [now] to its time and
      runs the callbacks of the event; a failed process event re-raises;
    - [Environment.run(until=n)] raises [ValueError] when [n <= now],
      otherwise schedules a stop event at time [n] with priority URGENT
      and steps until that event is processed;
    - [Process] schedules an URGENT [Initialize] event at creation, and a
      NORMAL event when its generator returns or raises;
    - [Timeout(delay)] raises [ValueError] on a negative delay, otherwise
      is scheduled NORMAL after [delay];
    - [Resource.request()] appends the request to [put_queue] and calls
      [_trigger_put], which grants the slot to the HEAD of [put_queue]
      when [len(users) < capacity]; leaving the [with] block releases the
      slot: the request leaves [users] at once and a NORMAL release event
      is scheduled whose callback is [_trigger_put] again.  A release
      is served by [_trigger_get] inside its own constructor, so
      [get_queue] is empty whenever an event is processed; it is not part
      of the state, and the [_trigger_get] callback of a request has
      nothing to do.

    Streamlit is the other library the program imports.  Of [main] the
    model keeps the eight [number_input] widgets, each of which raises
    when the default it is given lies outside its bounds, the button,
    the two runs and the empty check of line 146; what [main] draws
    after that is one constructor of [page].

    Python integers are unbounded: times, durations and parameters are
    in [Z].  The event loop is [while True]; the model gives it a number
    of turns ([fuel]) and reports when they are used up. *)

From Stdlib Require Import String ZArith List Bool Lia Sorted Arith.
Import ListNotations.
Open Scope Z_scope.

(** ** The random source *)

(** [random.seed] and [random.randint] of Python's global generator: any
    state type with a seeding function and a draw that stays within its
    closed range.  The laws of Mersenne Twister beyond that are not
    used. *)
Record RandomSource : Type := {
  rstate : Type;
  rseed : Z -> rstate;
  rdraw : rstate -> Z -> Z -> Z * rstate;
  rdraw_range : forall g a b, a <= b -> a <= fst (rdraw g a b) <= b
}.

(** A linear congruential generator, for running the model. *)
Definition lcg_draw (g a b : Z) : Z * Z :=
  let g' := (g * 1103515245 + 12345) mod 2147483648 in
  (a + (g' / 65536) mod (b - a + 1), g').

Lemma lcg_draw_range : forall g a b, a <= b -> a <= fst (lcg_draw g a b) <= b.
Proof.
  intros g a b Hab. unfold lcg_draw. cbn [fst].
  pose proof (Z.mod_pos_bound (((g * 1103515245 + 12345) mod 2147483648) / 65536)
                (b - a + 1)). lia.
Qed.

Definition lcg : RandomSource :=
  {| rstate := Z; rseed := fun s => s; rdraw := lcg_draw;
     rdraw_range := lcg_draw_range |}.

(** ** Data *)

(** The exceptions the engine can raise; all are [ValueError] in Python,
    except the last, SimPy's [EmptySchedule]. *)
Inductive error : Type :=
| BadCapacity      (* Resource: "capacity" must be > 0 *)
| BadUntil         (* run: until must be > the current simulation time *)
| EmptyRange       (* randint(a, b) with a > b *)
| NegativeDelay    (* Timeout with a negative delay *)
| EmptySchedule.   (* step on an empty event queue *)

(** One row of the returned DataFrame.  [customer_id] is the index [i] of
    the label [f"Customer {i}"]. *)
Record record : Type := mkRecord {
  customer_id : nat;
  arrival_time : Z;
  start_service : Z;
  finish_time : Z;
  queue_time : Z;
  service_duration : Z;
  system_time : Z
}.

Inductive priority : Type := URGENT | NORMAL.

Definition prio_rank (p : priority) : Z :=
  match p with URGENT => 0 | NORMAL => 1 end.

(** The scheduled events, each standing for the event object together
    with its callbacks. *)
Inductive event : Type :=
| Stop                                   (* the [until] event of [run] *)
| InitGen                                (* Initialize of customer_generator *)
| InitCust (i : nat)                     (* Initialize of service_customer i *)
| GenTimeout (i : nat)                   (* line 56, generator waiting, local i *)
| RequestEv (i : nat) (arrival : Z)      (* line 30, request granted *)
| ServiceTimeout (i : nat) (arrival start dur : Z)   (* line 33 *)
| ReleaseEv (i : nat)                    (* release of customer i's request *)
| ProcEnd                                (* a process whose generator returned *)
| ProcFailed (e : error).                (* a process whose generator raised *)

Record entry : Type := Entry {
  e_time : Z;
  e_prio : priority;
  e_eid : nat;
  e_event : event
}.

(** Order of the heap tuples [(time, priority, eid, event)]; the eids are
    distinct, so the event itself is never compared. *)
Definition entry_ltb (x y : entry) : bool :=
  (e_time x <? e_time y) ||
  ((e_time x =? e_time y) &&
   ((prio_rank (e_prio x) <? prio_rank (e_prio y)) ||
    ((prio_rank (e_prio x) =? prio_rank (e_prio y)) &&
     (e_eid x <? e_eid y)%nat))).

(** [heapq.heappush] and [heapq.heappop]: the queue is kept sorted, so
    that the least tuple is its head. *)
Fixpoint heappush (x : entry) (q : list entry) : list entry :=
  match q with
  | [] => [x]
  | y :: q' => if entry_ltb x y then x :: q else y :: heappush x q'
  end.

Fixpoint remove_first (i : nat) (l : list nat) : list nat :=
  match l with
  | [] => []
  | j :: l' => if Nat.eqb i j then l' else j :: remove_first i l'
  end.

(** The arguments of [run_simulation] that the two nested generators
    close over. *)
Record params : Type := mkParams {
  num_cashiers : Z;
  sim_time : Z;
  min_interarrival : Z;
  max_interarrival : Z;
  min_service : Z;
  max_service : Z
}.

Section Engine.

Variable R : RandomSource.

(** The environment, the resource, the global random state and the
    [records] list.  [arrivals] is a history variable: the
    [(i, arrival_time)] assigned at line 28 by every customer process
    that has started; no transition reads it. *)
Record state : Type := mkState {
  now : Z;
  queue : list entry;
  eid : nat;
  users : list nat;
  put_queue : list (nat * Z);
  rng : rstate R;
  records : list record;
  arrivals : list (nat * Z)
}.

Variable P : params.

(** [random.randint(a, b)] *)
Definition randint (g : rstate R) (a b : Z) : error + Z * rstate R :=
  if a <=? b then inr (rdraw R g a b) else inl EmptyRange.

(** [env.schedule(event, priority, delay)] *)
Definition schedule (ev : event) (p : priority) (delay : Z) (st : state) : state :=
  mkState (now st)
          (heappush (Entry (now st + delay) p (eid st) ev) (queue st))
          (S (eid st)) (users st) (put_queue st) (rng st) (records st)
          (arrivals st).

Definition set_rng (g : rstate R) (st : state) : state :=
  mkState (now st) (queue st) (eid st) (users st) (put_queue st) g
          (records st) (arrivals st).

(** [Resource._trigger_put]: [_do_put] returns [None], so the loop looks
    at the head of [put_queue] only. *)
Definition trigger_put (st : state) : state :=
  match put_queue st with
  | [] => st
  | (i, a) :: rest =>
      if Z.of_nat (length (users st)) <? num_cashiers P then
        schedule (RequestEv i a) NORMAL 0
          (mkState (now st) (queue st) (eid st) (users st ++ [i]) rest
                   (rng st) (records st) (arrivals st))
      else st
  end.

(** [cashier.request()] by customer [i] whose frame holds [arrival_time]. *)
Definition request (i : nat) (a : Z) (st : state) : state :=
  trigger_put
    (mkState (now st) (queue st) (eid st) (users st)
             (put_queue st ++ [(i, a)]) (rng st) (records st) (arrivals st)).

(** [cashier.release(request)], called when the [with] block is left. *)
Definition release (i : nat) (st : state) : state :=
  schedule (ReleaseEv i) NORMAL 0
    (mkState (now st) (queue st) (eid st) (remove_first i (users st))
             (put_queue st) (rng st) (records st) (arrivals st)).

(** [yield env.timeout(d)]: the continuation [k] is scheduled after [d],
    or the process fails on a negative delay; [cleanup] is what the frame
    does while the exception leaves it. *)
Definition timeout (d : Z) (k : event) (cleanup : state -> state) (st : state) : state :=
  if d <? 0 then schedule (ProcFailed NegativeDelay) NORMAL 0 (cleanup st)
  else schedule k NORMAL d st.

(** Lines 53-56 of [customer_generator], from the top of the loop body
    with [i] already incremented, up to the [yield]. *)
Definition customer_generator_loop (i : nat) (st : state) : state :=
  match randint (rng st) (min_interarrival P) (max_interarrival P) with
  | inl e => schedule (ProcFailed e) NORMAL 0 st
  | inr (inter_arrival, g) =>
      timeout inter_arrival (GenTimeout i) (fun s => s) (set_rng g st)
  end.

(** Line 57 and the next turn of the loop. *)
Definition customer_generator_resume (i : nat) (st : state) : state :=
  customer_generator_loop (S i) (schedule (InitCust i) URGENT 0 st).

(** Lines 28-30 of [service_customer]. *)
Definition service_customer_start (i : nat) (st : state) : state :=
  let arrival := now st in
  request i arrival
    (mkState (now st) (queue st) (eid st) (users st) (put_queue st)
             (rng st) (records st) (arrivals st ++ [(i, arrival)])).

(** Lines 31-33: the request has been granted. *)
Definition service_customer_granted (i : nat) (arrival : Z) (st : state) : state :=
  let start := now st in
  match randint (rng st) (min_service P) (max_service P) with
  | inl e => schedule (ProcFailed e) NORMAL 0 (release i st)
  | inr (dur, g) =>
      timeout dur (ServiceTimeout i arrival start dur) (release i) (set_rng g st)
  end.

(** Lines 34-49, the end of the [with] block and of the generator. *)
Definition service_customer_finish (i : nat) (arrival start dur : Z) (st : state) : state :=
  let finish := now st in
  let r := mkRecord i arrival start finish (start - arrival) dur (finish - arrival) in
  schedule ProcEnd NORMAL 0
    (release i
       (mkState (now st) (queue st) (eid st) (users st) (put_queue st)
                (rng st) (records st ++ [r]) (arrivals st))).

Inductive step_result : Type :=
| Continue (st : state)
| StopSimulation (st : state)
| Raise (e : error).

(** [Environment.step] *)
Definition step (st : state) : step_result :=
  match queue st with
  | [] => Raise EmptySchedule
  | x :: q =>
      let st1 := mkState (e_time x) q (eid st) (users st) (put_queue st)
                         (rng st) (records st) (arrivals st) in
      match e_event x with
      | Stop => StopSimulation st1
      | InitGen => Continue (customer_generator_loop 1 st1)
      | GenTimeout i => Continue (customer_generator_resume i st1)
      | InitCust i => Continue (service_customer_start i st1)
      | RequestEv i a => Continue (service_customer_granted i a st1)
      | ServiceTimeout i a s d => Continue (service_customer_finish i a s d st1)
      | ReleaseEv _ => Continue (trigger_put st1)
      | ProcEnd => Continue st1
      | ProcFailed e => Raise e
      end
  end.

(** The outcome of a loop that is given [fuel] iterations. *)
Inductive run_result : Type :=
| Finished (st : state)      (* the stop event was processed *)
| Raised (e : error)         (* an exception left the loop *)
| Running (st : state).      (* still looping after [fuel] steps *)

(** [while True: self.step()] of [Environment.run] *)
Fixpoint env_loop (fuel : nat) (st : state) : run_result :=
  match fuel with
  | O => Running st
  | S k =>
      match step st with
      | Continue st' => env_loop k st'
      | StopSimulation st' => Finished st'
      | Raise e => Raised e
      end
  end.

(** [random.seed(a)]: the global generator is reset, whatever its state. *)
Definition seed (a : Z) (g : rstate R) : rstate R := rseed R a.

(** Lines 23-59: the state in which [env.run] is called, [g] being the
    state of the global generator. *)
Definition initial (g : rstate R) : state :=
  schedule InitGen URGENT 0 (mkState 0 [] 0%nat [] [] g [] []).

(** [env.run(until=sim_time)] *)
Definition env_run (fuel : nat) (st : state) : run_result :=
  if sim_time P <=? now st then Raised BadUntil
  else env_loop fuel (schedule Stop URGENT (sim_time P - now st) st).

(** The engine up to the end of [env.run], with the whole final state;
    [g0] is the state of the global generator when the call is made. *)
Definition simulate (fuel : nat) (random_seed : Z) (g0 : rstate R) : run_result :=
  let g := seed random_seed g0 in
  if num_cashiers P <=? 0 then Raised BadCapacity
  else env_run fuel (initial g).

(** What a call of [run_simulation] amounts to for its caller. *)
Inductive outcome : Type :=
| Returned (df : list record)    (* [pd.DataFrame(records)], row by row *)
| Exception (e : error)
| NoReturn.                      (* the loop outlives the fuel *)

Definition run_simulation (fuel : nat) (random_seed : Z) (g0 : rstate R) : outcome :=
  match simulate fuel random_seed g0 with
  | Finished st => Returned (records st)
  | Raised e => Exception e
  | Running _ => NoReturn
  end.

End Engine.


Arguments now {R} _.
Arguments queue {R} _.
Arguments eid {R} _.
Arguments users {R} _.
Arguments put_queue {R} _.
Arguments rng {R} _.
Arguments records {R} _.
Arguments arrivals {R} _.
Arguments Finished {R} _.
Arguments Raised {R} _.
Arguments Running {R} _.
Arguments Continue {R} _.
Arguments StopSimulation {R} _.
Arguments Raise {R} _.

(** ** The caller: [main] *)

(** The values of the sidebar widgets and of the button. *)
Record form : Type := mkForm {
  f_sim_time : Z;
  f_min_interarrival : Z;
  f_max_interarrival : Z;
  f_min_service : Z;
  f_max_service : Z;
  f_num_cashiers_a : Z;
  f_num_cashiers_b : Z;
  f_random_seed : Z;
  run_button : bool
}.

(** [st.number_input(min_value=.., max_value=.., value=..)] checks the
    default it is given: a [value] below [min_value] or above
    [max_value] raises [StreamlitAPIException] instead of showing the
    widget. *)
Definition default_ok (min_value max_value value : Z) : bool :=
  (min_value <=? value) && (value <=? max_value).

(** Lines 87-120: the eight widgets with their bounds and defaults.  The
    lower bounds of [max_interarrival] (line 97) and of [max_service]
    (line 107) are the values of the widgets before them, while their
    defaults are the constants 3 and 7. *)
Definition widgets_ok (f : form) : bool :=
  default_ok 100 10000 1000 &&
  default_ok 1 60 2 &&
  default_ok (f_min_interarrival f) 60 3 &&
  default_ok 1 60 4 &&
  default_ok (f_min_service f) 60 7 &&
  default_ok 1 10 1 &&
  default_ok 1 10 2 &&
  default_ok 0 999999 42.

(** The values [main] can get from the widgets of lines 87-120: each
    lies within the bounds of its widget, and every widget accepts its
    default, so [min_interarrival] is at most 3 and [min_service] at
    most 7. *)
Definition form_in_range (f : form) : Prop :=
  widgets_ok f = true /\
  100 <= f_sim_time f <= 10000 /\
  1 <= f_min_interarrival f <= 60 /\
  f_min_interarrival f <= f_max_interarrival f <= 60 /\
  1 <= f_min_service f <= 60 /\
  f_min_service f <= f_max_service f <= 60 /\
  1 <= f_num_cashiers_a f <= 10 /\
  1 <= f_num_cashiers_b f <= 10 /\
  0 <= f_random_seed f <= 999999.

Definition scenario (f : form) (num : Z) : params :=
  mkParams num (f_sim_time f) (f_min_interarrival f) (f_max_interarrival f)
           (f_min_service f) (f_max_service f).

Definition empty_message : string :=
  "Data simulasi kosong. Silakan coba lagi dengan parameter berbeda.".

(** What one execution of [main] shows below the form.  Lines 150-253
    (tables, metrics, the two charts, the conclusion) are one
    constructor: they only render the two data frames. *)
Inductive page : Type :=
| OnlyForm                                   (* the button was not pressed *)
| ErrorBox (msg : string)                    (* [st.error(msg)], then [return] *)
| Report (df_a df_b : list record)
| Traceback (e : error)                      (* an exception left [main] *)
| WidgetError                                (* a widget rejected its default *)
| Spinning.                                  (* a run does not return *)

(** [df.empty] *)
Definition df_empty (df : list record) : bool :=
  match df with [] => true | _ :: _ => false end.

Section Main.

Variable R : RandomSource.

(** Lines 87-148 of [main]: the widgets are built before the button is
    read; the second run starts from the global generator as the first
    one left it. *)
Definition main (fuel : nat) (f : form) (g0 : rstate R) : page :=
  if negb (widgets_ok f) then WidgetError
  else if run_button f then
    match simulate R (scenario f (f_num_cashiers_a f)) fuel (f_random_seed f) g0 with
    | Raised e => Traceback e
    | Running _ => Spinning
    | Finished sa =>
        match run_simulation R (scenario f (f_num_cashiers_b f)) fuel
                (f_random_seed f) (rng sa) with
        | Exception e => Traceback e
        | NoReturn => Spinning
        | Returned df_scenario_b =>
            let df_scenario_a := records sa in
            if df_empty df_scenario_a || df_empty df_scenario_b
            then ErrorBox empty_message
            else Report df_scenario_a df_scenario_b
        end
    end
  else OnlyForm.

End Main.

(** ** Sample runs *)

(** One cashier, a customer every 2 minutes, 4 minutes of service: the
    ranges are single values, so the run is the same for every random
    source ([single_valued_ranges] below). *)
Definition busy_params : params := mkParams 1 20 2 2 4 4.

Definition busy_df : list record :=
  [ mkRecord 1 2 2 6 0 4 4; mkRecord 2 4 6 10 2 4 6;
    mkRecord 3 6 10 14 4 4 8; mkRecord 4 8 14 18 6 4 10 ].

Definition idle_state : state lcg := mkState lcg 0 [] 0%nat [] [] 0 [] [].

Definition state_of (r : run_result lcg) : state lcg :=
  match r with Finished st => st | Running st => st | Raised _ => idle_state end.

Definition busy_final : state lcg :=
  Eval vm_compute in state_of (simulate lcg busy_params 100 42 0).

(** The same with the horizon at 5, and the busy run after 8 turns of
    the loop. *)
Definition short_params : params := mkParams 1 5 2 2 4 4.

Definition short_final : state lcg :=
  Eval vm_compute in state_of (simulate lcg short_params 100 42 0).

Definition busy_at_8 : state lcg :=
  Eval vm_compute in state_of (simulate lcg busy_params 8 42 0).

(** No gap between arrivals: the state after 3 turns of the loop. *)
Definition crowd_params : params := mkParams 1 10 0 0 4 4.

Definition crowd_at_3 : state lcg :=
  Eval vm_compute in state_of (simulate lcg crowd_params 3 42 0).

(** Gaps and services of 60 with a horizon of 100: the first customer
    arrives at 60 and would be served until 120.  [run_simulation] takes
    these arguments; [main] cannot pass them, its widgets rejecting the
    defaults 3 and 7 under the minima 60. *)
Definition quiet_form : form := mkForm 100 60 60 60 60 1 2 42 true.

Definition quiet_final_a : state lcg :=
  Eval vm_compute in
    state_of (simulate lcg (scenario quiet_form 1) 100 42 0).

(** The widest ranges [main] can pass, with the shortest horizon and
    seed 3: with the draws of [lcg] the first customer arrives at 60 and
    would be served until 118. *)
Definition wide_form : form := mkForm 100 3 60 7 60 1 2 3 true.

Definition wide_final_a : state lcg :=
  Eval vm_compute in
    state_of (simulate lcg (scenario wide_form 1) 700 3 0).

(** * Properties *)

(** ** The event queue *)

Definition key_lt (x y : entry) : Prop :=
  e_time x < e_time y \/
  (e_time x = e_time y /\
   (prio_rank (e_prio x) < prio_rank (e_prio y) \/
    (prio_rank (e_prio x) = prio_rank (e_prio y) /\ (e_eid x < e_eid y)%nat))).

Lemma entry_ltb_spec : forall x y, entry_ltb x y = true <-> key_lt x y.
Proof.
  intros x y. unfold entry_ltb, key_lt.
  rewrite !orb_true_iff, !andb_true_iff, !orb_true_iff, !andb_true_iff.
  rewrite !Z.ltb_lt, !Z.eqb_eq, Nat.ltb_lt. tauto.
Qed.

Lemma key_lt_trans : forall x y z, key_lt x y -> key_lt y z -> key_lt x z.
Proof. unfold key_lt. intros. lia. Qed.

Lemma key_lt_irrefl : forall x, ~ key_lt x x.
Proof. unfold key_lt. intros. lia. Qed.

Lemma key_lt_total : forall x y,
  e_eid x <> e_eid y -> entry_ltb x y = false -> key_lt y x.
Proof.
  intros x y Hne Hf.
  assert (Hn : ~ key_lt x y) by (rewrite <- entry_ltb_spec; congruence).
  unfold key_lt in *. lia.
Qed.

Lemma heappush_In : forall x q z, In z (heappush x q) <-> z = x \/ In z q.
Proof.
  intros x q z. induction q as [|y q IH]; cbn.
  - intuition congruence.
  - destruct (entry_ltb x y); cbn; rewrite ?IH; intuition congruence.
Qed.

Lemma heappush_Forall : forall (A : entry -> Prop) x q,
  Forall A (heappush x q) <-> A x /\ Forall A q.
Proof.
  intros A x q. rewrite !Forall_forall. split.
  - intros H. split; [|intros z Hz]; apply H, heappush_In; auto.
  - intros [Hx Hq] z Hz. apply heappush_In in Hz as [->|Hz]; auto.
Qed.

Lemma heappush_sorted : forall x q,
  StronglySorted key_lt q ->
  Forall (fun y => e_eid y <> e_eid x) q ->
  StronglySorted key_lt (heappush x q).
Proof.
  intros x q Hs Hne. induction Hs as [|y q Hs IH Hy]; cbn.
  - repeat constructor.
  - apply Forall_cons_iff in Hne as [Hyx Hne].
    destruct (entry_ltb x y) eqn:E.
    + apply entry_ltb_spec in E. constructor.
      * constructor; assumption.
      * constructor; [assumption|].
        eapply Forall_impl; [|exact Hy]. intros z Hz.
        eapply key_lt_trans; eassumption.
    + constructor; [auto|].
      apply heappush_Forall. split; [|assumption].
      apply key_lt_total; [congruence|assumption].
Qed.

(** The ids selected by [sel] from the events of a queue, in queue order. *)
Definition ids (sel : event -> list nat) (q : list entry) : list nat :=
  flat_map (fun x => sel (e_event x)) q.

Lemma ids_heappush_none : forall sel x q,
  sel (e_event x) = [] -> ids sel (heappush x q) = ids sel q.
Proof.
  intros sel x q Hx. induction q as [|y q IH]; cbn [heappush].
  - unfold ids. cbn. rewrite Hx. reflexivity.
  - destruct (entry_ltb x y).
    + change (ids sel (x :: y :: q)) with (sel (e_event x) ++ ids sel (y :: q)).
      rewrite Hx. reflexivity.
    + change (ids sel (y :: heappush x q))
        with (sel (e_event y) ++ ids sel (heappush x q)).
      rewrite IH. reflexivity.
Qed.

(** An event pushed behind every selected event of the queue comes last. *)
Lemma ids_heappush_last : forall sel x q,
  StronglySorted key_lt q ->
  (forall y, In y q -> sel (e_event y) <> [] -> key_lt y x) ->
  ids sel (heappush x q) = ids sel q ++ sel (e_event x).
Proof.
  intros sel x q Hs. induction Hs as [|y q Hs IH Hy]; intros Hlt.
  - cbn. rewrite app_nil_r. reflexivity.
  - cbn [heappush]. destruct (entry_ltb x y) eqn:E.
    + apply entry_ltb_spec in E.
      assert (Hnone : forall z, In z (y :: q) -> sel (e_event z) = []).
      { intros z Hz. destruct (sel (e_event z)) eqn:Ez; [reflexivity|exfalso].
        assert (Hzx : key_lt z x) by (apply Hlt; [assumption|congruence]).
        assert (Hxz : key_lt x z).
        { destruct Hz as [<-|Hz]; [assumption|].
          rewrite Forall_forall in Hy.
          eapply key_lt_trans; [exact E|auto]. }
        exact (key_lt_irrefl x (key_lt_trans _ _ _ Hxz Hzx)). }
      assert (Hq : ids sel (y :: q) = []).
      { clear - Hnone. induction (y :: q) as [|z l IHl]; cbn; [reflexivity|].
        rewrite (Hnone z) by (left; reflexivity). cbn.
        apply IHl. intros w Hw. apply Hnone. right. assumption. }
      change (ids sel (x :: y :: q)) with (sel (e_event x) ++ ids sel (y :: q)).
      rewrite Hq, app_nil_r. reflexivity.
    + change (ids sel (y :: heappush x q))
        with (sel (e_event y) ++ ids sel (heappush x q)).
      change (ids sel (y :: q)) with (sel (e_event y) ++ ids sel q).
      rewrite IH.
      * rewrite app_assoc. reflexivity.
      * intros z Hz. apply Hlt. right. assumption.
Qed.

(** ** Sorted lists *)

Lemma StronglySorted_app_iff : forall (A : Type) (Rel : A -> A -> Prop) l1 l2,
  StronglySorted Rel (l1 ++ l2) <->
  StronglySorted Rel l1 /\ StronglySorted Rel l2 /\
  (forall x y, In x l1 -> In y l2 -> Rel x y).
Proof.
  intros A Rel l1 l2. induction l1 as [|a l1 IH]; cbn.
  - split.
    + intros H. repeat split; [constructor|assumption|contradiction].
    + tauto.
  - split.
    + intros H. apply StronglySorted_inv in H as [Hs Ha].
      apply IH in Hs as (H1 & H2 & H12). apply Forall_app in Ha as [Ha1 Ha2].
      repeat split.
      * constructor; assumption.
      * assumption.
      * intros x y [<-|Hx] Hy; [|auto].
        rewrite Forall_forall in Ha2. auto.
    + intros (H1 & H2 & H12). apply StronglySorted_inv in H1 as [H1 Ha].
      constructor.
      * apply IH. repeat split; auto.
      * apply Forall_app. split; [assumption|].
        apply Forall_forall. intros y Hy. apply H12; auto.
Qed.

Lemma StronglySorted_snoc : forall (A : Type) (Rel : A -> A -> Prop) l a,
  StronglySorted Rel l -> (forall x, In x l -> Rel x a) ->
  StronglySorted Rel (l ++ [a]).
Proof.
  intros A Rel l a Hl Ha. apply StronglySorted_app_iff. repeat split.
  - assumption.
  - repeat constructor.
  - intros x y Hx [<-|[]]. auto.
Qed.

(** ** The invariant of the event loop: times and values *)

Section Invariant.

Variable R : RandomSource.
Variable P : params.

(** What holds of a scheduled entry while the clock reads [n] and the
    customers in [log] have arrived. *)
Definition entry_ok (n : Z) (log : list (nat * Z)) (x : entry) : Prop :=
  n <= e_time x /\
  match e_event x with
  | Stop => e_time x = sim_time P /\ e_prio x = URGENT
  | InitGen => e_prio x = URGENT /\ e_time x <= n
  | InitCust _ =>
      e_prio x = URGENT /\ e_time x <= n /\ min_interarrival P <= e_time x
  | GenTimeout _ => e_prio x = NORMAL /\ min_interarrival P <= e_time x
  | RequestEv i a => e_prio x = NORMAL /\ e_time x <= n /\ In (i, a) log
  | ServiceTimeout i a s d =>
      e_prio x = NORMAL /\ e_time x = s + d /\ a <= s <= n /\
      min_service P <= d <= max_service P /\ In (i, a) log
  | ReleaseEv _ => e_prio x = NORMAL /\ e_time x <= n
  | ProcEnd => e_prio x = NORMAL
  | ProcFailed _ => e_prio x = NORMAL
  end.

(** What holds of a row whatever the clock reads. *)
Definition record_ok (r : record) : Prop :=
  queue_time r = start_service r - arrival_time r /\
  system_time r = finish_time r - arrival_time r /\
  finish_time r = start_service r + service_duration r /\
  arrival_time r <= start_service r /\
  min_service P <= service_duration r <= max_service P /\
  finish_time r < sim_time P.

Definition finish_le (r r' : record) : Prop := finish_time r <= finish_time r'.

Record wf (st : state R) : Prop := {
  wf_sorted : StronglySorted key_lt (queue st);
  wf_fresh : Forall (fun x => (e_eid x < eid st)%nat) (queue st);
  wf_entries : Forall (entry_ok (now st) (arrivals st)) (queue st);
  wf_now : 0 <= now st < sim_time P;
  wf_stop : Exists (fun x => e_event x = Stop) (queue st);
  wf_waiting : Forall (fun w => In w (arrivals st)) (put_queue st);
  wf_records : Forall record_ok (records st);
  wf_logged : Forall (fun r => In (customer_id r, arrival_time r) (arrivals st) /\
                               finish_time r <= now st) (records st);
  wf_completion : StronglySorted finish_le (records st);
  wf_arrivals : Forall (fun w => min_interarrival P <= snd w <= now st) (arrivals st)
}.

Lemma entry_ok_mono : forall n n' log log' x,
  entry_ok n log x -> n <= n' -> n' <= e_time x -> incl log log' ->
  entry_ok n' log' x.
Proof.
  unfold entry_ok. intros n n' log log' x [H1 H2] Hn Hx Hl.
  split; [assumption|].
  destruct (e_event x); intuition (auto; lia).
Qed.

Lemma wf_ext : forall st st' : state R,
  wf st -> now st' = now st -> queue st' = queue st -> eid st' = eid st ->
  put_queue st' = put_queue st -> records st' = records st ->
  arrivals st' = arrivals st -> wf st'.
Proof.
  intros st st' [] Hn Hq He Hp Hr Ha.
  constructor; rewrite ?Hn, ?Hq, ?He, ?Hp, ?Hr, ?Ha; assumption.
Qed.

Lemma wf_schedule : forall st ev p d,
  wf st ->
  entry_ok (now st) (arrivals st) (Entry (now st + d) p (eid st) ev) ->
  wf (schedule R ev p d st).
Proof.
  intros st ev p d [] Hok. constructor; cbn; try assumption.
  - apply heappush_sorted; [assumption|].
    eapply Forall_impl; [|exact wf_fresh0]. cbn. intros. lia.
  - apply heappush_Forall. split; [cbn; lia|].
    eapply Forall_impl; [|exact wf_fresh0]. cbn. intros. lia.
  - apply heappush_Forall. split; assumption.
  - apply Exists_exists in wf_stop0 as (x & Hx & Hs).
    apply Exists_exists. exists x. split; [|assumption].
    apply heappush_In. auto.
Qed.

(** Popping an entry other than the stop event. *)
Lemma wf_pop : forall st x q,
  wf st -> queue st = x :: q -> e_event x <> Stop ->
  wf (mkState R (e_time x) q (eid st) (users st) (put_queue st) (rng st)
        (records st) (arrivals st)) /\
  entry_ok (e_time x) (arrivals st) x /\ now st <= e_time x.
Proof.
  intros st x q [] Hq Hns. rewrite Hq in *.
  apply StronglySorted_inv in wf_sorted0 as [Hs Hx].
  apply Forall_cons_iff in wf_fresh0 as [_ Hf].
  apply Forall_cons_iff in wf_entries0 as [Hxok Hok].
  assert (Hstop : Exists (fun y => e_event y = Stop) q).
  { inversion wf_stop0; subst; [contradiction|assumption]. }
  assert (Hnow : now st <= e_time x) by (destruct Hxok; assumption).
  assert (Hlt : e_time x < sim_time P).
  { apply Exists_exists in Hstop as (y & Hy & Hys).
    rewrite Forall_forall in Hx, Hok.
    pose proof (Hx y Hy) as Hk. pose proof (Hok y Hy) as [_ Hyok].
    rewrite Hys in Hyok. destruct Hyok as [Ht Hp].
    destruct Hxok as [_ Hxok]. unfold key_lt in Hk. rewrite Hp in Hk. cbn in Hk.
    assert (Hpx : e_prio x = NORMAL \/ e_time x <= now st)
      by (destruct (e_event x); try contradiction; tauto).
    pose proof (wf_now0) as Hn0.
    destruct Hpx as [Hpx|Hpx]; [rewrite Hpx in Hk; cbn in Hk|]; lia. }
  split; [|split; [|assumption]].
  - constructor; cbn; try assumption.
    + rewrite Forall_forall in *. intros y Hy.
      eapply entry_ok_mono; [apply Hok; assumption|assumption| |apply incl_refl].
      pose proof (Hx y Hy) as Hk. unfold key_lt in Hk. lia.
    + lia.
    + eapply Forall_impl; [|exact wf_logged0]. cbn. intros r [? ?]. split; [assumption|lia].
    + eapply Forall_impl; [|exact wf_arrivals0]. cbn. intros. lia.
  - eapply entry_ok_mono; [exact Hxok|assumption|lia|apply incl_refl].
Qed.

Lemma wf_trigger_put : forall st, wf st -> wf (trigger_put R P st).
Proof.
  intros st Hwf. unfold trigger_put.
  destruct (put_queue st) as [|[i a] rest] eqn:Hpq; [assumption|].
  destruct (Z.of_nat (length (users st)) <? num_cashiers P); [|assumption].
  pose proof (wf_waiting _ Hwf) as Hw. rewrite Hpq in Hw.
  apply Forall_cons_iff in Hw as [Hia Hrest].
  apply wf_schedule.
  - destruct Hwf. constructor; cbn; assumption.
  - unfold entry_ok. cbn. repeat split; try lia. assumption.
Qed.

Lemma wf_release : forall st i, wf st -> wf (release R i st).
Proof.
  intros st i Hwf. unfold release. apply wf_schedule.
  - eapply wf_ext; [exact Hwf|reflexivity..].
  - unfold entry_ok. cbn. repeat split; lia.
Qed.

Lemma wf_failed : forall st e, wf st -> wf (schedule R (ProcFailed e) NORMAL 0 st).
Proof.
  intros st e Hwf. apply wf_schedule; [assumption|].
  unfold entry_ok. cbn. repeat split; lia.
Qed.

Lemma wf_set_rng : forall st g, wf st -> wf (set_rng R g st).
Proof. intros st g Hwf. eapply wf_ext; [exact Hwf|reflexivity..]. Qed.

Lemma randint_inr : forall g a b v g',
  randint R g a b = inr (v, g') -> a <= v <= b.
Proof.
  unfold randint. intros g a b v g' H.
  destruct (a <=? b) eqn:E; [|discriminate].
  apply Z.leb_le in E. injection H as H.
  pose proof (rdraw_range R g a b E) as Hr. rewrite H in Hr. exact Hr.
Qed.

Lemma wf_customer_generator_loop : forall st i,
  wf st -> wf (customer_generator_loop R P i st).
Proof.
  intros st i Hwf. unfold customer_generator_loop.
  destruct (randint R (rng st) (min_interarrival P) (max_interarrival P))
    as [e|[d g]] eqn:Hd.
  - apply wf_failed. assumption.
  - apply randint_inr in Hd. unfold timeout.
    destruct (d <? 0) eqn:E.
    + apply wf_failed, wf_set_rng. assumption.
    + apply Z.ltb_ge in E. apply wf_schedule; [apply wf_set_rng; assumption|].
      pose proof (wf_now _ Hwf). unfold entry_ok. cbn. repeat split; lia.
Qed.

(** Lines 28-29 before [_trigger_put]: customer [i] has joined the queue. *)
Definition arrived (i : nat) (st : state R) : state R :=
  mkState R (now st) (queue st) (eid st) (users st)
    (put_queue st ++ [(i, now st)]) (rng st) (records st)
    (arrivals st ++ [(i, now st)]).

Lemma service_customer_start_arrived : forall i st,
  service_customer_start R P i st = trigger_put R P (arrived i st).
Proof. reflexivity. Qed.

Lemma wf_arrived : forall st i,
  wf st -> min_interarrival P <= now st -> wf (arrived i st).
Proof.
  intros st i Hwf Hmin. unfold arrived.
  destruct Hwf. constructor; cbn; try assumption.
  - eapply Forall_impl; [|exact wf_entries0]. intros x Hx.
    eapply entry_ok_mono; [exact Hx|lia|destruct Hx; assumption|].
    apply incl_appl, incl_refl.
  - apply Forall_app. split.
    + eapply Forall_impl; [|exact wf_waiting0]. cbn. intros.
      apply in_or_app. auto.
    + repeat constructor. apply in_or_app. right. left. reflexivity.
  - eapply Forall_impl; [|exact wf_logged0]. cbn. intros r [? ?].
    split; [apply in_or_app; auto|assumption].
  - apply Forall_app. split; [assumption|]. repeat constructor; cbn; lia.
Qed.

Lemma wf_service_customer_start : forall st i,
  wf st -> min_interarrival P <= now st ->
  wf (service_customer_start R P i st).
Proof.
  intros st i Hwf Hmin. rewrite service_customer_start_arrived.
  apply wf_trigger_put, wf_arrived; assumption.
Qed.

Lemma wf_service_customer_granted : forall st i a,
  wf st -> In (i, a) (arrivals st) ->
  wf (service_customer_granted R P i a st).
Proof.
  intros st i a Hwf Hin. unfold service_customer_granted.
  destruct (randint R (rng st) (min_service P) (max_service P))
    as [e|[d g]] eqn:Hd.
  - apply wf_failed, wf_release. assumption.
  - apply randint_inr in Hd. unfold timeout.
    destruct (d <? 0) eqn:E.
    + apply wf_failed, wf_release, wf_set_rng. assumption.
    + apply Z.ltb_ge in E. apply wf_schedule; [apply wf_set_rng; assumption|].
      pose proof (wf_arrivals _ Hwf) as Ha. rewrite Forall_forall in Ha.
      pose proof (Ha _ Hin) as Hb. cbn in Hb.
      unfold entry_ok. cbn. repeat split; try lia. assumption.
Qed.

Lemma wf_service_customer_finish : forall st i a s d,
  wf st -> now st = s + d -> a <= s ->
  min_service P <= d <= max_service P -> In (i, a) (arrivals st) ->
  wf (service_customer_finish R i a s d st).
Proof.
  intros st i a s d Hwf Hnow Has Hd Hin. unfold service_customer_finish.
  apply wf_schedule; [apply wf_release|unfold entry_ok; cbn; repeat split; lia].
  pose proof (wf_now _ Hwf) as Hn.
  destruct Hwf. constructor; cbn; try assumption.
  - apply Forall_app. split; [assumption|].
    repeat constructor; cbn; lia.
  - apply Forall_app. split; [assumption|].
    repeat constructor; cbn; [assumption|lia].
  - apply StronglySorted_snoc; [assumption|].
    intros r Hr. rewrite Forall_forall in wf_logged0.
    apply wf_logged0 in Hr. unfold finish_le. cbn. lia.
Qed.

(** One turn of the loop keeps the invariant. *)
Lemma wf_step : forall st st', wf st -> step R P st = Continue st' -> wf st'.
Proof.
  intros st st' Hwf Hstep. unfold step in Hstep.
  destruct (queue st) as [|x q] eqn:Hq; [discriminate|].
  destruct (e_event x) eqn:Hev; try discriminate;
    injection Hstep as <-;
    (destruct (wf_pop st x q Hwf Hq) as (Hwf1 & [_ Hx] & Hle);
     [congruence|]); rewrite Hev in Hx.
  - apply wf_customer_generator_loop. assumption.
  - apply wf_service_customer_start; [assumption|]. cbn. tauto.
  - apply wf_customer_generator_loop. apply wf_schedule; [assumption|].
    unfold entry_ok. cbn. repeat split; lia.
  - apply wf_service_customer_granted; [assumption|]. cbn. tauto.
  - apply wf_service_customer_finish; cbn; tauto.
  - apply wf_trigger_put. assumption.
  - assumption.
Qed.

(** The loop carries an invariant of [step] to every state it reaches. *)
Lemma env_loop_running : forall (Inv : state R -> Prop),
  (forall st st', Inv st -> step R P st = Continue st' -> Inv st') ->
  forall fuel st st', Inv st -> env_loop R P fuel st = Running st' -> Inv st'.
Proof.
  intros Inv Hstep fuel. induction fuel as [|k IH]; intros st st' Hi Hrun; cbn in Hrun.
  - injection Hrun as <-. assumption.
  - destruct (step R P st) as [st1| |] eqn:Hs; try discriminate.
    eapply IH; [|exact Hrun]. eapply Hstep; eassumption.
Qed.

Lemma env_loop_finished : forall (Inv : state R -> Prop),
  (forall st st', Inv st -> step R P st = Continue st' -> Inv st') ->
  forall fuel st st', Inv st -> env_loop R P fuel st = Finished st' ->
  exists st1, Inv st1 /\ step R P st1 = StopSimulation st'.
Proof.
  intros Inv Hstep fuel. induction fuel as [|k IH]; intros st st' Hi Hrun; cbn in Hrun.
  - discriminate.
  - destruct (step R P st) as [st1|st1|] eqn:Hs; try discriminate.
    + eapply IH; [|exact Hrun]. eapply Hstep; eassumption.
    + injection Hrun as <-. exists st. auto.
Qed.

(** Processing the stop event changes the clock and the queue only. *)
Lemma step_stop : forall st st',
  step R P st = StopSimulation st' ->
  exists x q, queue st = x :: q /\ e_event x = Stop /\
    st' = mkState R (e_time x) q (eid st) (users st) (put_queue st) (rng st)
            (records st) (arrivals st).
Proof.
  intros st st' H. unfold step in H.
  destruct (queue st) as [|x q]; [discriminate|].
  destruct (e_event x) eqn:E; try discriminate.
  injection H as <-. exists x, q. auto.
Qed.

(** The state in which the loop is entered. *)
Definition start_state (g : rstate R) : state R :=
  schedule R Stop URGENT (sim_time P - 0) (initial R g).

Lemma wf_start_state : forall g, 0 < sim_time P -> wf (start_state g).
Proof.
  intros g Hpos. unfold start_state, initial, schedule.
  cbn [now queue eid users put_queue rng records arrivals heappush].
  assert (E : entry_ltb (Entry (0 + (sim_time P - 0)) URGENT 1 Stop)
                (Entry (0 + 0) URGENT 0 InitGen) = false).
  { apply not_true_is_false. rewrite entry_ltb_spec. unfold key_lt. cbn. lia. }
  rewrite E.
  constructor; cbn [now queue eid users put_queue rng records arrivals].
  - repeat constructor. unfold key_lt. cbn. lia.
  - repeat constructor.
  - repeat constructor; cbn; lia.
  - lia.
  - apply Exists_cons_tl, Exists_cons_hd. reflexivity.
  - constructor.
  - constructor.
  - constructor.
  - constructor.
  - constructor.
Qed.

Lemma simulate_unfold : forall fuel random_seed g0 res,
  simulate R P fuel random_seed g0 = res ->
  (exists st, res = Running st) \/ (exists st, res = Finished st) ->
  0 < num_cashiers P /\ 0 < sim_time P /\
  env_loop R P fuel (start_state (seed R random_seed g0)) = res.
Proof.
  intros fuel random_seed g0 res H Hres. unfold simulate, env_run in H.
  destruct (num_cashiers P <=? 0) eqn:E1.
  { subst res. destruct Hres as [[st Hst]|[st Hst]]; discriminate. }
  cbn [now initial schedule] in H.
  destruct (sim_time P <=? 0) eqn:E2.
  { subst res. destruct Hres as [[st Hst]|[st Hst]]; discriminate. }
  apply Z.leb_gt in E1, E2. auto.
Qed.

(** ** The invariant of the event loop: order of the customers *)

Definition req_id (ev : event) : list nat :=
  match ev with RequestEv i _ => [i] | _ => [] end.

Definition init_id (ev : event) : list nat :=
  match ev with InitCust i => [i] | _ => [] end.

Definition gen_id (ev : event) : list nat :=
  match ev with InitGen => [1%nat] | GenTimeout i => [i] | _ => [] end.

(** The customers that have not started service, from the one that will
    start next to the one the generator will spawn next: granted
    requests in the order they will be processed, the waiting requests,
    the processes not yet started and the index the generator holds. *)
Definition line_of (q : list entry) (w : list (nat * Z)) : list nat :=
  ids req_id q ++ map fst w ++ ids init_id q ++ ids gen_id q.

Definition line (st : state R) : list nat := line_of (queue st) (put_queue st).

(** Customer [i] started service at [s]: it is being served or has a row. *)
Definition Started (recs : list record) (q : list entry) (i : nat) (s : Z) : Prop :=
  (exists r, In r recs /\ customer_id r = i /\ start_service r = s) \/
  (exists x a d, In x q /\ e_event x = ServiceTimeout i a s d).

Definition arrival_lt (w w' : nat * Z) : Prop :=
  (fst w < fst w')%nat /\ snd w <= snd w'.

Record ord (st : state R) : Prop := {
  ord_line : StronglySorted lt (line st);
  ord_gen : (length (ids gen_id (queue st)) <= 1)%nat;
  ord_started : forall i s, Started (records st) (queue st) i s ->
                s <= now st /\ forall j, In j (line st) -> (i < j)%nat;
  ord_service : forall i s j s',
                Started (records st) (queue st) i s ->
                Started (records st) (queue st) j s' -> (i < j)%nat -> s <= s';
  ord_log : StronglySorted arrival_lt (arrivals st);
  ord_log_line : forall w j, In w (arrivals st) ->
                 In j (ids init_id (queue st) ++ ids gen_id (queue st)) ->
                 (fst w < j)%nat
}.

Lemma ids_cons : forall sel x q, ids sel (x :: q) = sel (e_event x) ++ ids sel q.
Proof. reflexivity. Qed.

Lemma sorted_singleton : forall (A : Type) (Rel : A -> A -> Prop) a,
  StronglySorted Rel [a] <-> True.
Proof. intros. split; [trivial|]. intros _. repeat constructor. Qed.

Lemma sorted_nil : forall (A : Type) (Rel : A -> A -> Prop),
  StronglySorted Rel (@nil A) <-> True.
Proof. intros. split; [trivial|]. intros _. constructor. Qed.

Ltac inapp := rewrite ?in_app_iff in *; cbn [In] in *; solve [tauto | auto 6].

Ltac split_in :=
  repeat match goal with
  | H : In _ (_ ++ _) |- _ => apply in_app_or in H; destruct H
  | H : In _ [_] |- _ => destruct H as [H|[]]; try subst
  | H : In _ [] |- _ => destruct H
  end.

Ltac cross :=
  intros; split_in;
  solve [ match goal with
          | H : forall x y, In x _ -> In y _ -> _ |- _ => apply H; inapp
          | H : forall j, In j _ -> _ |- _ => apply H; inapp
          | H : forall j, In j _ -> _ |- _ =>
              eapply Nat.lt_trans; [apply H; inapp|lia]
          end
        | lia ].

Ltac sorted_pieces :=
  rewrite ?StronglySorted_app_iff, ?sorted_singleton, ?sorted_nil in *;
  repeat match goal with H : _ /\ _ |- _ => destruct H end;
  repeat split; try assumption; try cross.

Lemma Started_pop : forall recs x q i s,
  Started recs q i s -> Started recs (x :: q) i s.
Proof.
  intros recs x q i s [H|(y & a & d & Hy & Hev)]; [left; assumption|].
  right. exists y, a, d. split; [right; assumption|assumption].
Qed.

(** Popping an entry leaves the others in order. *)
Lemma ord_pop : forall st x q,
  ord st -> queue st = x :: q -> now st <= e_time x ->
  ord (mkState R (e_time x) q (eid st) (users st) (put_queue st) (rng st)
         (records st) (arrivals st)).
Proof.
  intros st x q [] Hq Hle. unfold line, line_of in *. rewrite Hq in *.
  rewrite !ids_cons in *.
  constructor; unfold line, line_of; cbn [now queue put_queue records arrivals].
  - sorted_pieces.
  - rewrite length_app in ord_gen0. lia.
  - intros i s Hs. apply (Started_pop _ x) in Hs.
    destruct (ord_started0 i s Hs) as [H1 H2]. split; [lia|].
    intros j Hj. apply H2. inapp.
  - intros i s j s' Hi Hj. apply (Started_pop _ x) in Hi, Hj. eauto.
  - assumption.
  - intros w j Hw Hj. apply ord_log_line0; [assumption|inapp].
Qed.

(** An entry scheduled without delay comes after the entries of the same
    priority that are due now. *)
Lemma key_after : forall st y p ev,
  wf st -> In y (queue st) -> e_prio y = p -> e_time y <= now st ->
  key_lt y (Entry (now st + 0) p (eid st) ev).
Proof.
  intros st y p ev Hwf Hy Hp Ht.
  pose proof (wf_fresh _ Hwf) as Hf. pose proof (wf_entries _ Hwf) as He.
  rewrite Forall_forall in Hf, He.
  pose proof (Hf y Hy) as Hfy. destruct (He y Hy) as [Hge _].
  unfold key_lt. cbn. rewrite Hp. right. split; [lia|]. right. split; [reflexivity|lia].
Qed.

Lemma reqs_schedule : forall st ev,
  wf st ->
  ids req_id (heappush (Entry (now st + 0) NORMAL (eid st) ev) (queue st)) =
  ids req_id (queue st) ++ req_id ev.
Proof.
  intros st ev Hwf. apply ids_heappush_last; [apply wf_sorted; assumption|].
  intros y Hy Hsel. pose proof (wf_entries _ Hwf) as He.
  rewrite Forall_forall in He. destruct (He y Hy) as [_ Hok].
  destruct (e_event y); cbn in Hsel; try congruence.
  apply key_after; tauto.
Qed.

Lemma inits_schedule : forall st ev,
  wf st ->
  ids init_id (heappush (Entry (now st + 0) URGENT (eid st) ev) (queue st)) =
  ids init_id (queue st) ++ init_id ev.
Proof.
  intros st ev Hwf. apply ids_heappush_last; [apply wf_sorted; assumption|].
  intros y Hy Hsel. pose proof (wf_entries _ Hwf) as He.
  rewrite Forall_forall in He. destruct (He y Hy) as [_ Hok].
  destruct (e_event y); cbn in Hsel; try congruence.
  apply key_after; tauto.
Qed.

Lemma gens_schedule : forall x q,
  ids gen_id q = [] -> ids gen_id (heappush x q) = gen_id (e_event x).
Proof.
  intros x q Hq. induction q as [|y q IH]; cbn [heappush].
  - rewrite ids_cons. apply app_nil_r.
  - rewrite ids_cons in Hq. apply app_eq_nil in Hq as [Hy Hq].
    destruct (entry_ltb x y).
    + rewrite !ids_cons, Hy, Hq. apply app_nil_r.
    + rewrite ids_cons, Hy, IH by assumption. reflexivity.
Qed.

Lemma Started_push : forall recs x q i s,
  Started recs (heappush x q) i s <->
  Started recs q i s \/ exists a d, e_event x = ServiceTimeout i a s d.
Proof.
  intros recs x q i s. unfold Started. split.
  - intros [H|(y & a & d & Hy & Hev)]; [auto|].
    apply heappush_In in Hy as [->|Hy]; [right; eauto|].
    left. right. eauto.
  - intros [[H|(y & a & d & Hy & Hev)]|(a & d & Hev)]; [auto| |].
    + right. exists y, a, d. split; [apply heappush_In; auto|assumption].
    + right. exists x, a, d. split; [apply heappush_In; auto|assumption].
Qed.

Lemma Started_push_plain : forall recs x q i s,
  (forall j a b d, e_event x <> ServiceTimeout j a b d) ->
  Started recs (heappush x q) i s -> Started recs q i s.
Proof.
  intros recs x q i s Hx H. apply Started_push in H as [H|(a & d & Hev)];
    [assumption|]. exfalso. exact (Hx _ _ _ _ Hev).
Qed.

Lemma ord_ext : forall st st' : state R,
  ord st -> now st' = now st -> queue st' = queue st ->
  put_queue st' = put_queue st -> records st' = records st ->
  arrivals st' = arrivals st -> ord st'.
Proof.
  intros st st' [] Hn Hq Hp Hr Ha. unfold line in *.
  constructor; unfold line; rewrite ?Hn, ?Hq, ?Hp, ?Hr, ?Ha; assumption.
Qed.

(** Scheduling an event that carries no customer of the line. *)
Lemma ord_schedule_plain : forall st ev p d,
  ord st -> req_id ev = [] -> init_id ev = [] -> gen_id ev = [] ->
  (forall j a b c, ev <> ServiceTimeout j a b c) ->
  ord (schedule R ev p d st).
Proof.
  intros st ev p d [] H1 H2 H3 H4. unfold line, line_of in *.
  constructor; unfold line, line_of, schedule;
    cbn [now queue put_queue records arrivals];
    rewrite ?(ids_heappush_none req_id), ?(ids_heappush_none init_id),
      ?(ids_heappush_none gen_id) by assumption; try assumption.
  - intros i s Hs. apply Started_push_plain in Hs; [auto|exact H4].
  - intros i s j s' Hi Hj.
    apply Started_push_plain in Hi; [|exact H4].
    apply Started_push_plain in Hj; [|exact H4]. eauto.
Qed.

Lemma ord_trigger_put : forall st, wf st -> ord st -> ord (trigger_put R P st).
Proof.
  intros st Hwf Hord. unfold trigger_put.
  destruct (put_queue st) as [|[i a] rest] eqn:Hpq; [assumption|].
  destruct (Z.of_nat (length (users st)) <? num_cashiers P); [|assumption].
  destruct Hord. unfold line, line_of in *. rewrite Hpq in *. cbn [map fst] in *.
  change (i :: map fst rest) with ([i] ++ map fst rest) in *.
  constructor; unfold line, line_of, schedule;
    cbn [now queue eid put_queue records arrivals];
    rewrite ?reqs_schedule, ?(ids_heappush_none init_id),
      ?(ids_heappush_none gen_id) by (assumption || reflexivity);
    cbn [req_id]; try assumption.
  - sorted_pieces.
  - intros k s Hs. apply Started_push_plain in Hs; [|cbn; congruence].
    destruct (ord_started0 k s Hs) as [Hk1 Hk2]. split; [assumption|].
    intros j Hj. apply Hk2. inapp.
  - intros k s j s' Hk Hj.
    apply Started_push_plain in Hk; [|cbn; congruence].
    apply Started_push_plain in Hj; [|cbn; congruence]. eauto.
Qed.

Lemma ord_failed : forall st e, ord st -> ord (schedule R (ProcFailed e) NORMAL 0 st).
Proof. intros. apply ord_schedule_plain; (assumption || reflexivity || congruence). Qed.

Lemma ord_release : forall st i, ord st -> ord (release R i st).
Proof.
  intros st i Hord. unfold release.
  apply ord_schedule_plain; try reflexivity; try congruence.
  eapply ord_ext; [exact Hord|reflexivity..].
Qed.

Lemma ord_set_rng : forall st g, ord st -> ord (set_rng R g st).
Proof. intros st g Hord. eapply ord_ext; [exact Hord|reflexivity..]. Qed.

(** The generator goes back to sleep holding index [i], which is beyond
    every customer there is. *)
Lemma ord_customer_generator_loop : forall st i,
  ord st -> ids gen_id (queue st) = [] ->
  (forall j, In j (line st) -> (j < i)%nat) ->
  (forall w, In w (arrivals st) -> (fst w < i)%nat) ->
  (forall k s, Started (records st) (queue st) k s -> (k < i)%nat) ->
  ord (customer_generator_loop R P i st).
Proof.
  intros st i Hord Hgen Hline Hlog Hst. unfold customer_generator_loop.
  destruct (randint R (rng st) (min_interarrival P) (max_interarrival P))
    as [e|[d g]]; [apply ord_failed; assumption|].
  unfold timeout. destruct (d <? 0); [apply ord_failed, ord_set_rng; assumption|].
  destruct Hord. unfold line, line_of in *. rewrite Hgen in *.
  constructor; unfold line, line_of, schedule, set_rng;
    cbn [now queue eid put_queue records arrivals];
    rewrite ?(ids_heappush_none req_id), ?(ids_heappush_none init_id),
      ?gens_schedule by (assumption || reflexivity);
    cbn [gen_id e_event]; try assumption.
  - sorted_pieces.
  - cbn. lia.
  - intros k s Hs. apply Started_push_plain in Hs; [|cbn; congruence].
    destruct (ord_started0 k s Hs) as [Hk1 Hk2]. split; [assumption|].
    intros j Hj. rewrite !in_app_iff in Hj.
    destruct Hj as [Hj|[Hj|[Hj|[<-|[]]]]]; [apply Hk2; inapp..|eauto].
  - intros k s j s' Hk Hj.
    apply Started_push_plain in Hk; [|cbn; congruence].
    apply Started_push_plain in Hj; [|cbn; congruence]. eauto.
  - intros w j Hw Hj. rewrite !in_app_iff in Hj.
    destruct Hj as [Hj|[<-|[]]]; [apply ord_log_line0; [assumption|inapp]|auto].
Qed.

(** Line 57: the process of customer [i] is created. *)
Lemma ord_spawn : forall st i,
  wf st -> ord st -> ids gen_id (queue st) = [] ->
  (forall j, In j (line st) -> (j < i)%nat) ->
  (forall w, In w (arrivals st) -> (fst w < i)%nat) ->
  (forall k s, Started (records st) (queue st) k s -> (k < i)%nat) ->
  ord (schedule R (InitCust i) URGENT 0 st) /\
  line (schedule R (InitCust i) URGENT 0 st) = line st ++ [i].
Proof.
  intros st i Hwf Hord Hgen Hline Hlog Hst.
  assert (Hl : line (schedule R (InitCust i) URGENT 0 st) = line st ++ [i]).
  { unfold line, line_of, schedule. cbn [queue put_queue now eid].
    rewrite inits_schedule, (ids_heappush_none req_id),
      (ids_heappush_none gen_id), Hgen by (assumption || reflexivity).
    cbn [init_id]. rewrite !app_nil_r, !app_assoc. reflexivity. }
  split; [|exact Hl].
  destruct Hord. constructor; rewrite ?Hl.
  - apply StronglySorted_snoc; assumption.
  - unfold schedule. cbn [queue].
    rewrite (ids_heappush_none gen_id) by reflexivity. assumption.
  - unfold schedule. cbn [now queue records].
    intros k s Hs. apply Started_push_plain in Hs; [|cbn; congruence].
    destruct (ord_started0 k s Hs) as [Hk1 Hk2]. split; [assumption|].
    intros j Hj. apply in_app_or in Hj as [Hj|[<-|[]]]; eauto.
  - unfold schedule. cbn [now queue records].
    intros k s j s' Hk Hj.
    apply Started_push_plain in Hk; [|cbn; congruence].
    apply Started_push_plain in Hj; [|cbn; congruence]. eauto.
  - assumption.
  - unfold schedule. cbn [now queue eid arrivals].
    rewrite inits_schedule, (ids_heappush_none gen_id), Hgen
      by (assumption || reflexivity).
    cbn [init_id]. intros w j Hw Hj. rewrite !in_app_iff in Hj.
    destruct Hj as [[Hj|[<-|[]]]|[]]; [|auto].
    apply ord_log_line0; [assumption|inapp].
Qed.

Lemma ord_arrived : forall st i,
  wf st -> ord st ->
  (forall j, In j (ids req_id (queue st) ++ map fst (put_queue st)) -> (j < i)%nat) ->
  (forall j, In j (ids init_id (queue st) ++ ids gen_id (queue st)) -> (i < j)%nat) ->
  (forall w, In w (arrivals st) -> (fst w < i)%nat) ->
  (forall k s, Started (records st) (queue st) k s -> (k < i)%nat) ->
  ord (arrived i st).
Proof.
  intros st i Hwf Hord Hbefore Hafter Hlog Hst.
  pose proof (wf_arrivals _ Hwf) as Hnow. rewrite Forall_forall in Hnow.
  destruct Hord. unfold line, line_of in *.
  constructor; unfold line, line_of, arrived;
    cbn [now queue eid put_queue records arrivals];
    rewrite ?map_app; cbn [map fst]; try assumption.
  - sorted_pieces.
  - intros k s Hs. destruct (ord_started0 k s Hs) as [Hk1 Hk2].
    split; [assumption|]. intros j Hj. rewrite !in_app_iff in Hj. cbn [In] in Hj.
    destruct Hj as [Hj|[[Hj|[<-|[]]]|Hj]]; [apply Hk2; inapp..|eauto|apply Hk2; inapp].
  - apply StronglySorted_snoc; [assumption|].
    intros w Hw. split; cbn; [auto|]. apply Hnow in Hw. lia.
  - intros w j Hw Hj. apply in_app_or in Hw as [Hw|[<-|[]]]; [auto|].
    cbn. auto.
Qed.

(** Lines 31-33: customer [i], the first of the line, starts service. *)
Lemma ord_service_customer_granted : forall st i a,
  ord st ->
  (forall j, In j (line st) -> (i < j)%nat) ->
  (forall k s, Started (records st) (queue st) k s -> (k < i)%nat) ->
  ord (service_customer_granted R P i a st).
Proof.
  intros st i a Hord Hline Hst. unfold service_customer_granted.
  destruct (randint R (rng st) (min_service P) (max_service P))
    as [e|[d g]]; [apply ord_failed, ord_release; assumption|].
  unfold timeout.
  destruct (d <? 0); [apply ord_failed, ord_release, ord_set_rng; assumption|].
  destruct Hord. unfold line, line_of in *.
  constructor; unfold line, line_of, schedule, set_rng;
    cbn [now queue eid put_queue records arrivals];
    rewrite ?(ids_heappush_none req_id), ?(ids_heappush_none init_id),
      ?(ids_heappush_none gen_id) by reflexivity; try assumption.
  - intros k s Hs. apply Started_push in Hs as [Hs|(a' & d' & Hev)]; [auto|].
    cbn in Hev. injection Hev as <- _ <- _. split; [lia|assumption].
  - intros k s j s' Hk Hj Hlt.
    apply Started_push in Hk as [Hk|(a1 & d1 & Hev1)];
      apply Started_push in Hj as [Hj|(a2 & d2 & Hev2)].
    + eauto.
    + cbn in Hev2. injection Hev2 as _ _ <- _.
      destruct (ord_started0 k s Hk). assumption.
    + cbn in Hev1. injection Hev1 as <- _ _ _.
      apply Hst in Hj. lia.
    + cbn in Hev1, Hev2. injection Hev1 as _ _ <- _. injection Hev2 as _ _ <- _. lia.
Qed.

Lemma Started_record : forall recs r q k s,
  Started (recs ++ [r]) q k s <->
  Started recs q k s \/ (customer_id r = k /\ start_service r = s).
Proof.
  intros recs r q k s. unfold Started. split.
  - intros [(r' & Hr & H1 & H2)|H]; [|auto].
    apply in_app_or in Hr as [Hr|[<-|[]]]; [left; left; eauto|auto].
  - intros [[(r' & Hr & H1 & H2)|H]|[H1 H2]]; [|auto|].
    + left. exists r'. split; [apply in_or_app; auto|auto].
    + left. exists r. split; [apply in_or_app; right; left; reflexivity|auto].
Qed.

(** Lines 34-49: customer [i], served since [s], gets its row. *)
Lemma ord_service_customer_finish : forall st i a s d,
  ord st -> s <= now st ->
  (forall j, In j (line st) -> (i < j)%nat) ->
  (forall k s', Started (records st) (queue st) k s' ->
                ((k < i)%nat -> s' <= s) /\ ((i < k)%nat -> s <= s')) ->
  ord (service_customer_finish R i a s d st).
Proof.
  intros st i a s d Hord Hs Hline Hst. unfold service_customer_finish.
  apply ord_schedule_plain; try reflexivity; try congruence.
  apply ord_release.
  destruct Hord. unfold line, line_of in *.
  constructor; unfold line, line_of;
    cbn [now queue eid put_queue records arrivals]; try assumption.
  - intros k s' Hk. apply Started_record in Hk as [Hk|[<- <-]]; [auto|].
    cbn. auto.
  - intros k s1 j s2 Hk Hj Hlt.
    apply Started_record in Hk as [Hk|[Hk1 Hk2]];
      apply Started_record in Hj as [Hj|[Hj1 Hj2]]; cbn in *; subst.
    + eauto.
    + apply (Hst k s1 Hk). assumption.
    + apply (Hst j s2 Hj). assumption.
    + lia.
Qed.

Lemma length_le_1_tail : forall (a : nat) l, (length ([a] ++ l) <= 1)%nat -> l = [].
Proof. intros a [|b l] H; [reflexivity|cbn in H; lia]. Qed.

(** One turn of the loop keeps the customers in order. *)
Lemma ord_step : forall st st',
  wf st -> ord st -> step R P st = Continue st' -> ord st'.
Proof.
  intros st st' Hwf Hord Hstep. unfold step in Hstep.
  destruct (queue st) as [|x q] eqn:Hq; [discriminate|].
  destruct (e_event x) eqn:Hev; try discriminate;
    injection Hstep as <-;
    (destruct (wf_pop st x q Hwf Hq) as (Hwf1 & [_ Hx] & Hle);
     [congruence|]); rewrite Hev in Hx;
    pose proof (ord_pop st x q Hord Hq Hle) as Hord1;
    pose proof (ord_line _ Hord) as Hl;
    pose proof (ord_gen _ Hord) as Hg;
    pose proof (ord_started _ Hord) as Hs;
    pose proof (ord_service _ Hord) as Hsv;
    pose proof (ord_log_line _ Hord) as Hll;
    unfold line, line_of in Hl, Hs; rewrite Hq in Hl, Hg, Hs, Hsv, Hll;
    repeat rewrite ids_cons in Hl; repeat rewrite ids_cons in Hg;
    repeat rewrite ids_cons in Hs; repeat rewrite ids_cons in Hll;
    rewrite Hev in Hl, Hg, Hs, Hll;
    cbn [req_id init_id gen_id] in Hl, Hg, Hs, Hll.
  - (* InitGen *)
    apply length_le_1_tail in Hg. rewrite Hg in *.
    apply ord_customer_generator_loop; try assumption;
      unfold line, line_of; cbn [queue put_queue arrivals records].
    + rewrite Hg. intros j Hj. sorted_pieces.
    + intros w Hw. apply (Hll w 1%nat Hw). inapp.
    + intros k s Hk. apply (Started_pop _ x) in Hk.
      apply (Hs k s Hk). inapp.
  - (* InitCust *)
    rewrite service_customer_start_arrived.
    assert (Hwa : wf (arrived i
               (mkState R (e_time x) q (eid st) (users st) (put_queue st)
                  (rng st) (records st) (arrivals st)))).
    { apply wf_arrived; [assumption|]. cbn. tauto. }
    apply ord_trigger_put; [assumption|].
    apply ord_arrived; try assumption; cbn [queue put_queue arrivals records].
    + intros j Hj. sorted_pieces.
    + intros j Hj. sorted_pieces.
    + intros w Hw. apply (Hll w i Hw). inapp.
    + intros k s Hk. apply (Started_pop _ x) in Hk.
      apply (Hs k s Hk). inapp.
  - (* GenTimeout *)
    apply length_le_1_tail in Hg. rewrite Hg in *.
    unfold customer_generator_resume.
    destruct (ord_spawn
                (mkState R (e_time x) q (eid st) (users st) (put_queue st)
                   (rng st) (records st) (arrivals st)) i) as [Hsp Hspl];
      try assumption; unfold line, line_of; cbn [queue put_queue arrivals records].
    + rewrite Hg. intros j Hj. sorted_pieces.
    + intros w Hw. apply (Hll w i Hw). inapp.
    + intros k s Hk. apply (Started_pop _ x) in Hk.
      apply (Hs k s Hk). inapp.
    + apply ord_customer_generator_loop; try assumption.
      * unfold schedule. cbn [queue].
        rewrite (ids_heappush_none gen_id) by reflexivity. assumption.
      * rewrite Hspl. unfold line, line_of. cbn [queue put_queue].
        rewrite Hg. intros j Hj. apply in_app_or in Hj as [Hj|[<-|[]]]; [|lia].
        apply Nat.lt_trans with i; [|lia]. sorted_pieces.
      * unfold schedule. cbn [arrivals]. intros w Hw.
        apply Nat.lt_trans with i; [|lia]. apply (Hll w i Hw). inapp.
      * unfold schedule. cbn [records queue]. intros k s Hk.
        apply Started_push_plain in Hk; [|cbn; congruence].
        apply (Started_pop _ x) in Hk.
        apply Nat.lt_trans with i; [|lia]. apply (Hs k s Hk). inapp.
  - (* RequestEv *)
    apply ord_service_customer_granted; try assumption;
      unfold line, line_of; cbn [queue put_queue arrivals records].
    + intros j Hj. sorted_pieces.
    + intros k s Hk. apply (Started_pop _ x) in Hk.
      apply (Hs k s Hk). inapp.
  - (* ServiceTimeout *)
    assert (Hme : Started (records st) (x :: q) i start).
    { right. exists x, arrival, dur. split; [left; reflexivity|assumption]. }
    apply ord_service_customer_finish; try assumption;
      unfold line, line_of; cbn [now queue put_queue arrivals records].
    + lia.
    + intros j Hj. apply (Hs i start Hme). exact Hj.
    + intros k s' Hk. apply (Started_pop _ x) in Hk. split; intros Hlt; eauto.
  - (* ReleaseEv *)
    apply ord_trigger_put; assumption.
  - (* ProcEnd *)
    assumption.
Qed.

(** The two invariants together. *)
Definition inv (st : state R) : Prop := wf st /\ ord st.

Lemma inv_step : forall st st', inv st -> step R P st = Continue st' -> inv st'.
Proof.
  intros st st' [Hwf Hord] Hstep. split.
  - eapply wf_step; eassumption.
  - eapply ord_step; eassumption.
Qed.

Lemma ord_start_state : forall g, 0 < sim_time P -> ord (start_state g).
Proof.
  intros g Hpos. unfold start_state, initial, schedule.
  cbn [now queue eid users put_queue rng records arrivals heappush].
  assert (E : entry_ltb (Entry (0 + (sim_time P - 0)) URGENT 1 Stop)
                (Entry (0 + 0) URGENT 0 InitGen) = false).
  { apply not_true_is_false. rewrite entry_ltb_spec. unfold key_lt. cbn. lia. }
  rewrite E.
  constructor; unfold line, line_of;
    cbn [now queue eid users put_queue rng records arrivals].
  - cbn. repeat constructor.
  - cbn. lia.
  - intros i s [(r & [] & _)|(x & a & d & Hx & Hev)].
    destruct Hx as [<-|[<-|[]]]; discriminate.
  - intros i s j s' [(r & [] & _)|(x & a & d & Hx & Hev)].
    destruct Hx as [<-|[<-|[]]]; discriminate.
  - constructor.
  - intros w j [].
Qed.

Lemma inv_start_state : forall g, 0 < sim_time P -> inv (start_state g).
Proof. intros. split; [apply wf_start_state|apply ord_start_state]; assumption. Qed.

(** ** What every state of a run satisfies *)

(** [st] is a state of the run: the loop is there after [fuel] turns, or
    has stopped there. *)
Definition reached (fuel : nat) (random_seed : Z) (g0 : rstate R) (st : state R) : Prop :=
  simulate R P fuel random_seed g0 = Running st \/
  simulate R P fuel random_seed g0 = Finished st.

(** The part of the invariants that speaks of the rows and of the
    arrivals only. *)
Record history_ok (recs : list record) (log : list (nat * Z)) : Prop := {
  h_records : Forall record_ok recs;
  h_logged : Forall (fun r => In (customer_id r, arrival_time r) log) recs;
  h_completion : StronglySorted finish_le recs;
  h_arrivals : Forall (fun w => min_interarrival P <= snd w < sim_time P) log;
  h_log : StronglySorted arrival_lt log;
  h_service : forall r1 r2, In r1 recs -> In r2 recs ->
              (customer_id r1 < customer_id r2)%nat ->
              start_service r1 <= start_service r2
}.

Lemma inv_history : forall st, inv st -> history_ok (records st) (arrivals st).
Proof.
  intros st [Hwf Hord]. pose proof (wf_now _ Hwf) as Hn. constructor.
  - apply wf_records. assumption.
  - eapply Forall_impl; [|apply (wf_logged _ Hwf)]. cbn. tauto.
  - apply wf_completion. assumption.
  - eapply Forall_impl; [|apply (wf_arrivals _ Hwf)]. cbn. intros. lia.
  - apply ord_log. assumption.
  - intros r1 r2 H1 H2 Hlt.
    apply (ord_service _ Hord (customer_id r1) _ (customer_id r2)); [| |assumption];
      left; eauto.
Qed.

Lemma reached_inv : forall fuel random_seed g0 st,
  reached fuel random_seed g0 st ->
  exists st1, inv st1 /\ records st = records st1 /\ arrivals st = arrivals st1 /\
              (st = st1 \/ step R P st1 = StopSimulation st).
Proof.
  intros fuel random_seed g0 st [H|H];
    (destruct (simulate_unfold _ _ _ _ H) as (_ & Hpos & Hloop); [eauto|]).
  - exists st. split; [|repeat split; auto].
    eapply (env_loop_running inv inv_step); [|exact Hloop].
    apply inv_start_state. assumption.
  - destruct (env_loop_finished inv inv_step _ _ _
                (inv_start_state (seed R random_seed g0) Hpos) Hloop)
      as (st1 & Hinv & Hstop).
    exists st1. split; [assumption|].
    destruct (step_stop _ _ Hstop) as (x & q & _ & _ & Hst).
    rewrite Hst at 1 2. cbn. auto.
Qed.

Lemma reached_history : forall fuel random_seed g0 st,
  reached fuel random_seed g0 st -> history_ok (records st) (arrivals st).
Proof.
  intros fuel random_seed g0 st H.
  destruct (reached_inv _ _ _ _ H) as (st1 & Hinv & -> & -> & _).
  apply inv_history. assumption.
Qed.

Lemma returned_reached : forall fuel random_seed g0 df,
  run_simulation R P fuel random_seed g0 = Returned df ->
  exists st, reached fuel random_seed g0 st /\ df = records st /\
             simulate R P fuel random_seed g0 = Finished st.
Proof.
  intros fuel random_seed g0 df H. unfold run_simulation in H.
  destruct (simulate R P fuel random_seed g0) as [st| |] eqn:E; try discriminate.
  injection H as <-. exists st. unfold reached. auto.
Qed.

Lemma returned_history : forall fuel random_seed g0 df,
  run_simulation R P fuel random_seed g0 = Returned df ->
  exists log, history_ok df log.
Proof.
  intros fuel random_seed g0 df H.
  destruct (returned_reached _ _ _ _ H) as (st & Hr & -> & _).
  exists (arrivals st). eapply reached_history. eassumption.
Qed.

(** When the loop stops, the clock reads [sim_time] and nothing that is
    still scheduled was due before. *)
Lemma finished_horizon : forall fuel random_seed g0 st,
  simulate R P fuel random_seed g0 = Finished st ->
  now st = sim_time P /\ Forall (fun x => sim_time P <= e_time x) (queue st).
Proof.
  intros fuel random_seed g0 st H.
  destruct (simulate_unfold _ _ _ _ H) as (_ & Hpos & Hloop); [eauto|].
  destruct (env_loop_finished inv inv_step _ _ _
              (inv_start_state (seed R random_seed g0) Hpos) Hloop)
    as (st1 & [Hwf _] & Hstop).
  destruct (step_stop _ _ Hstop) as (x & q & Hq & Hev & ->). cbn.
  pose proof (wf_entries _ Hwf) as He. pose proof (wf_sorted _ Hwf) as Hs.
  rewrite Hq in He, Hs.
  apply Forall_cons_iff in He as [[_ Hx] _]. rewrite Hev in Hx.
  apply StronglySorted_inv in Hs as [_ Hs].
  split; [tauto|].
  eapply Forall_impl; [|exact Hs]. intros y Hy. unfold key_lt in Hy. lia.
Qed.

(** More fuel does not change the outcome of a loop that has ended. *)
Lemma env_loop_more : forall fuel k st res,
  env_loop R P fuel st = res -> (forall st', res <> Running st') ->
  env_loop R P (fuel + k) st = res.
Proof.
  induction fuel as [|n IH]; intros k st res H Hres; cbn in H.
  - exfalso. exact (Hres st (eq_sym H)).
  - cbn. destruct (step R P st); auto.
Qed.

Lemma simulate_more : forall fuel k random_seed g0 res,
  simulate R P fuel random_seed g0 = res -> (forall st', res <> Running st') ->
  simulate R P (fuel + k) random_seed g0 = res.
Proof.
  unfold simulate, env_run. intros fuel k random_seed g0 res H Hres.
  destruct (num_cashiers P <=? 0); [assumption|].
  destruct (sim_time P <=? now (initial R (seed R random_seed g0))); [assumption|].
  apply env_loop_more; assumption.
Qed.

Lemma run_simulation_more : forall fuel k random_seed g0 df,
  run_simulation R P fuel random_seed g0 = Returned df ->
  run_simulation R P (fuel + k) random_seed g0 = Returned df.
Proof.
  unfold run_simulation. intros fuel k random_seed g0 df H.
  destruct (simulate R P fuel random_seed g0) as [st| |] eqn:E; try discriminate.
  rewrite (simulate_more _ k _ _ _ E); [assumption|discriminate].
Qed.

(** ** Termination *)

(** Parameters under which no draw fails, no delay is negative and the
    clock moves between two arrivals. *)
Definition valid : Prop :=
  0 < num_cashiers P /\ 0 < sim_time P /\
  1 <= min_interarrival P <= max_interarrival P /\
  0 <= min_service P <= max_service P.

(** How many turns of the loop an entry can still cause before the stop
    event: a customer goes through five events, the generator spawns at
    most one customer per unit of time left. *)
Definition weight (x : entry) : nat :=
  match e_event x with
  | Stop => 0
  | InitGen => 1 + 6 * Z.to_nat (sim_time P)
  | GenTimeout _ => 6 * Z.to_nat (sim_time P - e_time x)
  | InitCust _ => 5
  | RequestEv _ _ => 4
  | ServiceTimeout _ _ _ _ => 3
  | ReleaseEv _ => 1
  | ProcEnd => 1
  | ProcFailed _ => 1
  end.

Fixpoint total_weight (q : list entry) : nat :=
  match q with
  | [] => 0
  | x :: q' => weight x + total_weight q'
  end.

Definition potential (st : state R) : nat :=
  total_weight (queue st) + 4 * length (put_queue st).

Definition nofail (st : state R) : Prop :=
  Forall (fun x => forall e, e_event x <> ProcFailed e) (queue st).

Lemma weight_heappush : forall x q,
  total_weight (heappush x q) = (weight x + total_weight q)%nat.
Proof.
  intros x q. induction q as [|y q IH]; cbn [heappush].
  - reflexivity.
  - destruct (entry_ltb x y); cbn [total_weight]; [reflexivity|].
    rewrite IH. lia.
Qed.

Lemma potential_schedule : forall st ev p d,
  potential (schedule R ev p d st) =
  (weight (Entry (now st + d) p (eid st) ev) + potential st)%nat.
Proof.
  intros. unfold potential, schedule. cbn [queue put_queue].
  rewrite weight_heappush. lia.
Qed.

Lemma nofail_schedule : forall st ev p d,
  nofail st -> (forall e, ev <> ProcFailed e) -> nofail (schedule R ev p d st).
Proof.
  intros st ev p d Hnf Hev. unfold nofail, schedule. cbn [queue].
  apply heappush_Forall. split; assumption.
Qed.

Lemma trigger_put_progress : forall st,
  nofail st ->
  nofail (trigger_put R P st) /\ potential (trigger_put R P st) = potential st.
Proof.
  intros st Hnf. unfold trigger_put.
  destruct (put_queue st) as [|[i a] rest] eqn:Hpq; [auto|].
  destruct (Z.of_nat (length (users st)) <? num_cashiers P); [|auto].
  split.
  - apply nofail_schedule; [exact Hnf|congruence].
  - rewrite potential_schedule. unfold potential, weight.
    cbn [queue put_queue e_event]. rewrite Hpq. cbn [length]. lia.
Qed.

Lemma release_progress : forall st i,
  nofail st ->
  nofail (release R i st) /\ potential (release R i st) = S (potential st).
Proof.
  intros st i Hnf. unfold release. split.
  - apply nofail_schedule; [exact Hnf|congruence].
  - rewrite potential_schedule. reflexivity.
Qed.

Lemma customer_generator_loop_progress : forall st i,
  valid -> nofail st ->
  nofail (customer_generator_loop R P i st) /\
  (potential (customer_generator_loop R P i st) <=
   potential st + 6 * Z.to_nat (sim_time P - now st - 1))%nat.
Proof.
  intros st i (_ & _ & Hia & _) Hnf. unfold customer_generator_loop, randint.
  destruct (min_interarrival P <=? max_interarrival P) eqn:E;
    [|apply Z.leb_gt in E; lia].
  pose proof (rdraw_range R (rng st) _ _ (proj2 Hia)) as Hr.
  destruct (rdraw R (rng st) (min_interarrival P) (max_interarrival P)) as [d g].
  cbn [fst] in Hr. unfold timeout.
  destruct (d <? 0) eqn:E2; [apply Z.ltb_lt in E2; lia|].
  split.
  - apply nofail_schedule; [exact Hnf|congruence].
  - rewrite potential_schedule. unfold weight, set_rng. cbn [e_event e_time now].
    change (potential (mkState R (now st) (queue st) (eid st) (users st)
                         (put_queue st) g (records st) (arrivals st)))
      with (potential st).
    assert (Z.to_nat (sim_time P - (now st + d)) <=
            Z.to_nat (sim_time P - now st - 1))%nat by lia.
    lia.
Qed.

Lemma service_customer_granted_progress : forall st i a,
  valid -> nofail st ->
  nofail (service_customer_granted R P i a st) /\
  potential (service_customer_granted R P i a st) = (3 + potential st)%nat.
Proof.
  intros st i a (_ & _ & _ & Hsv) Hnf. unfold service_customer_granted, randint.
  destruct (min_service P <=? max_service P) eqn:E;
    [|apply Z.leb_gt in E; lia].
  pose proof (rdraw_range R (rng st) _ _ (proj2 Hsv)) as Hr.
  destruct (rdraw R (rng st) (min_service P) (max_service P)) as [d g].
  cbn [fst] in Hr. unfold timeout.
  destruct (d <? 0) eqn:E2; [apply Z.ltb_lt in E2; lia|].
  split.
  - apply nofail_schedule; [exact Hnf|congruence].
  - rewrite potential_schedule. reflexivity.
Qed.

(** Under valid parameters a turn of the loop either processes the stop
    event or uses up some of the potential. *)
Lemma step_progress : forall st,
  valid -> wf st -> nofail st ->
  (exists st', step R P st = StopSimulation st') \/
  (exists st', step R P st = Continue st' /\ nofail st' /\
               (potential st' < potential st)%nat).
Proof.
  intros st Hv Hwf Hnf. unfold step.
  destruct (queue st) as [|x q] eqn:Hq.
  { pose proof (wf_stop _ Hwf) as Hs. rewrite Hq in Hs. inversion Hs. }
  assert (Hpot : potential st =
                 (weight x + potential (mkState R (e_time x) q (eid st) (users st)
                                          (put_queue st) (rng st) (records st)
                                          (arrivals st)))%nat).
  { unfold potential. rewrite Hq. cbn [queue put_queue total_weight]. lia. }
  assert (Hnf1 : nofail (mkState R (e_time x) q (eid st) (users st)
                           (put_queue st) (rng st) (records st) (arrivals st))).
  { unfold nofail in *. rewrite Hq in Hnf. cbn [queue].
    apply Forall_cons_iff in Hnf. tauto. }
  assert (Hx : forall e, e_event x <> ProcFailed e).
  { unfold nofail in Hnf. rewrite Hq in Hnf.
    apply Forall_cons_iff in Hnf. tauto. }
  set (st1 := mkState R (e_time x) q (eid st) (users st) (put_queue st)
                (rng st) (records st) (arrivals st)) in *.
  destruct (e_event x) eqn:Hev; [left; eauto|right..];
    try (destruct (wf_pop st x q Hwf Hq) as (Hwf1 & _ & Hle); [congruence|];
         fold st1 in Hwf1; pose proof (wf_now _ Hwf1) as Hn1;
         pose proof (wf_now _ Hwf) as Hn; cbn [now st1] in Hn1);
    unfold weight in Hpot; rewrite Hev in Hpot.
  - (* InitGen *)
    destruct (customer_generator_loop_progress st1 1 Hv Hnf1) as [H1 H2].
    eexists. split; [reflexivity|]. split; [exact H1|].
    cbn [now st1] in H2.
    assert (Z.to_nat (sim_time P - e_time x - 1) <= Z.to_nat (sim_time P))%nat
      by lia.
    lia.
  - (* InitCust *)
    eexists. split; [reflexivity|].
    rewrite service_customer_start_arrived.
    assert (Hna : nofail (arrived i st1)) by exact Hnf1.
    destruct (trigger_put_progress _ Hna) as [H1 H2].
    split; [exact H1|]. rewrite H2. unfold potential, arrived.
    cbn [queue put_queue]. rewrite length_app. cbn [length].
    unfold potential in Hpot. lia.
  - (* GenTimeout *)
    eexists. split; [reflexivity|]. unfold customer_generator_resume.
    assert (Hns : nofail (schedule R (InitCust i) URGENT 0 st1))
      by (apply nofail_schedule; [exact Hnf1|congruence]).
    destruct (customer_generator_loop_progress _ (S i) Hv Hns) as [H1 H2].
    split; [exact H1|].
    rewrite potential_schedule in H2. unfold weight in H2.
    cbn [e_event now schedule st1] in H2.
    assert (Z.to_nat (sim_time P - e_time x) =
            S (Z.to_nat (sim_time P - e_time x - 1)))%nat by lia.
    lia.
  - (* RequestEv *)
    eexists. split; [reflexivity|].
    destruct (service_customer_granted_progress st1 i arrival Hv Hnf1) as [H1 H2].
    split; [exact H1|]. lia.
  - (* ServiceTimeout *)
    eexists. split; [reflexivity|]. unfold service_customer_finish.
    set (st2 := mkState R (now st1) (queue st1) (eid st1) (users st1)
                  (put_queue st1) (rng st1) (records st1 ++ _) (arrivals st1)).
    assert (Hnf2 : nofail st2) by exact Hnf1.
    destruct (release_progress st2 i Hnf2) as [H1 H2].
    split; [apply nofail_schedule; [exact H1|congruence]|].
    rewrite potential_schedule, H2. unfold weight. cbn [e_event].
    change (potential st2) with (potential st1). lia.
  - (* ReleaseEv *)
    eexists. split; [reflexivity|].
    destruct (trigger_put_progress _ Hnf1) as [H1 H2].
    split; [exact H1|]. lia.
  - (* ProcEnd *)
    eexists. split; [reflexivity|]. split; [exact Hnf1|]. lia.
  - (* ProcFailed *)
    exfalso. exact (Hx e eq_refl).
Qed.

Lemma env_loop_terminates : forall n st,
  valid -> wf st -> nofail st -> (potential st < n)%nat ->
  exists st', env_loop R P n st = Finished st'.
Proof.
  induction n as [|n IH]; intros st Hv Hwf Hnf Hlt; [lia|].
  cbn [env_loop].
  destruct (step_progress st Hv Hwf Hnf) as [[st' Hs]|(st' & Hs & Hnf' & Hp)];
    rewrite Hs.
  - eauto.
  - apply IH; try assumption; [|lia]. eapply wf_step; eassumption.
Qed.

(** Under valid parameters the engine returns, after at most
    [6 * sim_time + 1] events and the stop event. *)
Lemma simulate_terminates : forall random_seed g0,
  valid ->
  exists st, simulate R P (Z.to_nat (6 * sim_time P + 2)) random_seed g0 =
             Finished st.
Proof.
  intros random_seed g0 Hv. pose proof Hv as (Hc & Ht & _).
  unfold simulate, env_run.
  destruct (num_cashiers P <=? 0) eqn:E1; [apply Z.leb_le in E1; lia|].
  cbn [now initial schedule].
  destruct (sim_time P <=? 0) eqn:E2; [apply Z.leb_le in E2; lia|].
  apply (env_loop_terminates _ (start_state (seed R random_seed g0))); try assumption.
  - apply wf_start_state. assumption.
  - unfold nofail, start_state, schedule. cbn [queue].
    apply heappush_Forall. split; [cbn; congruence|].
    unfold initial, schedule. cbn [queue].
    apply heappush_Forall. split; [cbn; congruence|constructor].
  - unfold start_state. rewrite potential_schedule.
    unfold initial. rewrite potential_schedule.
    unfold potential, weight.
    cbn [e_event total_weight queue put_queue length]. lia.
Qed.

End Invariant.

Arguments reached R P fuel random_seed g0 st : assert.

(** ** Pairs of a sorted history *)

Lemma arrival_lt_pairs : forall log w w',
  StronglySorted arrival_lt log -> In w log -> In w' log ->
  (fst w < fst w')%nat -> snd w <= snd w'.
Proof.
  intros log w w' Hs. induction Hs as [|a l Hs IH Ha]; intros Hw Hw' Hlt.
  - contradiction.
  - rewrite Forall_forall in Ha. destruct Hw as [<-|Hw], Hw' as [<-|Hw'].
    + lia.
    + apply Ha in Hw'. unfold arrival_lt in Hw'. lia.
    + apply Ha in Hw. unfold arrival_lt in Hw. lia.
    + auto.
Qed.

(** ** Single-valued ranges *)

(** When both ranges hold one value each, every draw is that value and
    the run does not depend on the random source: the sample runs above
    are the runs of the program under Python's generator too. *)

Section Degenerate.

Variables R1 R2 : RandomSource.
Variable P : params.
Hypothesis Hia : min_interarrival P = max_interarrival P.
Hypothesis Hsv : min_service P = max_service P.

(** Two states that differ in the state of the generator at most. *)
Definition same (s1 : state R1) (s2 : state R2) : Prop :=
  now s1 = now s2 /\ queue s1 = queue s2 /\ eid s1 = eid s2 /\
  users s1 = users s2 /\ put_queue s1 = put_queue s2 /\
  records s1 = records s2 /\ arrivals s1 = arrivals s2.

Definition same_step (r1 : step_result R1) (r2 : step_result R2) : Prop :=
  match r1, r2 with
  | Continue a, Continue b => same a b
  | StopSimulation a, StopSimulation b => same a b
  | Raise e1, Raise e2 => e1 = e2
  | _, _ => False
  end.

Definition same_result (r1 : run_result R1) (r2 : run_result R2) : Prop :=
  match r1, r2 with
  | Finished a, Finished b => same a b
  | Running a, Running b => same a b
  | Raised e1, Raised e2 => e1 = e2
  | _, _ => False
  end.

Lemma randint_single : forall (R : RandomSource) g a,
  exists g', randint R g a a = inr (a, g').
Proof.
  intros R g a. unfold randint. rewrite Z.leb_refl.
  pose proof (rdraw_range R g a a (Z.le_refl a)) as Hr.
  destruct (rdraw R g a a) as [v g']. cbn in Hr.
  exists g'. f_equal. f_equal. lia.
Qed.

Ltac same_tac :=
  unfold same in *; cbn [now queue eid users put_queue rng records arrivals] in *;
  repeat match goal with H : _ /\ _ |- _ => destruct H end;
  repeat split; congruence.

Lemma same_schedule : forall s1 s2 ev p d,
  same s1 s2 -> same (schedule R1 ev p d s1) (schedule R2 ev p d s2).
Proof. intros. unfold schedule. same_tac. Qed.

Lemma same_set_rng : forall s1 s2 g1 g2,
  same s1 s2 -> same (set_rng R1 g1 s1) (set_rng R2 g2 s2).
Proof. intros. unfold set_rng. same_tac. Qed.

Lemma same_release : forall s1 s2 i,
  same s1 s2 -> same (release R1 i s1) (release R2 i s2).
Proof. intros. unfold release. apply same_schedule. same_tac. Qed.

Lemma same_trigger_put : forall s1 s2,
  same s1 s2 -> same (trigger_put R1 P s1) (trigger_put R2 P s2).
Proof.
  intros s1 s2 H. unfold trigger_put.
  assert (Hp : put_queue s1 = put_queue s2) by (unfold same in H; tauto).
  assert (Hu : users s1 = users s2) by (unfold same in H; tauto).
  rewrite Hp, Hu. destruct (put_queue s2) as [|[i a] rest]; [assumption|].
  destruct (Z.of_nat (length (users s2)) <? num_cashiers P); [|assumption].
  apply same_schedule. same_tac.
Qed.

Lemma same_timeout : forall s1 s2 d k c1 c2,
  same s1 s2 -> same (c1 s1) (c2 s2) ->
  same (timeout R1 d k c1 s1) (timeout R2 d k c2 s2).
Proof.
  intros. unfold timeout. destruct (d <? 0); apply same_schedule; assumption.
Qed.

Lemma same_customer_generator_loop : forall s1 s2 i,
  same s1 s2 ->
  same (customer_generator_loop R1 P i s1) (customer_generator_loop R2 P i s2).
Proof.
  intros s1 s2 i H. unfold customer_generator_loop. rewrite Hia.
  destruct (randint_single R1 (rng s1) (max_interarrival P)) as [g1 ->].
  destruct (randint_single R2 (rng s2) (max_interarrival P)) as [g2 ->].
  apply same_timeout; apply same_set_rng; assumption.
Qed.

Lemma same_service_customer_granted : forall s1 s2 i a,
  same s1 s2 ->
  same (service_customer_granted R1 P i a s1)
       (service_customer_granted R2 P i a s2).
Proof.
  intros s1 s2 i a H. unfold service_customer_granted. rewrite Hsv.
  destruct (randint_single R1 (rng s1) (max_service P)) as [g1 ->].
  destruct (randint_single R2 (rng s2) (max_service P)) as [g2 ->].
  assert (Hn : now s1 = now s2) by (unfold same in H; tauto). rewrite Hn.
  apply same_timeout; [|apply same_release]; apply same_set_rng; assumption.
Qed.

Lemma same_step_step : forall s1 s2,
  same s1 s2 -> same_step (step R1 P s1) (step R2 P s2).
Proof.
  intros s1 s2 H. unfold step.
  assert (Hq : queue s1 = queue s2) by (unfold same in H; tauto).
  rewrite Hq. destruct (queue s2) as [|x q]; [reflexivity|].
  assert (H1 : same (mkState R1 (e_time x) q (eid s1) (users s1) (put_queue s1)
                       (rng s1) (records s1) (arrivals s1))
                    (mkState R2 (e_time x) q (eid s2) (users s2) (put_queue s2)
                       (rng s2) (records s2) (arrivals s2))) by same_tac.
  destruct (e_event x); cbn [same_step]; try assumption; try reflexivity.
  - apply same_customer_generator_loop. assumption.
  - unfold service_customer_start, request. apply same_trigger_put. same_tac.
  - unfold customer_generator_resume.
    apply same_customer_generator_loop, same_schedule. assumption.
  - apply same_service_customer_granted. assumption.
  - unfold service_customer_finish. apply same_schedule, same_release. same_tac.
  - apply same_trigger_put. assumption.
Qed.

Lemma same_env_loop : forall fuel s1 s2,
  same s1 s2 -> same_result (env_loop R1 P fuel s1) (env_loop R2 P fuel s2).
Proof.
  induction fuel as [|n IH]; intros s1 s2 H; cbn [env_loop].
  - exact H.
  - pose proof (same_step_step s1 s2 H) as Hs.
    destruct (step R1 P s1), (step R2 P s2); cbn in Hs; try contradiction.
    + apply IH. assumption.
    + exact Hs.
    + exact Hs.
Qed.

(** With single-valued ranges, two random sources give the same result,
    whatever the seeds. *)
Lemma single_valued_ranges : forall fuel seed1 seed2 g1 g2,
  run_simulation R1 P fuel seed1 g1 = run_simulation R2 P fuel seed2 g2.
Proof.
  intros fuel seed1 seed2 g1 g2. unfold run_simulation, simulate, env_run.
  destruct (num_cashiers P <=? 0); [reflexivity|].
  cbn [now initial schedule].
  destruct (sim_time P <=? 0); [reflexivity|].
  pose proof (same_env_loop fuel
                (schedule R1 Stop URGENT (sim_time P - 0)
                   (initial R1 (seed R1 seed1 g1)))
                (schedule R2 Stop URGENT (sim_time P - 0)
                   (initial R2 (seed R2 seed2 g2)))) as H.
  cbn [now initial schedule] in H.
  match type of H with ?A -> _ => assert (Ha : A) by same_tac end.
  specialize (H Ha).
  destruct (env_loop R1 P fuel _), (env_loop R2 P fuel _); cbn in H;
    try contradiction.
  - f_equal. unfold same in H. tauto.
  - congruence.
  - reflexivity.
Qed.

End Degenerate.

(** ** The sample runs *)

Lemma busy_run : run_simulation lcg busy_params 100 42 0 = Returned busy_df.
Proof. vm_compute. reflexivity. Qed.

Lemma busy_reached : reached lcg busy_params 100 42 0 busy_final.
Proof. right. reflexivity. Qed.

(** The rows of the sample runs under any random source and seed. *)
Lemma busy_run_any_source : forall R random_seed g,
  run_simulation R busy_params 100 random_seed g = Returned busy_df.
Proof.
  intros R random_seed g.
  rewrite (single_valued_ranges R lcg busy_params eq_refl eq_refl
             100 random_seed 42 g 0).
  exact busy_run.
Qed.

Lemma short_run_any_source : forall R random_seed g,
  run_simulation R short_params 100 random_seed g = Returned [].
Proof.
  intros R random_seed g.
  rewrite (single_valued_ranges R lcg short_params eq_refl eq_refl
             100 random_seed 42 g 0).
  vm_compute. reflexivity.
Qed.

Lemma zero_service_run_any_source : forall R random_seed g,
  run_simulation R (mkParams 1 4 1 1 0 0) 100 random_seed g =
  Returned [mkRecord 1 1 1 1 0 0 0; mkRecord 2 2 2 2 0 0 0;
            mkRecord 3 3 3 3 0 0 0].
Proof.
  intros R random_seed g.
  rewrite (single_valued_ranges R lcg (mkParams 1 4 1 1 0 0) eq_refl eq_refl
             100 random_seed 42 g 0).
  vm_compute. reflexivity.
Qed.

(** ** The engine returns *)

(** Under valid parameters [run_simulation] returns; the fuel covers at
    most six events per unit of simulated time. *)
Lemma run_simulation_returns : forall R P random_seed g0,
  valid P ->
  exists df,
    run_simulation R P (Z.to_nat (6 * sim_time P + 2)) random_seed g0 = Returned df.
Proof.
  intros R P random_seed g0 Hv.
  destruct (simulate_terminates R P random_seed g0 Hv) as [st Hst].
  exists (records st). unfold run_simulation. rewrite Hst. reflexivity.
Qed.

(** The form of [main] lets valid parameters through only. *)
Lemma form_in_range_valid : forall f num,
  form_in_range f -> 1 <= num <= 10 -> valid (scenario f num).
Proof.
  unfold form_in_range, valid, scenario. cbn [num_cashiers sim_time
    min_interarrival max_interarrival min_service max_service].
  intros f num (_ & H) Hnum. lia.
Qed.

(** * Counting and history *)

From Stdlib Require Import Permutation.

(** ** Counting customers *)

Definition svc_id (ev : event) : list nat :=
  match ev with ServiceTimeout i _ _ _ => [i] | _ => [] end.

(** How many times [k] occurs in [l]. *)
Definition cnt (k : nat) (l : list nat) : nat := count_occ Nat.eq_dec l k.

Lemma cnt_nil : forall k, cnt k [] = 0%nat.
Proof. reflexivity. Qed.

Lemma cnt_app : forall k l1 l2, cnt k (l1 ++ l2) = (cnt k l1 + cnt k l2)%nat.
Proof. intros. apply count_occ_app. Qed.

Lemma cnt_one : forall k i, (cnt k [i] <= 1)%nat.
Proof. intros. unfold cnt. cbn. destruct (Nat.eq_dec i k); lia. Qed.

Lemma cnt_cons : forall k i l, cnt k (i :: l) = (cnt k [i] + cnt k l)%nat.
Proof. intros. change (i :: l) with ([i] ++ l). apply cnt_app. Qed.

Lemma cnt_ids_heappush : forall k sel x q,
  cnt k (ids sel (heappush x q)) =
  (cnt k (sel (e_event x)) + cnt k (ids sel q))%nat.
Proof.
  intros k sel x q. induction q as [|y q IH]; cbn [heappush].
  - rewrite ids_cons, cnt_app. reflexivity.
  - destruct (entry_ltb x y).
    + rewrite ids_cons, cnt_app. reflexivity.
    + rewrite !ids_cons, !cnt_app, IH. lia.
Qed.

Lemma cnt_remove_first : forall k i l,
  cnt k (remove_first i l) = (cnt k l - cnt k [i])%nat.
Proof.
  intros k i l. induction l as [|j l IH]; cbn [remove_first].
  - reflexivity.
  - destruct (Nat.eqb i j) eqn:E.
    + apply Nat.eqb_eq in E. subst j. rewrite (cnt_cons k i l). lia.
    + apply Nat.eqb_neq in E. rewrite (cnt_cons k j l), (cnt_cons k j), IH.
      assert (H0 : cnt k [i] = 0%nat \/ cnt k [j] = 0%nat).
      { unfold cnt. cbn. destruct (Nat.eq_dec i k), (Nat.eq_dec j k); auto.
        congruence. }
      pose proof (cnt_one k i). pose proof (cnt_one k j). lia.
Qed.

Lemma length_remove_first : forall i l,
  (length (remove_first i l) <= length l)%nat.
Proof.
  intros i l. induction l as [|j l IH]; cbn [remove_first length]; [lia|].
  destruct (Nat.eqb i j); cbn [length]; lia.
Qed.

Lemma cnt_Permutation : forall l1 l2,
  (forall k, cnt k l1 = cnt k l2) -> Permutation l1 l2.
Proof. intros l1 l2 H. apply (Permutation_count_occ Nat.eq_dec). exact H. Qed.

Lemma cnt_NoDup : forall l, (forall k, (cnt k l <= 1)%nat) -> NoDup l.
Proof. intros l H. apply (NoDup_count_occ Nat.eq_dec). exact H. Qed.

Lemma NoDup_cnt : forall l k, NoDup l -> (cnt k l <= 1)%nat.
Proof. intros l k H. apply (proj1 (NoDup_count_occ Nat.eq_dec l) H). Qed.

Lemma length_ids_heappush : forall sel x q,
  length (ids sel (heappush x q)) =
  (length (sel (e_event x)) + length (ids sel q))%nat.
Proof.
  intros sel x q. induction q as [|y q IH]; cbn [heappush].
  - rewrite ids_cons, length_app. reflexivity.
  - destruct (entry_ltb x y).
    + rewrite ids_cons, length_app. reflexivity.
    + rewrite !ids_cons, !length_app, IH. lia.
Qed.

Lemma ids_In : forall sel q i,
  In i (ids sel q) <-> exists x, In x q /\ In i (sel (e_event x)).
Proof. intros sel q i. unfold ids. apply in_flat_map. Qed.

Lemma ids_none : forall sel q x,
  length (ids sel q) = 0%nat -> In x q -> sel (e_event x) = [].
Proof.
  intros sel q x Hl Hx. destruct (sel (e_event x)) as [|i l] eqn:E; [reflexivity|].
  assert (Hi : In i (ids sel q)).
  { apply ids_In. exists x. split; [assumption|]. rewrite E. left. reflexivity. }
  destruct (ids sel q); [contradiction|discriminate].
Qed.

Section Census.

Variable R : RandomSource.
Variable P : params.

(** An invariant of [step] that holds when the loop is entered and is
    not disturbed by the stop event holds in every state of a run. *)
Lemma reached_extend : forall (K : state R -> Prop),
  (forall g, 0 < num_cashiers P -> 0 < sim_time P -> K (start_state R P g)) ->
  (forall st st', inv R P st -> K st -> step R P st = Continue st' -> K st') ->
  (forall st st', inv R P st -> K st -> step R P st = StopSimulation st' -> K st') ->
  forall fuel random_seed g0 st, reached R P fuel random_seed g0 st -> K st.
Proof.
  intros K Hstart Hstep Hstop fuel random_seed g0 st Hr.
  assert (Hboth : forall st st', inv R P st /\ K st ->
            step R P st = Continue st' -> inv R P st' /\ K st').
  { intros s s' [Hi Hk] Hs. split; [eapply inv_step|eapply Hstep]; eassumption. }
  destruct Hr as [H|H];
    (destruct (simulate_unfold R P _ _ _ _ H) as (Hc & Hpos & Hloop); [eauto|]).
  - eapply (env_loop_running R P (fun s => inv R P s /\ K s) Hboth); [|exact Hloop].
    split; [apply inv_start_state|apply Hstart]; assumption.
  - destruct (env_loop_finished R P (fun s => inv R P s /\ K s) Hboth _ _ _
                (conj (inv_start_state R P (seed R random_seed g0) Hpos)
                      (Hstart _ Hc Hpos)) Hloop)
      as (st1 & [Hi Hk] & Hs).
    eapply Hstop; eassumption.
Qed.

(** Who holds a slot, and where every customer that has arrived is: the
    holders of a slot are the customers whose request is granted or whose
    service is running; a customer that has arrived is at most once among
    the rows, the holders and the waiting requests, and exactly once
    when no service draw can fail. *)
Record census (st : state R) : Prop := {
  cs_users : forall k,
    cnt k (users st) =
    (cnt k (ids req_id (queue st)) + cnt k (ids svc_id (queue st)))%nat;
  cs_capacity : Z.of_nat (length (users st)) <= num_cashiers P;
  cs_stages : forall k,
    (cnt k (map customer_id (records st)) + cnt k (users st) +
     cnt k (map fst (put_queue st)) <= cnt k (map fst (arrivals st)))%nat;
  cs_exact : 0 <= min_service P <= max_service P -> forall k,
    (cnt k (map customer_id (records st)) + cnt k (users st) +
     cnt k (map fst (put_queue st)))%nat = cnt k (map fst (arrivals st))
}.

Ltac count_tac :=
  unfold schedule, set_rng, arrived;
  cbn [now queue eid users put_queue rng records arrivals];
  rewrite ?map_app, ?length_app, ?cnt_ids_heappush, ?cnt_app, ?cnt_remove_first;
  cbn [map fst customer_id req_id svc_id init_id gen_id e_event length];
  rewrite ?cnt_nil;
  repeat match goal with
         | H : context [cnt _ (_ ++ _)] |- _ => rewrite cnt_app in H
         | H : context [cnt _ []] |- _ => rewrite cnt_nil in H
         end;
  try lia.

Ltac census_goals :=
  cbn [now queue eid users put_queue rng records arrivals] in *;
  constructor;
  [ let k := fresh "k" in intros k
  | idtac
  | let k := fresh "k" in intros k
  | let Hv := fresh "Hv" in let k := fresh "k" in intros Hv k ];
  repeat match goal with
         | k : nat, H : forall j : nat, _ |- _ => generalize (H k); clear H; intro
         | k : nat, Hv : 0 <= _ <= _, H : _ -> forall j : nat, _ |- _ =>
             generalize (H Hv k); clear H; intro
         end;
  count_tac.

Lemma census_trigger_put : forall st, census st -> census (trigger_put R P st).
Proof.
  intros st [Hu Hcap Hst Hex]. unfold trigger_put.
  destruct (put_queue st) as [|[i a] rest] eqn:Hpq.
  { constructor; rewrite ?Hpq; assumption. }
  destruct (Z.of_nat (length (users st)) <? num_cashiers P) eqn:E.
  2:{ constructor; rewrite ?Hpq; assumption. }
  apply Z.ltb_lt in E.
  assert (Hst' : forall k,
            (cnt k (map customer_id (records st)) + cnt k (users st) +
             (cnt k [i] + cnt k (map fst rest)) <= cnt k (map fst (arrivals st)))%nat).
  { intros k. specialize (Hst k). rewrite ?Hpq in Hst. cbn [map fst] in Hst.
    rewrite cnt_cons in Hst. exact Hst. }
  assert (Hex' : 0 <= min_service P <= max_service P -> forall k,
            (cnt k (map customer_id (records st)) + cnt k (users st) +
             (cnt k [i] + cnt k (map fst rest)))%nat = cnt k (map fst (arrivals st))).
  { intros Hv k. specialize (Hex Hv k). rewrite ?Hpq in Hex. cbn [map fst] in Hex.
    rewrite cnt_cons in Hex. exact Hex. }
  clear Hex Hst.
  census_goals.
Qed.

Lemma census_step : forall st st',
  census st -> step R P st = Continue st' -> census st'.
Proof.
  intros st st' Hc Hstep. unfold step in Hstep.
  destruct (queue st) as [|x q] eqn:Hq; [discriminate|].
  assert (Hc1 : forall ev, e_event x = ev ->
            req_id ev = [] -> svc_id ev = [] ->
            census (mkState R (e_time x) q (eid st) (users st) (put_queue st)
                      (rng st) (records st) (arrivals st))).
  { intros ev Hev H1 H2. destruct Hc as [Hu Hcap Hst Hex].
    rewrite Hq in Hu. rewrite !ids_cons, Hev, H1, H2 in Hu.
    constructor; cbn [now queue eid users put_queue rng records arrivals];
      assumption. }
  destruct (e_event x) eqn:Hev; try discriminate; injection Hstep as <-.
  - (* InitGen *)
    specialize (Hc1 _ eq_refl eq_refl eq_refl). destruct Hc1 as [Hu Hcap Hst Hex].
    unfold customer_generator_loop, timeout.
    destruct (randint R _ _ _) as [e|[d g]]; [|destruct (d <? 0)];
      census_goals.
  - (* InitCust *)
    specialize (Hc1 _ eq_refl eq_refl eq_refl). destruct Hc1 as [Hu Hcap Hst Hex].
    rewrite service_customer_start_arrived. apply census_trigger_put.
    census_goals.
  - (* GenTimeout *)
    specialize (Hc1 _ eq_refl eq_refl eq_refl). destruct Hc1 as [Hu Hcap Hst Hex].
    unfold customer_generator_resume, customer_generator_loop, timeout.
    cbn [rng schedule].
    destruct (randint R _ _ _) as [e|[d g]]; [|destruct (d <? 0)];
      census_goals.
  - (* RequestEv *)
    destruct Hc as [Hu Hcap Hst Hex].
    rewrite Hq in Hu. rewrite !ids_cons, Hev in Hu. cbn [req_id svc_id] in Hu.
    pose proof (length_remove_first i (users st)) as Hlen.
    unfold service_customer_granted, timeout, release.
    destruct (randint R _ _ _) as [e|[d g]] eqn:Hd.
    + assert (Hbad : ~ (0 <= min_service P <= max_service P)).
      { unfold randint in Hd. destruct (min_service P <=? max_service P) eqn:E;
          [discriminate|]. apply Z.leb_gt in E. lia. }
      census_goals; try contradiction.
    + apply randint_inr in Hd. destruct (d <? 0) eqn:E.
      * apply Z.ltb_lt in E.
        census_goals.
      * census_goals.
  - (* ServiceTimeout *)
    destruct Hc as [Hu Hcap Hst Hex].
    rewrite Hq in Hu. rewrite !ids_cons, Hev in Hu. cbn [req_id svc_id] in Hu.
    pose proof (length_remove_first i (users st)) as Hlen.
    unfold service_customer_finish, release.
    census_goals.
  - (* ReleaseEv *)
    apply census_trigger_put. apply (Hc1 _ eq_refl eq_refl eq_refl).
  - (* ProcEnd *)
    apply (Hc1 _ eq_refl eq_refl eq_refl).
Qed.

Lemma census_start : forall g, 0 < num_cashiers P -> census (start_state R P g).
Proof.
  intros g Hc. unfold start_state, initial.
  constructor; [intros k| |intros k|intros Hv k]; count_tac.
Qed.

Lemma census_stop : forall st st',
  census st -> step R P st = StopSimulation st' -> census st'.
Proof.
  intros st st' [Hu Hcap Hst Hex] Hs.
  destruct (step_stop R P _ _ Hs) as (x & q & Hq & Hev & ->).
  rewrite Hq in Hu. rewrite !ids_cons, Hev in Hu.
  constructor; cbn [now queue eid users put_queue rng records arrivals];
    assumption.
Qed.

Lemma reached_census : forall fuel random_seed g0 st,
  reached R P fuel random_seed g0 st -> census st.
Proof.
  apply reached_extend.
  - intros g Hc _. apply census_start. assumption.
  - intros st st' _. apply census_step.
  - intros st st' _. apply census_stop.
Qed.

End Census.

Lemma arrival_ids_NoDup : forall log,
  StronglySorted arrival_lt log -> NoDup (map fst log).
Proof.
  intros log Hs. induction Hs as [|w l Hs IH Hw]; cbn [map].
  - constructor.
  - constructor; [|assumption].
    intros Hin. apply in_map_iff in Hin as (w' & Hfst & Hin').
    rewrite Forall_forall in Hw. apply Hw in Hin'.
    unfold arrival_lt in Hin'. lia.
Qed.

(** ** Who waits, and for whom *)



Section Handover.

Variable R : RandomSource.
Variable P : params.





(** *** What one turn of the loop adds *)









(** *** Waiting past the instant of arrival *)



(** *** The slots that are about to be handed over *)






(** *** The invariant *)





(** *** The queue of the resource *)






End Handover.
(** * The claims *)

(** ** C1 *)

(** C1, as the code has it: when the loop stops the clock reads
    [sim_time]; every row of the result has [finish_time < sim_time],
    every arrival happened before [sim_time], and whatever is still
    scheduled (the completion of a service in progress among it) was due
    at [sim_time] or later and is never processed. *)
Theorem horizon_stops_everything : forall R P fuel random_seed g0 st,
  simulate R P fuel random_seed g0 = Finished st ->
  run_simulation R P fuel random_seed g0 = Returned (records st) /\
  now st = sim_time P /\
  (forall r, In r (records st) -> finish_time r < sim_time P) /\
  (forall w, In w (arrivals st) -> snd w < sim_time P) /\
  (forall x, In x (queue st) -> sim_time P <= e_time x).
Proof.
  intros R P fuel random_seed g0 st H.
  destruct (finished_horizon R P _ _ _ _ H) as [Hnow Hq].
  assert (Hh : history_ok P (records st) (arrivals st)).
  { eapply reached_history. right. exact H. }
  destruct Hh. rewrite Forall_forall in *.
  repeat split.
  - unfold run_simulation. rewrite H. reflexivity.
  - exact Hnow.
  - intros r Hr. apply h_records0 in Hr. unfold record_ok in Hr. tauto.
  - intros w Hw. apply h_arrivals0 in Hw. tauto.
  - exact Hq.
Qed.

Lemma horizon_stops_everything_witness :
  simulate lcg busy_params 100 42 0 = Finished busy_final /\
  run_simulation lcg busy_params 100 42 0 = Returned (records busy_final) /\
  now busy_final = 20 /\
  (forall r, In r (records busy_final) -> finish_time r < 20) /\
  (forall w, In w (arrivals busy_final) -> snd w < 20) /\
  (forall x, In x (queue busy_final) -> 20 <= e_time x).
Proof.
  split; [reflexivity|].
  apply (horizon_stops_everything lcg busy_params 100 42 0 busy_final).
  reflexivity.
Defined.

(** C1 as stated fails: one cashier, horizon 5, arrivals every 2,
    service 4.  Customer 1 starts service at 2 and is in service at the
    horizon (its completion is scheduled for 6, its request holds the
    slot), yet the run returns no row at all. *)
Lemma service_in_progress_is_dropped :
  simulate lcg short_params 100 42 0 = Finished short_final /\
  In (Entry 6 NORMAL 6 (ServiceTimeout 1 2 2 4)) (queue short_final) /\
  users short_final = [1%nat] /\
  now short_final = 5 /\
  run_simulation lcg short_params 100 42 0 = Returned (records short_final) /\
  ~ (exists r, In r (records short_final) /\ customer_id r = 1%nat).
Proof.
  split; [reflexivity|]. split; [left; reflexivity|].
  split; [reflexivity|]. split; [reflexivity|].
  split; [vm_compute; reflexivity|].
  intros (r & Hr & _). exact Hr.
Qed.

(** ** C2 *)

(** C2: the result of [run_simulation] is a function of its seven
    arguments, because line 21 resets the generator.  Whatever state the
    global random generator is in when the two calls are made, they end
    the same way; and however long the two loops are allowed to run, two
    calls that return give the same rows. *)
Theorem run_simulation_deterministic : forall R P random_seed,
  (forall fuel g1 g2,
     run_simulation R P fuel random_seed g1 =
     run_simulation R P fuel random_seed g2) /\
  (forall fuel1 fuel2 g1 g2 df1 df2,
     run_simulation R P fuel1 random_seed g1 = Returned df1 ->
     run_simulation R P fuel2 random_seed g2 = Returned df2 ->
     df1 = df2).
Proof.
  intros R P random_seed. split; [reflexivity|].
  intros fuel1 fuel2 g1 g2 df1 df2 H1 H2.
  apply (run_simulation_more R P _ fuel2) in H1.
  apply (run_simulation_more R P _ fuel1) in H2.
  rewrite Nat.add_comm in H2.
  assert (E : run_simulation R P (fuel1 + fuel2) random_seed g1 =
              run_simulation R P (fuel1 + fuel2) random_seed g2) by reflexivity.
  congruence.
Qed.

Lemma run_simulation_deterministic_witness :
  run_simulation lcg busy_params 100 42 0 = Returned busy_df /\
  run_simulation lcg busy_params 150 42 987654321 = Returned busy_df /\
  busy_df = busy_df.
Proof.
  pose proof busy_run as H1.
  assert (H2 : run_simulation lcg busy_params 150 42 987654321 = Returned busy_df)
    by (vm_compute; reflexivity).
  split; [exact H1|]. split; [exact H2|].
  exact (proj2 (run_simulation_deterministic lcg busy_params 42)
           100%nat 150%nat 0 987654321 busy_df busy_df H1 H2).
Defined.

(** ** C3 *)

(** C3: in every row of the result, [system_time] is [queue_time] plus
    [service_duration]; [finish_time] is [start_service] plus
    [service_duration] and [queue_time] is [start_service] minus
    [arrival_time]. *)
Theorem additivity : forall R P fuel random_seed g0 df r,
  run_simulation R P fuel random_seed g0 = Returned df -> In r df ->
  system_time r = queue_time r + service_duration r /\
  finish_time r = start_service r + service_duration r /\
  queue_time r = start_service r - arrival_time r.
Proof.
  intros R P fuel random_seed g0 df r Hrun Hr.
  destruct (returned_history R P _ _ _ _ Hrun) as (log & []).
  rewrite Forall_forall in h_records0. apply h_records0 in Hr.
  unfold record_ok in Hr. lia.
Qed.

Lemma additivity_witness :
  run_simulation lcg busy_params 100 42 0 = Returned busy_df /\
  In (mkRecord 3 6 10 14 4 4 8) busy_df /\
  (8 = 4 + 4 /\ 14 = 10 + 4 /\ 4 = 10 - 6).
Proof.
  pose proof busy_run as H1.
  assert (H2 : In (mkRecord 3 6 10 14 4 4 8) busy_df)
    by (right; right; left; reflexivity).
  split; [exact H1|]. split; [exact H2|].
  exact (additivity lcg busy_params 100 42 0 busy_df _ H1 H2).
Defined.

(** ** C4 *)

(** C4, as the code has it: in every row [queue_time >= 0] and
    [service_duration] lies between [min_service] and [max_service]; it
    is at least 1 whenever [min_service] is, which the form of [main]
    guarantees and [run_simulation] does not check. *)
Theorem non_negativity : forall R P fuel random_seed g0 df r,
  run_simulation R P fuel random_seed g0 = Returned df -> In r df ->
  0 <= queue_time r /\
  min_service P <= service_duration r <= max_service P /\
  (1 <= min_service P -> 1 <= service_duration r).
Proof.
  intros R P fuel random_seed g0 df r Hrun Hr.
  destruct (returned_history R P _ _ _ _ Hrun) as (log & []).
  rewrite Forall_forall in h_records0. apply h_records0 in Hr.
  unfold record_ok in Hr. lia.
Qed.

Lemma non_negativity_witness :
  run_simulation lcg busy_params 100 42 0 = Returned busy_df /\
  In (mkRecord 3 6 10 14 4 4 8) busy_df /\
  (0 <= 4 /\ 4 <= 4 <= 4 /\ (1 <= 4 -> 1 <= 4)).
Proof.
  pose proof busy_run as H1.
  assert (H2 : In (mkRecord 3 6 10 14 4 4 8) busy_df)
    by (right; right; left; reflexivity).
  split; [exact H1|]. split; [exact H2|].
  exact (non_negativity lcg busy_params 100 42 0 busy_df _ H1 H2).
Defined.

(** C4 as stated fails: with [min_service = max_service = 0], which
    [run_simulation] accepts, every service lasts 0. *)
Lemma zero_service_duration :
  run_simulation lcg (mkParams 1 4 1 1 0 0) 100 42 0 =
    Returned [mkRecord 1 1 1 1 0 0 0; mkRecord 2 2 2 2 0 0 0;
              mkRecord 3 3 3 3 0 0 0] /\
  ~ (queue_time (mkRecord 1 1 1 1 0 0 0) >= 0 /\
     service_duration (mkRecord 1 1 1 1 0 0 0) >= 1).
Proof. split; [vm_compute; reflexivity|]. cbn. lia. Qed.

(** ** C5 *)

(** C5: in every state of every run, no customer has an [arrival_time]
    beyond [sim_time]. *)
Theorem horizon_respect : forall R P fuel random_seed g0 st i t,
  reached R P fuel random_seed g0 st -> In (i, t) (arrivals st) ->
  t <= sim_time P.
Proof.
  intros R P fuel random_seed g0 st i t Hst Hin.
  destruct (reached_history R P _ _ _ _ Hst).
  rewrite Forall_forall in h_arrivals0. apply h_arrivals0 in Hin. cbn in Hin. lia.
Qed.

Lemma horizon_respect_witness :
  reached lcg busy_params 100 42 0 busy_final /\
  In (9%nat, 18) (arrivals busy_final) /\ 18 <= 20.
Proof.
  pose proof busy_reached as H1.
  assert (H2 : In (9%nat, 18) (arrivals busy_final))
    by (cbn; tauto).
  split; [exact H1|]. split; [exact H2|].
  exact (horizon_respect lcg busy_params 100 42 0 busy_final 9 18 H1 H2).
Defined.

(** ** C6 *)

(** C6: in every state of every run, of two customers the one with the
    smaller index has arrived no later; so for the rows of the result. *)
Theorem arrival_ordering : forall R P fuel random_seed g0 st,
  reached R P fuel random_seed g0 st ->
  (forall i t j t', In (i, t) (arrivals st) -> In (j, t') (arrivals st) ->
                    (i < j)%nat -> t <= t') /\
  (forall r1 r2, In r1 (records st) -> In r2 (records st) ->
                 (customer_id r1 < customer_id r2)%nat ->
                 arrival_time r1 <= arrival_time r2).
Proof.
  intros R P fuel random_seed g0 st Hst.
  destruct (reached_history R P _ _ _ _ Hst).
  split.
  - intros i t j t' Hi Hj Hlt.
    exact (arrival_lt_pairs _ (i, t) (j, t') h_log0 Hi Hj Hlt).
  - intros r1 r2 H1 H2 Hlt. rewrite Forall_forall in h_logged0.
    exact (arrival_lt_pairs _ (customer_id r1, arrival_time r1)
             (customer_id r2, arrival_time r2) h_log0
             (h_logged0 _ H1) (h_logged0 _ H2) Hlt).
Qed.

Lemma arrival_ordering_witness :
  reached lcg busy_params 100 42 0 busy_final /\
  (forall i t j t', In (i, t) (arrivals busy_final) ->
                    In (j, t') (arrivals busy_final) ->
                    (i < j)%nat -> t <= t') /\
  (forall r1 r2, In r1 (records busy_final) -> In r2 (records busy_final) ->
                 (customer_id r1 < customer_id r2)%nat ->
                 arrival_time r1 <= arrival_time r2).
Proof.
  pose proof busy_reached as H1.
  split; [exact H1|].
  exact (arrival_ordering lcg busy_params 100 42 0 busy_final H1).
Defined.

(** ** C7 *)

(** C7: the rows are returned in the order the services completed:
    [finish_time] never decreases along the result. *)
Theorem completion_order : forall R P fuel random_seed g0 df,
  run_simulation R P fuel random_seed g0 = Returned df ->
  StronglySorted finish_le df.
Proof.
  intros R P fuel random_seed g0 df Hrun.
  destruct (returned_history R P _ _ _ _ Hrun) as (log & []). assumption.
Qed.

Lemma completion_order_witness :
  run_simulation lcg busy_params 100 42 0 = Returned busy_df /\
  StronglySorted finish_le busy_df.
Proof.
  pose proof busy_run as H1.
  split; [exact H1|].
  exact (completion_order lcg busy_params 100 42 0 busy_df H1).
Defined.

(** With two cashiers the order of completion need not be the order of
    arrival: here customer 2 is served from 4 to 6 while customer 1 is
    served from 2 to 9.  (The durations 7 and 2 are those the generator
    [lcg] draws; another random source draws others.) *)
Example completion_is_not_arrival_order :
  run_simulation lcg (mkParams 2 12 2 3 1 9) 100 1 0 =
  Returned [mkRecord 2 4 4 6 0 2 2; mkRecord 1 2 2 9 0 7 7].
Proof. vm_compute. reflexivity. Qed.

(** ** C8 *)



(** With one cashier, arrivals every 2 and services of 4: at the instant
    6 customer 1 leaves and customer 3 arrives.  The cashier goes to
    customer 2, waiting since 4, who is served from 6; customer 3 waits
    until 10. *)
Lemma release_goes_to_the_first_in_line :
  simulate lcg busy_params 8 42 0 = Running busy_at_8 /\
  hd_error (queue busy_at_8) = Some (Entry 6 URGENT 11 (InitCust 3)) /\
  put_queue busy_at_8 = [(2%nat, 4)] /\
  run_simulation lcg busy_params 100 42 0 = Returned busy_df /\
  In (mkRecord 2 4 6 10 2 4 6) busy_df /\
  In (mkRecord 3 6 10 14 4 4 8) busy_df.
Proof.
  split; [reflexivity|]. split; [reflexivity|]. split; [reflexivity|].
  split; [vm_compute; reflexivity|].
  split; [right; left; reflexivity|right; right; left; reflexivity].
Qed.

(** ** C9 *)

(** C9.  A run can return no row without failing: under valid
    parameters with a horizon that is not beyond the shortest gap plus
    the shortest service, [run_simulation] returns the empty frame.  For
    every input [main] can get from its widgets, both runs return and
    [main] shows either the message in an error box, when one of the two
    results has no row, or the report; and whenever the widgets are
    shown, the button is pressed and one of two returned results has no
    row, [main] shows the error box and returns, no exception leaving
    it. *)
Theorem empty_result_is_reported :
  (forall R P random_seed g0,
     valid P -> sim_time P <= min_interarrival P + min_service P ->
     run_simulation R P (Z.to_nat (6 * sim_time P + 2)) random_seed g0 =
       Returned []) /\
  (forall R f g0,
     form_in_range f -> run_button f = true ->
     exists df_a df_b g,
       run_simulation R (scenario f (f_num_cashiers_a f))
         (Z.to_nat (6 * f_sim_time f + 2)) (f_random_seed f) g0 = Returned df_a /\
       run_simulation R (scenario f (f_num_cashiers_b f))
         (Z.to_nat (6 * f_sim_time f + 2)) (f_random_seed f) g = Returned df_b /\
       main R (Z.to_nat (6 * f_sim_time f + 2)) f g0 =
       if df_empty df_a || df_empty df_b
       then ErrorBox empty_message else Report df_a df_b) /\
  (forall R fuel f g0 sa df_b,
     widgets_ok f = true -> run_button f = true ->
     simulate R (scenario f (f_num_cashiers_a f)) fuel (f_random_seed f) g0 =
       Finished sa ->
     run_simulation R (scenario f (f_num_cashiers_b f)) fuel (f_random_seed f)
       (rng sa) = Returned df_b ->
     records sa = [] \/ df_b = [] ->
     main R fuel f g0 = ErrorBox empty_message).
Proof.
  split; [|split].
  - intros R P random_seed g0 Hv Hshort.
    destruct (simulate_terminates R P random_seed g0 Hv) as [st Hst].
    unfold run_simulation. rewrite Hst. f_equal.
    pose proof (reached_history R P _ _ _ _ (or_intror Hst))
      as [Hrec Hlog _ Harr _ _].
    destruct (records st) as [|r l]; [reflexivity|exfalso].
    apply Forall_cons_iff in Hrec as [(_ & _ & Hf & Has & Hd & Hh) _].
    apply Forall_cons_iff in Hlog as [Hin _].
    rewrite Forall_forall in Harr. apply Harr in Hin. cbn [snd] in Hin. lia.
  - intros R f g0 Hf Hb.
    pose proof Hf as (Hw & _ & _ & _ & _ & _ & Ha & Hbb & _).
    destruct (simulate_terminates R _ (f_random_seed f) g0
                (form_in_range_valid f _ Hf Ha)) as [sa Hsa].
    destruct (run_simulation_returns R _ (f_random_seed f) (rng sa)
                (form_in_range_valid f _ Hf Hbb)) as [df_b Hdf].
    cbn [scenario sim_time] in Hsa, Hdf.
    exists (records sa), df_b, (rng sa). split; [|split].
    + unfold run_simulation. rewrite Hsa. reflexivity.
    + exact Hdf.
    + unfold main. rewrite Hw, Hb, Hsa, Hdf. reflexivity.
  - intros R fuel f g0 sa df_b Hw Hb Ha Hrb Hempty. unfold main.
    rewrite Hw, Hb, Ha, Hrb.
    destruct Hempty as [->| ->]; cbn; [reflexivity|].
    rewrite orb_true_r. reflexivity.
Qed.

Lemma empty_result_is_reported_witness :
  run_simulation lcg short_params (Z.to_nat (6 * 5 + 2)) 42 0 = Returned [] /\
  form_in_range wide_form /\
  run_button wide_form = true /\
  simulate lcg (scenario wide_form 1) 700 3 0 = Finished wide_final_a /\
  run_simulation lcg (scenario wide_form 2) 700 3 (rng wide_final_a) =
    Returned [] /\
  main lcg 700 wide_form 0 = ErrorBox empty_message /\
  (exists df_a df_b g,
     run_simulation lcg (scenario wide_form 1) (Z.to_nat (6 * 100 + 2)) 3 0 =
       Returned df_a /\
     run_simulation lcg (scenario wide_form 2) (Z.to_nat (6 * 100 + 2)) 3 g =
       Returned df_b /\
     main lcg (Z.to_nat (6 * 100 + 2)) wide_form 0 =
     if df_empty df_a || df_empty df_b
     then ErrorBox empty_message else Report df_a df_b).
Proof.
  assert (Hv : valid short_params) by (unfold valid; cbn; lia).
  assert (Hs : sim_time short_params <=
               min_interarrival short_params + min_service short_params)
    by (cbn; lia).
  assert (H0 : form_in_range wide_form)
    by (unfold form_in_range; split; [reflexivity|cbn; lia]).
  assert (Hw : widgets_ok wide_form = true) by reflexivity.
  assert (H1 : run_button wide_form = true) by reflexivity.
  assert (H2 : simulate lcg (scenario wide_form (f_num_cashiers_a wide_form))
                 700 (f_random_seed wide_form) 0 = Finished wide_final_a)
    by reflexivity.
  assert (H3 : run_simulation lcg
                 (scenario wide_form (f_num_cashiers_b wide_form)) 700
                 (f_random_seed wide_form) (rng wide_final_a) = Returned [])
    by (vm_compute; reflexivity).
  split; [exact (proj1 empty_result_is_reported lcg short_params 42 0 Hv Hs)|].
  split; [exact H0|]. split; [exact H1|]. split; [exact H2|].
  split; [exact H3|]. split.
  - exact (proj2 (proj2 empty_result_is_reported) lcg 700%nat wide_form 0
             wide_final_a [] Hw H1 H2 H3 (or_intror eq_refl)).
  - exact (proj1 (proj2 empty_result_is_reported) lcg wide_form 0 H0 H1).
Defined.

(** ** C10 *)

(** C10, as the code has it: every customer arrives at
    [min_interarrival] or later, the first gap having elapsed before the
    first customer is spawned; so nobody arrives at time 0 when
    [min_interarrival] is at least 1, which the form of [main]
    guarantees and [run_simulation] does not check. *)
Theorem first_gap_elapses : forall R P fuel random_seed g0 st i t,
  reached R P fuel random_seed g0 st -> In (i, t) (arrivals st) ->
  min_interarrival P <= t /\ (1 <= min_interarrival P -> 0 < t).
Proof.
  intros R P fuel random_seed g0 st i t Hst Hin.
  destruct (reached_history R P _ _ _ _ Hst).
  rewrite Forall_forall in h_arrivals0. apply h_arrivals0 in Hin. cbn in Hin. lia.
Qed.

Lemma first_gap_elapses_witness :
  reached lcg busy_params 100 42 0 busy_final /\
  In (1%nat, 2) (arrivals busy_final) /\
  (2 <= 2 /\ (1 <= 2 -> 0 < 2)).
Proof.
  pose proof busy_reached as H1.
  assert (H2 : In (1%nat, 2) (arrivals busy_final)) by (left; reflexivity).
  split; [exact H1|]. split; [exact H2|].
  exact (first_gap_elapses lcg busy_params 100 42 0 busy_final 1 2 H1 H2).
Defined.

(** C10 as stated fails: with [min_interarrival = max_interarrival = 0],
    which [run_simulation] accepts, the first gap is 0 and customer 1
    arrives at time 0. *)
Lemma arrival_at_time_zero :
  simulate lcg crowd_params 3 42 0 = Running crowd_at_3 /\
  In (1%nat, 0) (arrivals crowd_at_3) /\
  ~ (forall i t, In (i, t) (arrivals crowd_at_3) -> 0 < t).
Proof.
  split; [reflexivity|]. split; [left; reflexivity|].
  intros H. specialize (H 1%nat 0 (or_introl eq_refl)). lia.
Qed.

(** * Further properties of the engine *)

(** ** The cashiers *)

(** In every state of every run, the customers that hold a cashier are
    at most [num_cashiers], and they are the customers whose request has
    been granted or whose service is running. *)
Theorem capacity_is_respected : forall R P fuel random_seed g0 st,
  reached R P fuel random_seed g0 st ->
  Z.of_nat (length (users st)) <= num_cashiers P /\
  Permutation (users st)
    (ids req_id (queue st) ++ ids svc_id (queue st)).
Proof.
  intros R P fuel random_seed g0 st Hst.
  destruct (reached_census R P _ _ _ _ Hst) as [Hu Hcap _ _].
  split; [exact Hcap|].
  apply cnt_Permutation. intros k. rewrite cnt_app. apply Hu.
Qed.

Lemma capacity_is_respected_witness :
  reached lcg busy_params 100 42 0 busy_final /\
  Z.of_nat (length (users busy_final)) <= 1 /\
  Permutation (users busy_final)
    (ids req_id (queue busy_final) ++ ids svc_id (queue busy_final)).
Proof.
  pose proof busy_reached as H1. split; [exact H1|].
  exact (capacity_is_respected lcg busy_params 100 42 0 busy_final H1).
Defined.

(** ** No customer is lost or counted twice *)

(** When no service draw can fail ([0 <= min_service <= max_service]),
    every customer that has arrived is, in every state of the run and so
    when it stops, exactly one of: recorded in a row, holding a cashier,
    waiting in the queue.  So the arrivals are as many as the rows, the
    holders and the waiting customers together. *)
Theorem customers_are_conserved : forall R P fuel random_seed g0 st,
  reached R P fuel random_seed g0 st ->
  0 <= min_service P <= max_service P ->
  Permutation (map fst (arrivals st))
    (map customer_id (records st) ++ users st ++ map fst (put_queue st)) /\
  length (arrivals st) =
  (length (records st) + length (users st) + length (put_queue st))%nat.
Proof.
  intros R P fuel random_seed g0 st Hst Hv.
  destruct (reached_census R P _ _ _ _ Hst) as [_ _ _ Hex].
  assert (Hp : Permutation (map fst (arrivals st))
                 (map customer_id (records st) ++ users st ++
                  map fst (put_queue st))).
  { apply cnt_Permutation. intros k. rewrite !cnt_app, <- (Hex Hv k). lia. }
  split; [exact Hp|].
  apply Permutation_length in Hp.
  rewrite !length_app, !length_map in Hp. lia.
Qed.

Lemma customers_are_conserved_witness :
  reached lcg busy_params 100 42 0 busy_final /\
  0 <= 4 <= 4 /\
  Permutation (map fst (arrivals busy_final))
    (map customer_id (records busy_final) ++ users busy_final ++
     map fst (put_queue busy_final)) /\
  length (arrivals busy_final) =
  (length (records busy_final) + length (users busy_final) +
   length (put_queue busy_final))%nat.
Proof.
  pose proof busy_reached as H1.
  assert (H2 : 0 <= min_service busy_params <= max_service busy_params)
    by (cbn; lia).
  split; [exact H1|]. split; [exact H2|].
  exact (customers_are_conserved lcg busy_params 100 42 0 busy_final H1 H2).
Defined.

(** ** The customer ids of the result *)

(** No two rows of a result have the same [customer_id]; every row is
    the row of a customer that has arrived; so the rows are at most as
    many as the arrivals. *)
Theorem customer_ids_are_unique : forall R P fuel random_seed g0 st,
  reached R P fuel random_seed g0 st ->
  NoDup (map customer_id (records st)) /\
  incl (map customer_id (records st)) (map fst (arrivals st)) /\
  (length (records st) <= length (arrivals st))%nat.
Proof.
  intros R P fuel random_seed g0 st Hst.
  destruct (reached_census R P _ _ _ _ Hst) as [_ _ Hstages _].
  destruct (reached_history R P _ _ _ _ Hst) as [_ Hlogged _ _ Hlog _].
  pose proof (arrival_ids_NoDup _ Hlog) as Hnd.
  assert (H1 : NoDup (map customer_id (records st))).
  { apply cnt_NoDup. intros k. specialize (Hstages k).
    pose proof (NoDup_cnt _ k Hnd). lia. }
  assert (H2 : incl (map customer_id (records st)) (map fst (arrivals st))).
  { intros k Hk. apply in_map_iff in Hk as (r & <- & Hr).
    rewrite Forall_forall in Hlogged. apply Hlogged in Hr.
    apply in_map_iff. exists (customer_id r, arrival_time r). auto. }
  split; [exact H1|]. split; [exact H2|].
  pose proof (NoDup_incl_length H1 H2) as Hlen.
  rewrite !length_map in Hlen. exact Hlen.
Qed.

Lemma customer_ids_are_unique_witness :
  reached lcg busy_params 100 42 0 busy_final /\
  NoDup (map customer_id (records busy_final)) /\
  incl (map customer_id (records busy_final)) (map fst (arrivals busy_final)) /\
  (length (records busy_final) <= length (arrivals busy_final))%nat.
Proof.
  pose proof busy_reached as H1. split; [exact H1|].
  exact (customer_ids_are_unique lcg busy_params 100 42 0 busy_final H1).
Defined.

(** ** The numbering and the times of the arrivals *)

Lemma seq_prefix : forall (l1 l2 : list nat) s,
  l1 ++ l2 = seq s (length (l1 ++ l2)) -> l1 = seq s (length l1).
Proof.
  induction l1 as [|a l1 IH]; intros l2 s H; cbn in *.
  - reflexivity.
  - injection H as Ha H. f_equal; [assumption|]. eapply IH. eassumption.
Qed.

Lemma seq_snoc : forall (l : list nat) a,
  l ++ [a] = seq 1 (length (l ++ [a])) ->
  l = seq 1 (length l) /\ a = S (length l).
Proof.
  intros l a H. rewrite length_app in H. cbn [length] in H.
  rewrite Nat.add_1_r, seq_S in H. apply app_inj_tail in H as [H1 H2].
  split; [exact H1|]. lia.
Qed.

Section Numbering.

Variable R : RandomSource.
Variable P : params.

(** The indices given out so far, in the order they were given: the
    customers that have arrived, those whose process is not yet started
    and the index the generator holds. *)
Definition roster_of (log : list (nat * Z)) (q : list entry) : list nat :=
  map fst log ++ ids init_id q ++ ids gen_id q.

Definition roster (st : state R) : list nat :=
  roster_of (arrivals st) (queue st).

Definition numbered (st : state R) : Prop :=
  roster st = seq 1 (length (roster st)).

(** The time at which index [i] is due lies [i] gaps after 0. *)
Definition in_window (i : nat) (t : Z) : Prop :=
  Z.of_nat i * min_interarrival P <= t <= Z.of_nat i * max_interarrival P.

Definition entry_on_time (x : entry) : Prop :=
  match e_event x with
  | InitGen => e_time x = 0
  | GenTimeout i => in_window i (e_time x)
  | InitCust i => in_window i (e_time x)
  | _ => True
  end.

Definition on_time (st : state R) : Prop :=
  Forall entry_on_time (queue st) /\
  Forall (fun w => in_window (fst w) (snd w)) (arrivals st).

Lemma roster_trigger_put : forall st,
  roster (trigger_put R P st) = roster st.
Proof.
  intros st. unfold trigger_put.
  destruct (put_queue st) as [|[i a] rest]; [reflexivity|].
  destruct (Z.of_nat (length (users st)) <? num_cashiers P); [|reflexivity].
  unfold roster, roster_of, schedule. cbn [queue arrivals].
  rewrite (ids_heappush_none init_id), (ids_heappush_none gen_id) by reflexivity.
  reflexivity.
Qed.

Lemma roster_schedule_plain : forall st ev p d,
  init_id ev = [] -> gen_id ev = [] ->
  roster (schedule R ev p d st) = roster st.
Proof.
  intros st ev p d H1 H2. unfold roster, roster_of, schedule. cbn [queue arrivals].
  rewrite (ids_heappush_none init_id), (ids_heappush_none gen_id) by assumption.
  reflexivity.
Qed.

Lemma numbered_customer_generator_loop : forall st i,
  ids gen_id (queue st) = [] -> numbered st -> i = S (length (roster st)) ->
  numbered (customer_generator_loop R P i st).
Proof.
  intros st i Hg Hn Hi. unfold customer_generator_loop, timeout.
  assert (Hplain : forall e, numbered (schedule R (ProcFailed e) NORMAL 0 st)).
  { intros e. unfold numbered.
    rewrite roster_schedule_plain by reflexivity. exact Hn. }
  destruct (randint R _ _ _) as [e|[d g]]; [apply Hplain|].
  destruct (d <? 0); [apply (Hplain NegativeDelay)|].
  unfold numbered, roster, roster_of, schedule, set_rng in *.
  cbn [queue arrivals] in *.
  rewrite (ids_heappush_none init_id), gens_schedule by (assumption || reflexivity).
  cbn [gen_id e_event]. rewrite Hg, app_nil_r in Hn.
  rewrite Hg, app_nil_r in Hi. rewrite app_assoc, length_app. cbn [length].
  rewrite Nat.add_1_r, seq_S, <- Hn, Hi. reflexivity.
Qed.

Lemma numbered_step : forall st st',
  inv R P st -> numbered st -> step R P st = Continue st' -> numbered st'.
Proof.
  intros st st' [Hwf Hord] Hn Hstep. unfold step in Hstep.
  destruct (queue st) as [|x q] eqn:Hq; [discriminate|].
  pose proof (ord_gen _ _ Hord) as Hg. rewrite Hq, ids_cons in Hg.
  unfold numbered, roster, roster_of in Hn. rewrite Hq, !ids_cons in Hn.
  set (st1 := mkState R (e_time x) q (eid st) (users st) (put_queue st)
                (rng st) (records st) (arrivals st)).
  assert (Hr1 : roster st1 = map fst (arrivals st) ++ ids init_id q ++ ids gen_id q)
    by reflexivity.
  destruct (e_event x) eqn:Hev; try discriminate; injection Hstep as <-;
    fold st1; cbn [init_id gen_id] in Hn, Hg;
    try (destruct (wf_pop R P st x q Hwf Hq) as (Hwf1 & _ & _); [congruence|];
         fold st1 in Hwf1).
  - (* InitGen *)
    apply length_le_1_tail in Hg. rewrite Hg in Hn, Hr1.
    rewrite app_nil_l, app_assoc in Hn. apply seq_snoc in Hn as [Hn Hi].
    rewrite app_nil_r in Hr1.
    apply numbered_customer_generator_loop; [exact Hg| |].
    + unfold numbered. rewrite Hr1. exact Hn.
    + rewrite Hr1. exact Hi.
  - (* InitCust *)
    rewrite service_customer_start_arrived. unfold numbered.
    rewrite roster_trigger_put. unfold roster, roster_of, arrived.
    cbn [queue arrivals now st1].
    rewrite map_app. cbn [map fst]. rewrite <- app_assoc. exact Hn.
  - (* GenTimeout *)
    apply length_le_1_tail in Hg. rewrite Hg in Hn, Hr1.
    rewrite app_nil_l, app_assoc in Hn.
    pose proof (seq_snoc _ _ Hn) as [Hn1 Hi]. rewrite app_nil_r in Hr1.
    unfold customer_generator_resume.
    assert (Hrs : roster (schedule R (InitCust i) URGENT 0 st1) =
                  (map fst (arrivals st) ++ ids init_id q) ++ [i]).
    { unfold roster, roster_of, schedule. cbn [queue arrivals].
      rewrite (inits_schedule R P st1 (InitCust i) Hwf1).
      rewrite (ids_heappush_none gen_id) by reflexivity.
      cbn [queue st1 init_id]. rewrite Hg, app_nil_r, app_assoc. reflexivity. }
    apply numbered_customer_generator_loop.
    + unfold schedule. cbn [queue].
      rewrite (ids_heappush_none gen_id) by reflexivity. exact Hg.
    + unfold numbered. rewrite Hrs. exact Hn.
    + rewrite Hrs, length_app. cbn [length]. lia.
  - (* RequestEv *)
    unfold service_customer_granted, timeout, release.
    destruct (randint R _ _ _) as [e|[d g]]; [|destruct (d <? 0)];
      unfold numbered; rewrite ?roster_schedule_plain by reflexivity;
      rewrite app_nil_l in Hn; exact Hn.
  - (* ServiceTimeout *)
    unfold service_customer_finish, release.
    unfold numbered; rewrite ?roster_schedule_plain by reflexivity.
    rewrite app_nil_l in Hn. exact Hn.
  - (* ReleaseEv *)
    unfold numbered. rewrite roster_trigger_put. rewrite app_nil_l in Hn. exact Hn.
  - (* ProcEnd *)
    rewrite app_nil_l in Hn. exact Hn.
Qed.

Lemma numbered_start : forall g, numbered (start_state R P g).
Proof.
  intros g. unfold numbered, roster, roster_of, start_state, initial, schedule.
  cbn [queue arrivals map].
  rewrite !(ids_heappush_none init_id) by reflexivity.
  rewrite (ids_heappush_none gen_id) by reflexivity.
  reflexivity.
Qed.

Lemma numbered_stop : forall st st',
  numbered st -> step R P st = StopSimulation st' -> numbered st'.
Proof.
  intros st st' Hn Hs.
  destruct (step_stop R P _ _ Hs) as (x & q & Hq & Hev & ->).
  unfold numbered, roster, roster_of in *. cbn [queue arrivals].
  rewrite Hq, !ids_cons, Hev in Hn. exact Hn.
Qed.

Lemma reached_numbered : forall fuel random_seed g0 st,
  reached R P fuel random_seed g0 st ->
  map fst (arrivals st) = seq 1 (length (arrivals st)).
Proof.
  intros fuel random_seed g0 st Hst.
  assert (Hn : numbered st).
  { revert fuel random_seed g0 st Hst. apply reached_extend.
    - intros g _ _. apply numbered_start.
    - apply numbered_step.
    - intros st st' _. apply numbered_stop. }
  unfold numbered, roster, roster_of in Hn. apply seq_prefix in Hn.
  rewrite length_map in Hn. exact Hn.
Qed.

Lemma on_time_schedule : forall st ev p d,
  on_time st -> entry_on_time (Entry (now st + d) p (eid st) ev) ->
  on_time (schedule R ev p d st).
Proof.
  intros st ev p d [Hq Ha] Hx. split; cbn [schedule queue arrivals]; [|assumption].
  apply heappush_Forall. split; assumption.
Qed.

Lemma on_time_trigger_put : forall st, on_time st -> on_time (trigger_put R P st).
Proof.
  intros st H. unfold trigger_put.
  destruct (put_queue st) as [|[i a] rest]; [assumption|].
  destruct (Z.of_nat (length (users st)) <? num_cashiers P); [|assumption].
  apply on_time_schedule; [exact H|exact I].
Qed.

Lemma on_time_customer_generator_loop : forall st i,
  on_time st -> in_window i (now st) ->
  on_time (customer_generator_loop R P (S i) st).
Proof.
  intros st i H Hw. unfold customer_generator_loop, timeout.
  destruct (randint R _ _ _) as [e|[d g]] eqn:Hd;
    [apply on_time_schedule; [exact H|exact I]|].
  apply (randint_inr R) in Hd.
  destruct (d <? 0); apply on_time_schedule; try exact H; try exact I.
  unfold entry_on_time, in_window in *. cbn [e_event e_time set_rng now]. lia.
Qed.

Lemma on_time_step : forall st st',
  inv R P st -> on_time st -> step R P st = Continue st' -> on_time st'.
Proof.
  intros st st' _ [Hqs Ha] Hstep. unfold step in Hstep.
  destruct (queue st) as [|x q] eqn:Hq; [discriminate|].
  apply Forall_cons_iff in Hqs as [Hx Hqs]. unfold entry_on_time in Hx.
  assert (H1 : on_time (mkState R (e_time x) q (eid st) (users st) (put_queue st)
                          (rng st) (records st) (arrivals st)))
    by (split; assumption).
  destruct (e_event x) eqn:Hev; try discriminate; injection Hstep as <-.
  - (* InitGen *)
    apply on_time_customer_generator_loop; [exact H1|].
    unfold in_window. cbn [now]. lia.
  - (* InitCust *)
    rewrite service_customer_start_arrived. apply on_time_trigger_put.
    split; cbn [arrived queue arrivals now]; [assumption|].
    apply Forall_app. split; [assumption|]. constructor; [exact Hx|constructor].
  - (* GenTimeout *)
    unfold customer_generator_resume.
    apply on_time_customer_generator_loop.
    + apply on_time_schedule; [exact H1|].
      unfold entry_on_time, in_window in *. cbn [e_event e_time now]. lia.
    + exact Hx.
  - (* RequestEv *)
    unfold service_customer_granted, timeout, release.
    destruct (randint R _ _ _) as [e|[d g]]; [|destruct (d <? 0)];
      repeat (apply on_time_schedule; [|exact I]); exact H1.
  - (* ServiceTimeout *)
    unfold service_customer_finish, release.
    repeat (apply on_time_schedule; [|exact I]). exact H1.
  - (* ReleaseEv *)
    apply on_time_trigger_put. exact H1.
  - (* ProcEnd *)
    exact H1.
Qed.

Lemma reached_on_time : forall fuel random_seed g0 st,
  reached R P fuel random_seed g0 st ->
  Forall (fun w => in_window (fst w) (snd w)) (arrivals st).
Proof.
  intros fuel random_seed g0 st Hst.
  assert (Hn : on_time st); [|exact (proj2 Hn)].
  revert fuel random_seed g0 st Hst. apply reached_extend.
  - intros g _ _. unfold start_state, initial.
    repeat (apply on_time_schedule; [|try exact I]).
    + split; constructor.
    + unfold entry_on_time. cbn. lia.
  - apply on_time_step.
  - intros st st' _ [Hq Ha] Hs.
    destruct (step_stop R P _ _ Hs) as (x & q & Hq' & Hev & ->).
    rewrite Hq' in Hq. apply Forall_cons_iff in Hq as [_ Hq]. split; assumption.
Qed.

End Numbering.

(** In every state of every run the customers that have arrived are
    customers 1, 2, 3, ... without a gap, in the order of their arrival;
    so the [customer_id] of a row lies between 1 and the number of
    arrivals. *)
Theorem arrivals_are_numbered : forall R P fuel random_seed g0 st,
  reached R P fuel random_seed g0 st ->
  map fst (arrivals st) = seq 1 (length (arrivals st)) /\
  (forall r, In r (records st) ->
             (1 <= customer_id r <= length (arrivals st))%nat).
Proof.
  intros R P fuel random_seed g0 st Hst.
  pose proof (reached_numbered R P _ _ _ _ Hst) as Hn.
  split; [exact Hn|].
  intros r Hr. destruct (reached_history R P _ _ _ _ Hst) as [_ Hlogged _ _ _ _].
  rewrite Forall_forall in Hlogged. apply Hlogged in Hr.
  apply (in_map fst) in Hr. cbn [fst] in Hr. rewrite Hn in Hr.
  apply in_seq in Hr. lia.
Qed.

Lemma arrivals_are_numbered_witness :
  reached lcg busy_params 100 42 0 busy_final /\
  map fst (arrivals busy_final) = seq 1 (length (arrivals busy_final)) /\
  (forall r, In r (records busy_final) ->
             (1 <= customer_id r <= length (arrivals busy_final))%nat).
Proof.
  pose proof busy_reached as H1. split; [exact H1|].
  exact (arrivals_are_numbered lcg busy_params 100 42 0 busy_final H1).
Defined.

(** Customer [i] arrives after [i] gaps: its [arrival_time] lies between
    [i * min_interarrival] and [i * max_interarrival], in every state of
    every run and in every row. *)
Theorem arrival_window : forall R P fuel random_seed g0 st,
  reached R P fuel random_seed g0 st ->
  (forall i t, In (i, t) (arrivals st) ->
     Z.of_nat i * min_interarrival P <= t <= Z.of_nat i * max_interarrival P) /\
  (forall r, In r (records st) ->
     Z.of_nat (customer_id r) * min_interarrival P <= arrival_time r
       <= Z.of_nat (customer_id r) * max_interarrival P).
Proof.
  intros R P fuel random_seed g0 st Hst.
  pose proof (reached_on_time R P _ _ _ _ Hst) as Hw.
  rewrite Forall_forall in Hw.
  split.
  - intros i t Hin. exact (Hw _ Hin).
  - intros r Hr. destruct (reached_history R P _ _ _ _ Hst) as [_ Hlogged _ _ _ _].
    rewrite Forall_forall in Hlogged. exact (Hw _ (Hlogged _ Hr)).
Qed.

Lemma arrival_window_witness :
  reached lcg busy_params 100 42 0 busy_final /\
  (forall i t, In (i, t) (arrivals busy_final) ->
     Z.of_nat i * 2 <= t <= Z.of_nat i * 2) /\
  (forall r, In r (records busy_final) ->
     Z.of_nat (customer_id r) * 2 <= arrival_time r
       <= Z.of_nat (customer_id r) * 2).
Proof.
  pose proof busy_reached as H1. split; [exact H1|].
  exact (arrival_window lcg busy_params 100 42 0 busy_final H1).
Defined.

(** A run sees fewer than [sim_time / min_interarrival] arrivals and
    returns at most as many rows: the number of arrivals, and so the
    number of rows, times [min_interarrival] stays below [sim_time]. *)
Theorem rows_are_bounded : forall R P fuel random_seed g0 st,
  reached R P fuel random_seed g0 st ->
  Z.of_nat (length (arrivals st)) * min_interarrival P < sim_time P /\
  (0 <= min_interarrival P ->
   Z.of_nat (length (records st)) * min_interarrival P < sim_time P).
Proof.
  intros R P fuel random_seed g0 st Hst.
  pose proof (reached_numbered R P _ _ _ _ Hst) as Hn.
  pose proof (reached_on_time R P _ _ _ _ Hst) as Hw.
  destruct (reached_history R P _ _ _ _ Hst) as [_ Hlogged _ Harr Hlog _].
  destruct (reached_census R P _ _ _ _ Hst) as [_ _ Hstages _].
  destruct (reached_inv R P _ _ _ _ Hst) as (st1 & [Hwf _] & _).
  pose proof (wf_now _ _ _ Hwf) as Hnow.
  rewrite Forall_forall in Hw, Harr, Hlogged.
  assert (Ha : Z.of_nat (length (arrivals st)) * min_interarrival P < sim_time P).
  { destruct (length (arrivals st)) as [|n] eqn:Hlen; [lia|].
    assert (Hin : In (S n) (map fst (arrivals st))).
    { rewrite Hn. apply in_seq. lia. }
    apply in_map_iff in Hin as ([i t] & Hi & Hin). cbn [fst] in Hi. subst i.
    pose proof (Hw _ Hin) as H1. pose proof (Harr _ Hin) as H2.
    unfold in_window in H1. cbn [fst snd] in H1, H2. lia. }
  split; [exact Ha|]. intros Hmin.
  assert (Hle : (length (records st) <= length (arrivals st))%nat).
  { assert (H1 : NoDup (map customer_id (records st))).
    { apply cnt_NoDup. intros k. specialize (Hstages k).
      pose proof (NoDup_cnt _ k (arrival_ids_NoDup _ Hlog)). lia. }
    assert (H2 : incl (map customer_id (records st)) (map fst (arrivals st))).
    { intros k Hk. apply in_map_iff in Hk as (r & <- & Hr).
      apply in_map_iff. exists (customer_id r, arrival_time r). auto. }
    pose proof (NoDup_incl_length H1 H2) as Hlen.
    rewrite !length_map in Hlen. exact Hlen. }
  nia.
Qed.

Lemma rows_are_bounded_witness :
  reached lcg busy_params 100 42 0 busy_final /\
  Z.of_nat (length (arrivals busy_final)) * 2 < 20 /\
  (0 <= 2 -> Z.of_nat (length (records busy_final)) * 2 < 20).
Proof.
  pose proof busy_reached as H1. split; [exact H1|].
  exact (rows_are_bounded lcg busy_params 100 42 0 busy_final H1).
Defined.

(** ** One cashier serves one customer at a time *)

Section Solo.

Variable R : RandomSource.
Variable P : params.
Hypothesis Hone : num_cashiers P = 1.

(** The service of customer [j], begun at [s], is running. *)
Definition InService (q : list entry) (j : nat) (s : Z) : Prop :=
  exists x a d, In x q /\ e_event x = ServiceTimeout j a s d.

Record solo (st : state R) : Prop := {
  so_busy : forall r j s,
    In r (records st) -> InService (queue st) j s ->
    (customer_id r < j)%nat /\ finish_time r <= s;
  so_rows : forall r1 r2,
    In r1 (records st) -> In r2 (records st) ->
    (customer_id r1 < customer_id r2)%nat ->
    finish_time r1 <= start_service r2
}.

Lemma InService_push : forall x q j s,
  InService (heappush x q) j s ->
  InService q j s \/ exists a d, e_event x = ServiceTimeout j a s d.
Proof.
  intros x q j s (y & a & d & Hy & Hev).
  apply heappush_In in Hy as [->|Hy]; [right; eauto|left].
  exists y, a, d. auto.
Qed.

Lemma InService_ids : forall q j s, InService q j s -> In j (ids svc_id q).
Proof.
  intros q j s (x & a & d & Hx & Hev). unfold ids. apply in_flat_map.
  exists x. split; [assumption|]. rewrite Hev. left. reflexivity.
Qed.

Lemma solo_ext : forall st st' : state R,
  solo st -> queue st' = queue st -> records st' = records st -> solo st'.
Proof.
  intros st st' [Hb Hr] Hq Hrec. constructor; rewrite ?Hq, ?Hrec; assumption.
Qed.

Lemma solo_schedule_plain : forall st ev p d,
  solo st -> (forall j a s c, ev <> ServiceTimeout j a s c) ->
  solo (schedule R ev p d st).
Proof.
  intros st ev p d [Hb Hr] Hev. constructor; cbn [schedule queue records].
  - intros r j s Hin Hs. apply InService_push in Hs as [Hs|(a & c & Hs)]; [eauto|].
    cbn in Hs. exfalso. exact (Hev _ _ _ _ Hs).
  - exact Hr.
Qed.

Lemma solo_trigger_put : forall st, solo st -> solo (trigger_put R P st).
Proof.
  intros st H. unfold trigger_put.
  destruct (put_queue st) as [|[i a] rest]; [assumption|].
  destruct (Z.of_nat (length (users st)) <? num_cashiers P); [|assumption].
  apply solo_schedule_plain; [|congruence].
  destruct H. constructor; assumption.
Qed.

Lemma solo_step : forall st st',
  inv R P st -> census R P st /\ solo st -> step R P st = Continue st' ->
  census R P st' /\ solo st'.
Proof.
  intros st st' [Hwf Hord] [Hc Hs] Hstep.
  split; [eapply census_step; eassumption|].
  unfold step in Hstep.
  destruct (queue st) as [|x q] eqn:Hq; [discriminate|].
  destruct Hs as [Hb Hr].
  assert (Hb1 : forall r j s, In r (records st) -> InService q j s ->
                  (customer_id r < j)%nat /\ finish_time r <= s).
  { intros r j s Hin (y & a & d & Hy & Hev). apply (Hb r j s Hin).
    exists y, a, d. rewrite Hq. split; [right; assumption|assumption]. }
  assert (H1 : solo (mkState R (e_time x) q (eid st) (users st) (put_queue st)
                       (rng st) (records st) (arrivals st)))
    by (constructor; assumption).
  assert (Hplain : forall st2 e, solo st2 -> solo (schedule R (ProcFailed e) NORMAL 0 st2))
    by (intros; apply solo_schedule_plain; [assumption|congruence]).
  assert (Hrel : forall st2 i, solo st2 -> solo (release R i st2)).
  { intros st2 i [Hb2 Hr2]. unfold release.
    apply solo_schedule_plain; [|congruence]. constructor; assumption. }
  destruct (e_event x) eqn:Hev; try discriminate; injection Hstep as <-.
  - (* InitGen *)
    unfold customer_generator_loop, timeout.
    destruct (randint R _ _ _) as [e|[d g]]; [|destruct (d <? 0)];
      apply solo_schedule_plain; try congruence;
      (eapply solo_ext; [exact H1|reflexivity..]).
  - (* InitCust *)
    rewrite service_customer_start_arrived. apply solo_trigger_put.
    eapply solo_ext; [exact H1|reflexivity..].
  - (* GenTimeout *)
    unfold customer_generator_resume, customer_generator_loop, timeout.
    cbn [rng schedule].
    destruct (randint R _ _ _) as [e|[d g]]; [|destruct (d <? 0)];
      apply solo_schedule_plain; try congruence;
      (eapply solo_ext;
       [apply (solo_schedule_plain _ (InitCust i) URGENT 0 H1); congruence
       |reflexivity..]).
  - (* RequestEv *)
    unfold service_customer_granted, timeout.
    destruct (randint R _ _ _) as [e|[d g]]; [auto|].
    destruct (d <? 0);
      [apply Hplain, Hrel; eapply solo_ext; [exact H1|reflexivity..]|].
    destruct (wf_pop R P st x q Hwf Hq) as (_ & _ & Hle); [congruence|].
    constructor; cbn [schedule set_rng queue records now]; [|exact Hr].
    intros r j s Hin Hsv. apply InService_push in Hsv as [Hsv|(a & c & Hsv)];
      [eauto|].
    cbn in Hsv. injection Hsv as <- _ <- _.
    pose proof (wf_logged _ _ _ Hwf) as Hlog. rewrite Forall_forall in Hlog.
    destruct (Hlog r Hin) as [_ Hfin].
    split; [|lia].
    assert (Hst : Started (records st) (queue st) (customer_id r) (start_service r))
      by (left; eauto).
    apply (proj2 (ord_started _ _ Hord _ _ Hst)).
    unfold line, line_of. rewrite Hq, ids_cons, Hev. cbn [req_id].
    apply in_or_app. left. left. reflexivity.
  - (* ServiceTimeout *)
    assert (Hme : InService (queue st) i start).
    { exists x, arrival, dur. rewrite Hq. split; [left; reflexivity|assumption]. }
    assert (Hnone : ids svc_id q = []).
    { destruct Hc as [Hu Hcap _ _].
      assert (Hp : Permutation (users st)
                     (ids req_id (queue st) ++ ids svc_id (queue st))).
      { apply cnt_Permutation. intros k. rewrite cnt_app. apply Hu. }
      apply Permutation_length in Hp.
      rewrite Hq, length_app, !ids_cons, Hev, !length_app in Hp.
      cbn [req_id svc_id length] in Hp. rewrite Hone in Hcap.
      destruct (ids svc_id q); [reflexivity|cbn [length] in Hp; lia]. }
    unfold service_customer_finish.
    apply solo_schedule_plain; [|congruence]. apply Hrel.
    constructor; cbn [queue records now].
    + intros r j s _ Hsv. apply InService_ids in Hsv. rewrite Hnone in Hsv.
      contradiction.
    + intros r1 r2 Hin1 Hin2 Hlt.
      apply in_app_or in Hin1 as [Hin1|[<-|[]]];
        apply in_app_or in Hin2 as [Hin2|[<-|[]]]; cbn in *.
      * auto.
      * destruct (Hb r1 i start Hin1 Hme). assumption.
      * destruct (Hb r2 i start Hin2 Hme). lia.
      * lia.
  - (* ReleaseEv *)
    apply solo_trigger_put. exact H1.
  - (* ProcEnd *)
    exact H1.
Qed.

Lemma reached_solo : forall fuel random_seed g0 st,
  reached R P fuel random_seed g0 st -> solo st.
Proof.
  intros fuel random_seed g0 st Hst.
  assert (H : census R P st /\ solo st); [|exact (proj2 H)].
  revert fuel random_seed g0 st Hst. apply reached_extend.
  - intros g Hc _. split; [apply census_start; assumption|].
    constructor; cbn; intros; contradiction.
  - apply solo_step.
  - intros st st' _ [Hc [Hb Hr]] Hs. split; [eapply census_stop; eassumption|].
    destruct (step_stop R P _ _ Hs) as (x & q & Hq & Hev & ->).
    constructor; cbn [queue records]; [|exact Hr].
    intros r j s Hin (y & a & d & Hy & Hevy). apply (Hb r j s Hin).
    exists y, a, d. rewrite Hq. split; [right; assumption|assumption].
Qed.

End Solo.

(** With one cashier the services do not overlap: of two rows, the
    customer with the smaller index has finished when the other one
    starts. *)
Theorem one_cashier_serves_one_at_a_time : forall R P fuel random_seed g0 st r1 r2,
  num_cashiers P = 1 ->
  reached R P fuel random_seed g0 st ->
  In r1 (records st) -> In r2 (records st) ->
  (customer_id r1 < customer_id r2)%nat ->
  finish_time r1 <= start_service r2.
Proof.
  intros R P fuel random_seed g0 st r1 r2 Hone Hst H1 H2 Hlt.
  exact (so_rows _ _ (reached_solo R P Hone _ _ _ _ Hst) r1 r2 H1 H2 Hlt).
Qed.

Lemma one_cashier_serves_one_at_a_time_witness :
  num_cashiers busy_params = 1 /\
  reached lcg busy_params 100 42 0 busy_final /\
  In (mkRecord 2 4 6 10 2 4 6) (records busy_final) /\
  In (mkRecord 3 6 10 14 4 4 8) (records busy_final) /\
  (2 < 3)%nat /\ 10 <= 10.
Proof.
  assert (H0 : num_cashiers busy_params = 1) by reflexivity.
  pose proof busy_reached as H1.
  assert (H2 : In (mkRecord 2 4 6 10 2 4 6) (records busy_final))
    by (right; left; reflexivity).
  assert (H3 : In (mkRecord 3 6 10 14 4 4 8) (records busy_final))
    by (right; right; left; reflexivity).
  assert (H4 : (2 < 3)%nat) by lia.
  split; [exact H0|]. split; [exact H1|]. split; [exact H2|].
  split; [exact H3|]. split; [exact H4|].
  exact (one_cashier_serves_one_at_a_time lcg busy_params 100 42 0 busy_final
           _ _ H0 H1 H2 H3 H4).
Defined.

(** ** The first events of a run *)

Lemma entry_ltb_true : forall x y, key_lt x y -> entry_ltb x y = true.
Proof. intros x y H. apply entry_ltb_spec. exact H. Qed.

Lemma entry_ltb_false : forall x y, ~ key_lt x y -> entry_ltb x y = false.
Proof.
  intros x y H. apply not_true_is_false. rewrite entry_ltb_spec. exact H.
Qed.

(** Decides where an entry goes in a queue whose times are known well
    enough. *)
Ltac place :=
  repeat match goal with
         | |- context [entry_ltb ?x ?y] =>
             first [ rewrite (entry_ltb_true x y)
                       by (unfold key_lt;
                           cbn [e_time e_prio e_eid prio_rank]; lia)
                   | rewrite (entry_ltb_false x y)
                       by (unfold key_lt;
                           cbn [e_time e_prio e_eid prio_rank]; lia) ]
         end.

Ltac fields :=
  try unfold schedule, set_rng;
  cbn [now queue eid users put_queue rng records arrivals
       heappush e_event e_time app length remove_first Nat.eqb].

Lemma env_loop_turn : forall R P fuel st st',
  step R P st = Continue st' ->
  env_loop R P (S fuel) st = env_loop R P fuel st'.
Proof. intros R P fuel st st' H. cbn [env_loop]. rewrite H. reflexivity. Qed.

Lemma env_loop_stop : forall R P fuel st st',
  step R P st = StopSimulation st' ->
  env_loop R P (S fuel) st = Finished st'.
Proof. intros R P fuel st st' H. cbn [env_loop]. rewrite H. reflexivity. Qed.

Lemma env_loop_raise : forall R P fuel st e,
  step R P st = Raise e -> env_loop R P (S fuel) st = Raised e.
Proof. intros R P fuel st e H. cbn [env_loop]. rewrite H. reflexivity. Qed.

(** One turn of the loop on a state whose queue is known. *)
Ltac turn :=
  first [ erewrite env_loop_turn
            by (unfold step; fields; place; fields; reflexivity)
        | erewrite env_loop_raise
            by (unfold step; fields; place; fields; reflexivity)
        | erewrite env_loop_stop
            by (unfold step; fields; place; fields; reflexivity) ].

Section FirstEvents.

Variable R : RandomSource.
Variable P : params.
Hypothesis Hcap : 0 < num_cashiers P.
Hypothesis Hpos : 0 < sim_time P.

(** The state after the generator process has been started: the clock
    reads 0 and only the stop event is scheduled. *)
Definition after_init (g : rstate R) : state R :=
  mkState R 0 [Entry (sim_time P) URGENT 1 Stop] 2 [] [] g [] [].

Lemma simulate_first_step : forall fuel random_seed g0,
  simulate R P (S fuel) random_seed g0 =
  env_loop R P fuel
    (customer_generator_loop R P 1 (after_init (seed R random_seed g0))).
Proof.
  intros fuel random_seed g0. unfold simulate, env_run.
  destruct (num_cashiers P <=? 0) eqn:E1; [apply Z.leb_le in E1; lia|].
  unfold initial. fields.
  destruct (sim_time P <=? 0) eqn:E2; [apply Z.leb_le in E2; lia|].
  place. fields. rewrite Z.sub_0_r. turn. reflexivity.
Qed.

(** A generator that fails at its first draw: the failure is the next
    event and leaves the loop. *)
Lemma generator_fails_at_once : forall fuel g e,
  env_loop R P (S fuel)
    (schedule R (ProcFailed e) NORMAL 0 (after_init g)) = Raised e.
Proof.
  intros fuel g e. unfold after_init. fields. place. turn. reflexivity.
Qed.

End FirstEvents.

(** ** Parameters the engine rejects *)

(** [run_simulation] raises [ValueError] before any customer arrives
    when [num_cashiers] is not positive; else when [sim_time] is not
    positive; else when the interarrival bounds are inverted or allow
    negative gaps only. *)
Theorem bad_parameters_raise : forall R P random_seed g0,
  (num_cashiers P <= 0 ->
   forall fuel, run_simulation R P fuel random_seed g0 = Exception BadCapacity) /\
  (0 < num_cashiers P -> sim_time P <= 0 ->
   forall fuel, run_simulation R P fuel random_seed g0 = Exception BadUntil) /\
  (0 < num_cashiers P -> 0 < sim_time P ->
   max_interarrival P < min_interarrival P ->
   forall fuel, run_simulation R P (2 + fuel) random_seed g0 =
                Exception EmptyRange) /\
  (0 < num_cashiers P -> 0 < sim_time P ->
   min_interarrival P <= max_interarrival P < 0 ->
   forall fuel, run_simulation R P (2 + fuel) random_seed g0 =
                Exception NegativeDelay).
Proof.
  intros R P random_seed g0. split; [|split; [|split]].
  - intros Hc fuel. unfold run_simulation, simulate.
    apply Z.leb_le in Hc. rewrite Hc. reflexivity.
  - intros Hc Ht fuel. unfold run_simulation, simulate, env_run.
    destruct (num_cashiers P <=? 0) eqn:E; [apply Z.leb_le in E; lia|].
    unfold initial. fields. apply Z.leb_le in Ht. rewrite Ht. reflexivity.
  - intros Hc Ht Hinv fuel. unfold run_simulation.
    cbn [Nat.add]. rewrite simulate_first_step by assumption.
    unfold customer_generator_loop, randint.
    destruct (min_interarrival P <=? max_interarrival P) eqn:E;
      [apply Z.leb_le in E; lia|].
    rewrite generator_fails_at_once by assumption. reflexivity.
  - intros Hc Ht Hneg fuel. unfold run_simulation.
    cbn [Nat.add]. rewrite simulate_first_step by assumption.
    unfold customer_generator_loop, randint, timeout.
    destruct (min_interarrival P <=? max_interarrival P) eqn:E;
      [|apply Z.leb_gt in E; lia].
    pose proof (rdraw_range R (rng (after_init R P (seed R random_seed g0)))
                  _ _ (proj1 Hneg)) as Hr.
    destruct (rdraw R _ _ _) as [d g]. cbn [fst] in Hr.
    destruct (d <? 0) eqn:E2; [|apply Z.ltb_ge in E2; lia].
    change (set_rng R g (after_init R P (seed R random_seed g0)))
      with (after_init R P g).
    rewrite generator_fails_at_once by assumption. reflexivity.
Qed.

Lemma bad_parameters_raise_witness :
  run_simulation lcg (mkParams 0 20 2 2 4 4) 5 42 0 = Exception BadCapacity /\
  run_simulation lcg (mkParams 1 0 2 2 4 4) 5 42 0 = Exception BadUntil /\
  run_simulation lcg (mkParams 1 20 3 2 4 4) 5 42 0 = Exception EmptyRange /\
  run_simulation lcg (mkParams 1 20 (-3) (-2) 4 4) 5 42 0 =
    Exception NegativeDelay.
Proof.
  split; [|split; [|split]].
  - apply (proj1 (bad_parameters_raise lcg (mkParams 0 20 2 2 4 4) 42 0)).
    cbn. lia.
  - apply (proj1 (proj2 (bad_parameters_raise lcg (mkParams 1 0 2 2 4 4) 42 0)));
      cbn; lia.
  - apply (proj1 (proj2 (proj2
             (bad_parameters_raise lcg (mkParams 1 20 3 2 4 4) 42 0)))
             ltac:(cbn; lia) ltac:(cbn; lia) ltac:(cbn; lia) 3%nat).
  - apply (proj2 (proj2 (proj2
             (bad_parameters_raise lcg (mkParams 1 20 (-3) (-2) 4 4) 42 0)))
             ltac:(cbn; lia) ltac:(cbn; lia) ltac:(cbn; lia) 3%nat).
Defined.

(** ** A service draw that fails *)

(** The first customer is served and the service draw fails with [e]:
    customer 1 holds the cashier after three turns of the loop; the
    fourth turn releases the request and schedules the failure of the
    process behind the release; the sixth turn raises [e]. *)
Lemma first_customer_fails : forall R P random_seed g0 e
    (gf : state R -> rstate R),
  0 < num_cashiers P ->
  1 <= min_interarrival P <= max_interarrival P ->
  max_interarrival P < sim_time P ->
  (forall i a st,
     service_customer_granted R P i a st =
     schedule R (ProcFailed e) NORMAL 0
       (release R i (set_rng R (gf st) st))) ->
  exists s2 s3 s4,
    (forall k, simulate R P (3 + k) random_seed g0 = env_loop R P k s2) /\
    users s2 = [1%nat] /\
    step R P s2 = Continue s3 /\
    users s3 = [] /\
    map e_event (firstn 2 (queue s3)) = [ReleaseEv 1; ProcFailed e] /\
    step R P s3 = Continue s4 /\
    step R P s4 = Raise e.
Proof.
  intros R P random_seed g0 e gf Hc Hia Hmax Hfail.
  assert (Hpos : 0 < sim_time P) by lia.
  assert (Hfree : (Z.of_nat 0 <? num_cashiers P) = true)
    by (apply Z.ltb_lt; cbn; lia).
  assert (E : (min_interarrival P <=? max_interarrival P) = true)
    by (apply Z.leb_le; lia).
  pose proof (rdraw_range R (seed R random_seed g0) _ _ (proj2 Hia)) as Hr1.
  destruct (rdraw R (seed R random_seed g0) (min_interarrival P)
              (max_interarrival P)) as [d1 g1] eqn:Hd1.
  cbn [fst] in Hr1.
  pose proof (rdraw_range R g1 _ _ (proj2 Hia)) as Hr2.
  destruct (rdraw R g1 (min_interarrival P) (max_interarrival P))
    as [d2 g2] eqn:Hd2.
  cbn [fst] in Hr2.
  assert (E1 : (d1 <? 0) = false) by (apply Z.ltb_ge; lia).
  assert (E2 : (d2 <? 0) = false) by (apply Z.ltb_ge; lia).
  assert (Hprefix : exists s2,
            (forall k, simulate R P (3 + k) random_seed g0 =
                       env_loop R P k s2) /\
            users s2 = [1%nat] /\ put_queue s2 = [] /\ eid s2 = 6%nat /\
            exists q, queue s2 =
              Entry (0 + d1 + 0 + 0) NORMAL 5 (RequestEv 1 (0 + d1 + 0)) :: q /\
              Forall (fun x => d1 < e_time x) q).
  { destruct (Z.lt_ge_cases (0 + d1 + d2) (sim_time P)) as [Hlt|Hge];
      eexists; (split; [intros k; cbn [Nat.add];
        rewrite simulate_first_step by assumption;
        unfold customer_generator_loop at 1; unfold randint, timeout;
        rewrite E; unfold after_init; cbn [rng]; rewrite Hd1, E1;
        fields; place; turn;
        unfold customer_generator_resume, customer_generator_loop,
          randint, timeout;
        fields; rewrite E, Hd2, E2; fields; place; fields; place; turn;
        unfold service_customer_start, request, trigger_put; fields;
        rewrite Hfree; fields; place; reflexivity|]);
      cbn [users put_queue now queue];
      (split; [reflexivity|]); (split; [reflexivity|]);
      (split; [reflexivity|]); eexists; (split; [reflexivity|]);
      repeat constructor; cbn [e_time]; lia. }
  destruct Hprefix as (s2 & Hsim & Hu2 & Hp2 & He2 & q & Hq2 & Hlater).
  assert (Hplace : forall y l,
            e_time y = 0 + d1 + 0 + 0 + 0 ->
            Forall (fun x => d1 < e_time x) l -> heappush y l = y :: l).
  { intros y [|z l] Hy Hl; cbn [heappush]; [reflexivity|].
    apply Forall_cons_iff in Hl as [Hz _].
    rewrite (entry_ltb_true y z) by (unfold key_lt; lia). reflexivity. }
  exists s2.
  exists (schedule R (ProcFailed e) NORMAL 0
            (release R 1 (set_rng R
               (gf (mkState R (0 + d1 + 0 + 0) q (eid s2) (users s2)
                      (put_queue s2) (rng s2) (records s2) (arrivals s2)))
               (mkState R (0 + d1 + 0 + 0) q (eid s2) (users s2)
                      (put_queue s2) (rng s2) (records s2) (arrivals s2))))).
  eexists.
  split; [exact Hsim|]. split; [exact Hu2|].
  split; [unfold step; rewrite Hq2; cbn [e_event e_time]; rewrite Hfail;
          reflexivity|].
  unfold release. fields. rewrite Hu2, Hp2, He2.
  cbn [remove_first Nat.eqb].
  rewrite (Hplace (Entry _ NORMAL 6 (ReleaseEv 1)) q)
    by first [reflexivity|exact Hlater].
  cbn [heappush].
  rewrite entry_ltb_false
    by (unfold key_lt; cbn [e_time e_prio e_eid prio_rank]; lia).
  rewrite (Hplace (Entry _ NORMAL 7 (ProcFailed e)) q)
    by first [reflexivity|exact Hlater].
  split; [reflexivity|]. split; [reflexivity|].
  split; [unfold step; cbn [queue e_event]; unfold trigger_put;
          cbn [put_queue]; reflexivity|].
  reflexivity.
Qed.

(** When a first customer is sure to arrive before the horizon and the
    service bounds are inverted, or allow negative durations only,
    [run_simulation] raises [ValueError]: customer 1 is granted the
    cashier (third turn of the loop), the draw or the timeout of lines
    32-33 raises, the [with] block of line 29 releases the request on
    the way out (fourth turn: nobody holds the cashier and the release
    is scheduled ahead of the failure of the process), and the sixth
    turn raises. *)
Theorem bad_service_bounds_raise : forall R P random_seed g0,
  0 < num_cashiers P ->
  1 <= min_interarrival P <= max_interarrival P ->
  max_interarrival P < sim_time P ->
  forall e,
  (max_service P < min_service P /\ e = EmptyRange) \/
  (min_service P <= max_service P < 0 /\ e = NegativeDelay) ->
  (forall fuel, run_simulation R P (6 + fuel) random_seed g0 = Exception e) /\
  exists st3 st4,
    simulate R P 3 random_seed g0 = Running st3 /\
    users st3 = [1%nat] /\
    simulate R P 4 random_seed g0 = Running st4 /\
    users st4 = [] /\
    map e_event (firstn 2 (queue st4)) = [ReleaseEv 1; ProcFailed e].
Proof.
  intros R P random_seed g0 Hc Hia Hmax e He.
  assert (Hfail : exists gf : state R -> rstate R, forall i a st,
            service_customer_granted R P i a st =
            schedule R (ProcFailed e) NORMAL 0
              (release R i (set_rng R (gf st) st))).
  { destruct He as [[Hinv ->]|[Hneg ->]].
    - exists (fun st => rng st). intros i a st.
      unfold service_customer_granted, randint.
      destruct (min_service P <=? max_service P) eqn:E;
        [apply Z.leb_le in E; lia|]. reflexivity.
    - exists (fun st => snd (rdraw R (rng st) (min_service P) (max_service P))).
      intros i a st. unfold service_customer_granted, randint, timeout.
      destruct (min_service P <=? max_service P) eqn:E;
        [|apply Z.leb_gt in E; lia].
      pose proof (rdraw_range R (rng st) _ _ (proj1 Hneg)) as Hr.
      destruct (rdraw R (rng st) (min_service P) (max_service P)) as [d g].
      cbn [fst snd] in *.
      destruct (d <? 0) eqn:E2; [reflexivity|apply Z.ltb_ge in E2; lia]. }
  destruct Hfail as [gf Hfail].
  destruct (first_customer_fails R P random_seed g0 e gf Hc Hia Hmax Hfail)
    as (s2 & s3 & s4 & Hsim & Hu2 & Hs2 & Hu3 & Hq3 & Hs3 & Hs4).
  split.
  - intros fuel. unfold run_simulation.
    change (6 + fuel)%nat with (3 + S (S (S fuel)))%nat.
    rewrite Hsim. cbn [env_loop]. rewrite Hs2, Hs3, Hs4. reflexivity.
  - exists s2, s3. split; [exact (Hsim 0%nat)|]. split; [exact Hu2|].
    split; [pose proof (Hsim 1%nat) as H4; cbn [Nat.add env_loop] in H4;
            rewrite Hs2 in H4; exact H4|].
    split; [exact Hu3|exact Hq3].
Qed.

Lemma bad_service_bounds_raise_witness :
  run_simulation lcg (mkParams 1 20 2 3 5 4) 9 42 0 = Exception EmptyRange /\
  run_simulation lcg (mkParams 1 20 2 3 (-4) (-1)) 9 42 0 =
    Exception NegativeDelay /\
  exists st3 st4,
    simulate lcg (mkParams 1 20 2 3 5 4) 3 42 0 = Running st3 /\
    users st3 = [1%nat] /\
    simulate lcg (mkParams 1 20 2 3 5 4) 4 42 0 = Running st4 /\
    users st4 = [] /\
    map e_event (firstn 2 (queue st4)) = [ReleaseEv 1; ProcFailed EmptyRange].
Proof.
  assert (Hc : forall a b, 0 < num_cashiers (mkParams 1 20 2 3 a b))
    by (intros; cbn; lia).
  assert (Hia : forall a b,
            1 <= min_interarrival (mkParams 1 20 2 3 a b)
              <= max_interarrival (mkParams 1 20 2 3 a b))
    by (intros; cbn; lia).
  assert (Hmax : forall a b,
            max_interarrival (mkParams 1 20 2 3 a b)
              < sim_time (mkParams 1 20 2 3 a b))
    by (intros; cbn; lia).
  assert (Hinv : max_service (mkParams 1 20 2 3 5 4)
                   < min_service (mkParams 1 20 2 3 5 4))
    by (cbn; lia).
  assert (Hneg : min_service (mkParams 1 20 2 3 (-4) (-1))
                   <= max_service (mkParams 1 20 2 3 (-4) (-1)) < 0)
    by (cbn; lia).
  split; [|split].
  - exact (proj1 (bad_service_bounds_raise lcg (mkParams 1 20 2 3 5 4) 42 0
                    (Hc _ _) (Hia _ _) (Hmax _ _) EmptyRange
                    (or_introl (conj Hinv eq_refl))) 3%nat).
  - exact (proj1 (bad_service_bounds_raise lcg (mkParams 1 20 2 3 (-4) (-1))
                    42 0 (Hc _ _) (Hia _ _) (Hmax _ _) NegativeDelay
                    (or_intror (conj Hneg eq_refl))) 3%nat).
  - exact (proj2 (bad_service_bounds_raise lcg (mkParams 1 20 2 3 5 4) 42 0
                    (Hc _ _) (Hia _ _) (Hmax _ _) EmptyRange
                    (or_introl (conj Hinv eq_refl)))).
Defined.

(** ** The earliest row *)

(** No row is finished before the shortest gap and the shortest service
    have both elapsed; so a horizon that is not beyond their sum gives a
    result without rows, whatever the seed and the number of cashiers. *)
Theorem short_horizon_gives_no_rows : forall R P fuel random_seed g0 st,
  reached R P fuel random_seed g0 st ->
  (forall r, In r (records st) ->
     min_interarrival P + min_service P <= finish_time r < sim_time P) /\
  (sim_time P <= min_interarrival P + min_service P -> records st = []).
Proof.
  intros R P fuel random_seed g0 st Hst.
  pose proof (reached_history R P _ _ _ _ Hst) as [Hrec Hlog _ Harr _ _].
  rewrite Forall_forall in Hrec, Hlog, Harr.
  assert (Hrow : forall r, In r (records st) ->
            min_interarrival P + min_service P <= finish_time r < sim_time P).
  { intros r Hr. destruct (Hrec r Hr) as (_ & _ & Hf & Has & Hd & Hh).
    pose proof (Harr _ (Hlog r Hr)) as Ha. cbn [snd] in Ha. lia. }
  split; [exact Hrow|]. intros Hshort.
  destruct (records st) as [|r l]; [reflexivity|].
  specialize (Hrow r (or_introl eq_refl)). lia.
Qed.

Lemma short_horizon_gives_no_rows_witness :
  reached lcg (scenario quiet_form 1) 100 42 0 quiet_final_a /\
  records quiet_final_a = [].
Proof.
  assert (H1 : reached lcg (scenario quiet_form 1) 100 42 0 quiet_final_a)
    by (right; reflexivity).
  split; [exact H1|].
  apply (proj2 (short_horizon_gives_no_rows lcg (scenario quiet_form 1) 100 42 0
                  quiet_final_a H1)).
  cbn. lia.
Defined.

(** ** The engine returns, whatever the fuel *)

(** Under valid parameters [run_simulation] returns after at most
    [6 * sim_time + 2] events, and its result is the same however many
    more turns the loop is allowed. *)
Theorem valid_parameters_return : forall R P random_seed g0,
  valid P ->
  exists df, forall fuel,
    (Z.to_nat (6 * sim_time P + 2) <= fuel)%nat ->
    run_simulation R P fuel random_seed g0 = Returned df.
Proof.
  intros R P random_seed g0 Hv.
  destruct (simulate_terminates R P random_seed g0 Hv) as [st Hst].
  exists (records st). intros fuel Hfuel.
  replace fuel
    with (Z.to_nat (6 * sim_time P + 2) + (fuel - Z.to_nat (6 * sim_time P + 2)))%nat
    by lia.
  unfold run_simulation.
  rewrite (simulate_more R P _ _ _ _ _ Hst); [reflexivity|discriminate].
Qed.

Lemma valid_parameters_return_witness :
  valid busy_params /\
  exists df, forall fuel,
    (Z.to_nat (6 * sim_time busy_params + 2) <= fuel)%nat ->
    run_simulation lcg busy_params fuel 42 0 = Returned df.
Proof.
  assert (Hv : valid busy_params) by (unfold valid; cbn; lia).
  split; [exact Hv|].
  exact (valid_parameters_return lcg busy_params 42 0 Hv).
Defined.

(** ** Arrivals without a gap *)

Definition generator_event (ev : event) : bool :=
  match ev with
  | InitGen | GenTimeout _ => true
  | _ => false
  end.

Lemma Exists_schedule : forall R (A : entry -> Prop) ev p d (st : state R),
  Exists A (queue st) -> Exists A (queue (schedule R ev p d st)).
Proof.
  intros R A ev p d st H. apply Exists_exists in H as (z & Hz & HA).
  apply Exists_exists. exists z. split; [|exact HA].
  unfold schedule. cbn [queue]. apply heappush_In. auto.
Qed.

Lemma Exists_trigger_put : forall R P (A : entry -> Prop) (st : state R),
  Exists A (queue st) -> Exists A (queue (trigger_put R P st)).
Proof.
  intros R P A st H. unfold trigger_put.
  destruct (put_queue st) as [|[i a] rest]; [exact H|].
  destruct (Z.of_nat (length (users st)) <? num_cashiers P); [|exact H].
  apply Exists_schedule. exact H.
Qed.

Section NoGap.

Variable R : RandomSource.
Variable P : params.
Hypothesis Hmin : min_interarrival P = 0.
Hypothesis Hmax : max_interarrival P = 0.
Hypothesis Hsv : 0 <= min_service P <= max_service P.

(** The generator is scheduled before the horizon. *)
Definition generator_due (x : entry) : Prop :=
  generator_event (e_event x) = true /\ e_time x < sim_time P.

(** No process has failed and the generator is due: the stop event is
    not the next one. *)
Definition spinning (st : state R) : Prop :=
  wf R P st /\ nofail R st /\ Exists generator_due (queue st).

Lemma nogap_generator_loop : forall i st,
  exists g, customer_generator_loop R P i st =
            schedule R (GenTimeout i) NORMAL 0 (set_rng R g st).
Proof.
  intros i st. unfold customer_generator_loop, randint, timeout.
  rewrite Hmin, Hmax. cbn [Z.leb Z.compare].
  pose proof (rdraw_range R (rng st) 0 0 (Z.le_refl 0)) as Hr.
  destruct (rdraw R (rng st) 0 0) as [d g]. cbn [fst] in Hr.
  assert (d = 0) by lia. subst d. exists g. reflexivity.
Qed.

Lemma nogap_service_customer_granted : forall i a st,
  exists d g, service_customer_granted R P i a st =
              schedule R (ServiceTimeout i a (now st) d) NORMAL d (set_rng R g st).
Proof.
  intros i a st. unfold service_customer_granted, randint, timeout.
  destruct (min_service P <=? max_service P) eqn:E;
    [|apply Z.leb_gt in E; lia].
  pose proof (rdraw_range R (rng st) _ _ (proj2 Hsv)) as Hr.
  destruct (rdraw R (rng st) (min_service P) (max_service P)) as [d g].
  cbn [fst] in Hr.
  destruct (d <? 0) eqn:E2; [apply Z.ltb_lt in E2; lia|].
  exists d, g. reflexivity.
Qed.

Lemma spinning_generator_loop : forall i st,
  nofail R st -> now st < sim_time P ->
  nofail R (customer_generator_loop R P i st) /\
  Exists generator_due (queue (customer_generator_loop R P i st)).
Proof.
  intros i st Hnf Hn. destruct (nogap_generator_loop i st) as [g ->]. split.
  - apply nofail_schedule; [exact Hnf|congruence].
  - apply Exists_exists.
    exists (Entry (now st + 0) NORMAL (eid st) (GenTimeout i)). split.
    + unfold schedule, set_rng. cbn [queue now eid]. apply heappush_In. auto.
    + unfold generator_due. cbn. split; [reflexivity|lia].
Qed.

(** While the generator is due, a turn of the loop neither stops nor
    fails, and the generator is due again. *)
Lemma spinning_step : forall st,
  spinning st -> exists st', step R P st = Continue st' /\ spinning st'.
Proof.
  intros st (Hwf & Hnf & Hgen).
  destruct (queue st) as [|x q] eqn:Hq; [inversion Hgen|].
  assert (Hns : e_event x <> Stop).
  { intros Hstop.
    pose proof (wf_entries _ _ _ Hwf) as Hok. rewrite Hq in Hok.
    apply Forall_cons_iff in Hok as [[_ Hx] _]. rewrite Hstop in Hx.
    pose proof (wf_sorted _ _ _ Hwf) as Hs. rewrite Hq in Hs.
    apply StronglySorted_inv in Hs as [_ Hs]. rewrite Forall_forall in Hs.
    inversion Hgen as [? ? [Hg _]|? ? Hg]; subst.
    - rewrite Hstop in Hg. discriminate.
    - apply Exists_exists in Hg as (z & Hz & _ & Hzt).
      specialize (Hs z Hz). unfold key_lt in Hs. lia. }
  assert (Hnfx : forall e, e_event x <> ProcFailed e).
  { unfold nofail in Hnf. rewrite Hq in Hnf.
    apply Forall_cons_iff in Hnf. tauto. }
  destruct (wf_pop R P st x q Hwf Hq Hns) as (Hwf1 & _ & _).
  pose proof (wf_now _ _ _ Hwf1) as Hn1. cbn [now] in Hn1.
  set (st1 := mkState R (e_time x) q (eid st) (users st) (put_queue st)
                (rng st) (records st) (arrivals st)) in *.
  assert (Hnf1 : nofail R st1).
  { unfold nofail in *. rewrite Hq in Hnf. cbn [queue st1].
    apply Forall_cons_iff in Hnf. tauto. }
  assert (Hkeep : generator_event (e_event x) = false ->
                  Exists generator_due (queue st1)).
  { intros Hx. cbn [queue st1].
    inversion Hgen as [? ? [Hg _]|? ? Hg]; subst; [congruence|exact Hg]. }
  assert (Hstep : exists st', step R P st = Continue st' /\ nofail R st' /\
                              Exists generator_due (queue st')).
  { unfold step. rewrite Hq. fold st1.
    destruct (e_event x) eqn:Hev;
      [contradiction|..|exfalso; exact (Hnfx e eq_refl)];
      eexists; (split; [reflexivity|]).
    - apply spinning_generator_loop; [exact Hnf1|exact (proj2 Hn1)].
    - unfold service_customer_start, request.
      split; [apply trigger_put_progress; exact Hnf1|].
      apply Exists_trigger_put. exact (Hkeep eq_refl).
    - unfold customer_generator_resume.
      apply spinning_generator_loop; [|exact (proj2 Hn1)].
      apply nofail_schedule; [exact Hnf1|congruence].
    - destruct (nogap_service_customer_granted i arrival st1) as (d & g & ->).
      split; [apply nofail_schedule; [exact Hnf1|congruence]|].
      apply Exists_schedule. exact (Hkeep eq_refl).
    - unfold service_customer_finish, release. split.
      + apply nofail_schedule; [|congruence].
        apply nofail_schedule; [exact Hnf1|congruence].
      + apply Exists_schedule, Exists_schedule. exact (Hkeep eq_refl).
    - split; [apply trigger_put_progress; exact Hnf1|].
      apply Exists_trigger_put. exact (Hkeep eq_refl).
    - split; [exact Hnf1|exact (Hkeep eq_refl)]. }
  destruct Hstep as (st' & Hs & Hnf' & Hgen').
  exists st'. split; [exact Hs|].
  split; [exact (wf_step R P st st' Hwf Hs)|]. split; assumption.
Qed.

Lemma spinning_loop : forall fuel st,
  spinning st -> exists st', env_loop R P fuel st = Running st'.
Proof.
  induction fuel as [|k IH]; intros st Hsp; cbn [env_loop].
  - eauto.
  - destruct (spinning_step st Hsp) as (st' & -> & Hsp'). apply IH. exact Hsp'.
Qed.

Lemma spinning_start_state : forall g,
  0 < sim_time P -> spinning (start_state R P g).
Proof.
  intros g Hpos. split; [apply wf_start_state; exact Hpos|].
  unfold start_state, initial, schedule, nofail.
  cbn [now queue eid heappush].
  assert (E : entry_ltb (Entry (0 + (sim_time P - 0)) URGENT 1 Stop)
                (Entry (0 + 0) URGENT 0 InitGen) = false).
  { apply not_true_is_false. rewrite entry_ltb_spec. unfold key_lt. cbn. lia. }
  rewrite E. split.
  - repeat constructor; cbn; congruence.
  - apply Exists_cons_hd. unfold generator_due. cbn. split; [reflexivity|lia].
Qed.

End NoGap.

(** When both interarrival bounds are 0 the generator never lets the
    clock move: the stop event is never reached and, no service draw
    failing, [run_simulation] neither returns nor raises, however many
    events are processed. *)
Theorem zero_gaps_never_return : forall R P random_seed g0,
  0 < num_cashiers P -> 0 < sim_time P ->
  min_interarrival P = 0 -> max_interarrival P = 0 ->
  0 <= min_service P <= max_service P ->
  forall fuel, run_simulation R P fuel random_seed g0 = NoReturn.
Proof.
  intros R P random_seed g0 Hc Hpos Hmin Hmax Hsv fuel.
  unfold run_simulation, simulate, env_run.
  destruct (num_cashiers P <=? 0) eqn:E1; [apply Z.leb_le in E1; lia|].
  change (now (initial R (seed R random_seed g0))) with 0.
  destruct (sim_time P <=? 0) eqn:E2; [apply Z.leb_le in E2; lia|].
  destruct (spinning_loop R P Hmin Hmax Hsv fuel
              (start_state R P (seed R random_seed g0))
              (spinning_start_state R P _ Hpos)) as [st' Hst'].
  unfold start_state in Hst'. rewrite Hst'. reflexivity.
Qed.

Lemma zero_gaps_never_return_witness :
  run_simulation lcg crowd_params 1000 42 0 = NoReturn.
Proof.
  apply (zero_gaps_never_return lcg crowd_params 42 0); cbn; lia.
Defined.

(** ** Enough cashiers *)

(** What an entry tells about the time at which an index is due:
    [(0, (i, a))] customer [i] arrived at [a] and holds a cashier,
    [(1, (i, t))] the process of customer [i] starts at [t],
    [(2, (k, t))] the generator wakes up at [t], having given out the
    indices up to [k]. *)
Definition stamp (x : entry) : option (nat * (nat * Z)) :=
  match e_event x with
  | RequestEv i a => Some (0%nat, (i, a))
  | ServiceTimeout i a _ _ => Some (0%nat, (i, a))
  | InitCust i => Some (1%nat, (i, e_time x))
  | InitGen => Some (2%nat, (0%nat, e_time x))
  | GenTimeout k => Some (2%nat, (k, e_time x))
  | _ => None
  end.

(** A granted request is processed at the time of the arrival, and the
    service it starts begins then. *)
Definition punctual (x : entry) : Prop :=
  match e_event x with
  | RequestEv _ a => e_time x = a
  | ServiceTimeout _ a s _ => s = a
  | _ => True
  end.

Lemma stamp_rank : forall x r p, stamp x = Some (r, p) -> (r <= 2)%nat.
Proof.
  unfold stamp. intros x r p H.
  destruct (e_event x); try discriminate; injection H as <- _; lia.
Qed.

Lemma NoDup_in_range : forall (l : list nat) lo n,
  NoDup l -> (forall i, In i l -> (lo <= i < lo + n)%nat) -> (length l <= n)%nat.
Proof.
  intros l lo n Hnd Hr.
  rewrite <- (length_seq n lo). apply NoDup_incl_length; [assumption|].
  intros i Hi. apply in_seq. auto.
Qed.

Section Ample.

Variable R : RandomSource.
Variable P : params.
Hypothesis Hc : 0 < num_cashiers P.
Hypothesis Hmi : 1 <= min_interarrival P.
Hypothesis Hample : max_service P < num_cashiers P * min_interarrival P.

(** Index [fst q] is due no earlier than the gaps after index [fst p]
    allow. *)
Definition apart (p q : nat * Z) : Prop :=
  snd p + (Z.of_nat (fst q) - Z.of_nat (fst p)) * min_interarrival P <= snd q.

Definition spaced (q : list entry) : Prop :=
  forall x y rx p ry g, In x q -> In y q ->
    stamp x = Some (rx, p) -> stamp y = Some (ry, g) -> (rx < ry)%nat ->
    apart p g.

Definition tidy (q : list entry) : Prop :=
  Forall punctual q /\ (length (ids init_id q) <= 1)%nat /\ spaced q.

(** Nobody waits: the queue of the resource is empty between two events
    and every service has started on arrival. *)
Record prompt (st : state R) : Prop := {
  pr_census : census R P st;
  pr_queue : put_queue st = [];
  pr_rows : Forall (fun r => start_service r = arrival_time r) (records st);
  pr_tidy : tidy (queue st)
}.

Lemma tidy_tail : forall x q, tidy (x :: q) -> tidy q.
Proof.
  intros x q (Hp & Hl & Hs). split; [|split].
  - apply Forall_cons_iff in Hp. tauto.
  - rewrite ids_cons, length_app in Hl. lia.
  - intros y z ry p rz g Hy Hz. apply Hs; right; assumption.
Qed.

Lemma tidy_push : forall e q,
  tidy q -> punctual e -> init_id (e_event e) = [] ->
  (forall z rz pz re pe, In z q -> stamp z = Some (rz, pz) ->
     stamp e = Some (re, pe) ->
     ((rz < re)%nat -> apart pz pe) /\ ((re < rz)%nat -> apart pe pz)) ->
  tidy (heappush e q).
Proof.
  intros e q (Hp & Hl & Hs) Hpe Hie Hcompat. split; [|split].
  - apply heappush_Forall. split; assumption.
  - rewrite length_ids_heappush, Hie. cbn [length]. lia.
  - intros y z ry p rz g Hy Hz Hsy Hsz Hlt.
    apply heappush_In in Hy, Hz.
    destruct Hy as [->|Hy], Hz as [->|Hz].
    + rewrite Hsy in Hsz. injection Hsz as -> _. lia.
    + exact (proj2 (Hcompat z rz g ry p Hz Hsz Hsy) Hlt).
    + exact (proj1 (Hcompat y ry p rz g Hy Hsy Hsz) Hlt).
    + exact (Hs y z ry p rz g Hy Hz Hsy Hsz Hlt).
Qed.

Lemma tidy_push_plain : forall e q,
  tidy q -> stamp e = None -> tidy (heappush e q).
Proof.
  intros e q Ht He.
  apply tidy_push; [exact Ht| | |].
  - unfold punctual. unfold stamp in He. destruct (e_event e); try discriminate; exact I.
  - unfold stamp in He. destruct (e_event e); try discriminate; reflexivity.
  - intros z rz pz re pe _ _ Hse. congruence.
Qed.

Lemma tidy_schedule_plain : forall (st : state R) ev p d,
  tidy (queue st) ->
  (forall t n, stamp (Entry t p n ev) = None) ->
  tidy (queue (schedule R ev p d st)).
Proof.
  intros st ev p d Ht He. unfold schedule. cbn [queue].
  apply tidy_push_plain; [exact Ht|apply He].
Qed.

(** The generator draws the next gap, having given out index [k] at the
    current time. *)
Lemma tidy_customer_generator_loop : forall (st : state R) k,
  tidy (queue st) ->
  (forall z rz pz, In z (queue st) -> stamp z = Some (rz, pz) ->
     (rz < 2)%nat -> apart pz (k, now st)) ->
  tidy (queue (customer_generator_loop R P (S k) st)).
Proof.
  intros st k Ht Hk. unfold customer_generator_loop, timeout.
  destruct (randint R (rng st) _ _) as [e|[d g]] eqn:Hd.
  { apply tidy_schedule_plain; [exact Ht|reflexivity]. }
  apply randint_inr in Hd.
  destruct (d <? 0).
  { apply tidy_schedule_plain; [exact Ht|reflexivity]. }
  unfold schedule, set_rng. cbn [queue now eid].
  apply tidy_push; [exact Ht|exact I|reflexivity|].
  intros z rz pz re pe Hz Hsz Hse. cbn in Hse. injection Hse as <- <-.
  split.
  - intros Hlt. specialize (Hk z rz pz Hz Hsz Hlt).
    unfold apart in *. cbn [fst snd] in *. nia.
  - intros Hlt. apply stamp_rank in Hsz. lia.
Qed.

(** When a customer arrives, fewer than [num_cashiers] customers hold a
    cashier: they arrived within the last [max_service] minutes, at
    least [min_interarrival] apart. *)
Lemma ample_free_slot : forall st x q j,
  inv R P st -> prompt st -> queue st = x :: q -> e_event x = InitCust j ->
  Z.of_nat (length (users st)) < num_cashiers P.
Proof.
  intros st x q j [Hwf Hord] [Hcen Hpq Hrows (Hpun & Hsingle & Hsp)] Hq Hev.
  assert (Hnd : NoDup (users st)).
  { apply cnt_NoDup. intros k.
    pose proof (cs_stages R P st Hcen k) as Hst.
    pose proof (NoDup_cnt _ k
                  (arrival_ids_NoDup _ (ord_log R st Hord))) as Ha.
    lia. }
  assert (Hline : In j (line R st)).
  { unfold line, line_of. rewrite Hq, !ids_cons, Hev. cbn [init_id req_id gen_id].
    rewrite !in_app_iff. right. right. left. left. left. reflexivity. }
  assert (Hsx : stamp x = Some (1%nat, (j, e_time x)))
    by (unfold stamp; rewrite Hev; reflexivity).
  assert (Hin : forall i, In i (users st) ->
            (i < j)%nat /\ Z.of_nat j - Z.of_nat i < num_cashiers P).
  { intros i Hi.
    assert (Hcnt : (1 <= cnt i (users st))%nat).
    { unfold cnt. apply (proj1 (count_occ_In Nat.eq_dec _ _)). exact Hi. }
    rewrite (cs_users R P st Hcen i) in Hcnt.
    assert (Hz : exists z, In z (queue st) /\
              ((exists a, e_event z = RequestEv i a) \/
               (exists a s d, e_event z = ServiceTimeout i a s d))).
    { assert (Hor : In i (ids req_id (queue st)) \/ In i (ids svc_id (queue st))).
      { destruct (count_occ_In Nat.eq_dec (ids req_id (queue st)) i) as [_ H1].
        destruct (count_occ_In Nat.eq_dec (ids svc_id (queue st)) i) as [_ H2].
        unfold cnt in Hcnt.
        destruct (Nat.eq_dec (count_occ Nat.eq_dec (ids req_id (queue st)) i) 0)
          as [E|E]; [right; apply H2; lia|left; apply H1; lia]. }
      destruct Hor as [Hor|Hor]; apply ids_In in Hor as (z & Hz & Hi');
        exists z; (split; [exact Hz|]);
        destruct (e_event z); try contradiction;
        destruct Hi' as [<-|[]]; eauto. }
    destruct Hz as (z & Hz & Hevz).
    assert (Hzq : In z q).
    { rewrite Hq in Hz. destruct Hz as [<-|Hz]; [|exact Hz].
      destruct Hevz as [[a Ha]|(a & s & d & Ha)]; congruence. }
    pose proof (wf_sorted R P st Hwf) as Hs. rewrite Hq in Hs.
    apply StronglySorted_inv in Hs as [_ Hs]. rewrite Forall_forall in Hs.
    assert (Hle : e_time x <= e_time z).
    { specialize (Hs z Hzq). unfold key_lt in Hs. lia. }
    pose proof (wf_entries R P st Hwf) as Hok. rewrite Forall_forall in Hok.
    destruct (Hok z Hz) as [_ Hokz].
    rewrite Forall_forall in Hpun. pose proof (Hpun z Hz) as Hpz.
    unfold punctual in Hpz.
    rewrite Hq in Hsp.
    destruct Hevz as [[a Ha]|(a & s & d & Ha)]; rewrite Ha in Hokz, Hpz.
    - assert (Hsz : stamp z = Some (0%nat, (i, a)))
        by (unfold stamp; rewrite Ha; reflexivity).
      pose proof (Hsp z x _ _ _ _ (or_intror Hzq) (or_introl eq_refl) Hsz Hsx
                    ltac:(lia)) as Hap.
      unfold apart in Hap. cbn [fst snd] in Hap.
      assert (Hij : (i < j)%nat).
      { pose proof (ord_line R st Hord) as Hl. unfold line, line_of in Hl.
        apply StronglySorted_app_iff in Hl as (_ & _ & Hl).
        apply Hl.
        - apply ids_In. exists z. split; [exact Hz|]. rewrite Ha. left. reflexivity.
        - rewrite !in_app_iff. right. left.
          apply ids_In. exists x. split; [rewrite Hq; left; reflexivity|].
          rewrite Hev. left. reflexivity. }
      split; [exact Hij|]. nia.
    - assert (Hsz : stamp z = Some (0%nat, (i, a)))
        by (unfold stamp; rewrite Ha; reflexivity).
      pose proof (Hsp z x _ _ _ _ (or_intror Hzq) (or_introl eq_refl) Hsz Hsx
                    ltac:(lia)) as Hap.
      unfold apart in Hap. cbn [fst snd] in Hap.
      assert (Hij : (i < j)%nat).
      { apply (proj2 (ord_started R st Hord i s
                        (or_intror (ex_intro _ z (ex_intro _ a (ex_intro _ d
                           (conj Hz Ha)))))) j Hline). }
      split; [exact Hij|]. nia. }
  assert (Hlen : (length (users st) <= Z.to_nat (num_cashiers P) - 1)%nat).
  { apply (NoDup_in_range _ (j - (Z.to_nat (num_cashiers P) - 1))); [exact Hnd|].
    intros i Hi. destruct (Hin i Hi) as [H1 H2]. lia. }
  lia.
Qed.

Lemma prompt_step : forall st st',
  inv R P st -> prompt st -> step R P st = Continue st' -> prompt st'.
Proof.
  intros st st' Hinv Hp Hstep.
  assert (Hcen' : census R P st')
    by (eapply census_step; [apply Hp|exact Hstep]).
  pose proof Hinv as [Hwf Hord].
  unfold step in Hstep. destruct (queue st) as [|x q] eqn:Hq; [discriminate|].
  pose proof (ample_free_slot st x q) as Hfree.
  specialize (fun j => Hfree j Hinv Hp Hq).
  destruct Hp as [Hcen Hpq Hrows Ht]. rewrite Hq in Ht.
  pose proof (tidy_tail _ _ Ht) as Htq.
  destruct Ht as (Hpun & Hsingle & Hsp).
  apply Forall_cons_iff in Hpun as [Hpx _].
  rewrite ids_cons, length_app in Hsingle.
  assert (Hxz : forall z rx px rz pz, In z q -> stamp x = Some (rx, px) ->
            stamp z = Some (rz, pz) ->
            ((rz < rx)%nat -> apart pz px) /\ ((rx < rz)%nat -> apart px pz)).
  { intros z rx px rz pz Hz Hsx Hsz. split; intros Hlt.
    - exact (Hsp z x _ _ _ _ (or_intror Hz) (or_introl eq_refl) Hsz Hsx Hlt).
    - exact (Hsp x z _ _ _ _ (or_introl eq_refl) (or_intror Hz) Hsx Hsz Hlt). }
  pose proof (ord_gen R st Hord) as Hgen. rewrite Hq, ids_cons, length_app in Hgen.
  unfold punctual in Hpx.
  destruct (e_event x) eqn:Hev; try discriminate; injection Hstep as <-.
  - (* InitGen *)
    constructor; [exact Hcen'| | |].
    + unfold customer_generator_loop, timeout.
      destruct (randint R _ _ _) as [e|[d g]]; [|destruct (d <? 0)]; exact Hpq.
    + unfold customer_generator_loop, timeout.
      destruct (randint R _ _ _) as [e|[d g]]; [|destruct (d <? 0)]; exact Hrows.
    + apply tidy_customer_generator_loop; cbn [queue now]; [exact Htq|].
      intros z rz pz Hz Hsz Hlt.
      apply (proj1 (Hxz z 2%nat (0%nat, e_time x) rz pz Hz
                      ltac:(unfold stamp; rewrite Hev; reflexivity) Hsz) Hlt).
  - (* InitCust *)
    rewrite service_customer_start_arrived in *. unfold trigger_put, arrived.
    cbn [now queue eid users put_queue rng records arrivals].
    rewrite Hpq. cbn [app].
    specialize (Hfree i eq_refl). apply Z.ltb_lt in Hfree. rewrite Hfree.
    constructor; [|reflexivity|exact Hrows|].
    + unfold trigger_put, arrived in Hcen'.
      cbn [now queue eid users put_queue rng records arrivals] in Hcen'.
      rewrite Hpq in Hcen'. cbn [app] in Hcen'. rewrite Hfree in Hcen'.
      exact Hcen'.
    + unfold schedule. cbn [queue now eid].
      apply tidy_push; [exact Htq|unfold punctual; cbn; lia|reflexivity|].
      intros z rz pz re pe Hz Hsz Hse. cbn in Hse. injection Hse as <- <-.
      split; [lia|]. intros Hlt.
      assert (Hr : rz = 1%nat \/ rz = 2%nat)
        by (pose proof (stamp_rank _ _ _ Hsz); lia).
      destruct Hr as [->| ->].
      * exfalso. cbn [init_id length] in Hsingle.
        assert (Hnone : init_id (e_event z) = [])
          by (apply (ids_none init_id q); [lia|exact Hz]).
        unfold stamp in Hsz. destruct (e_event z); try discriminate.
      * pose proof (proj2 (Hxz z 1%nat (i, e_time x) 2%nat pz Hz
                      ltac:(unfold stamp; rewrite Hev; reflexivity) Hsz)
                      ltac:(lia)) as Hap.
        unfold apart in *. cbn [fst snd] in *. lia.
  - (* GenTimeout *)
    unfold customer_generator_resume.
    constructor; [exact Hcen'| | |].
    + unfold customer_generator_loop, timeout. cbn [rng schedule].
      destruct (randint R _ _ _) as [e|[d g]]; [|destruct (d <? 0)]; exact Hpq.
    + unfold customer_generator_loop, timeout. cbn [rng schedule].
      destruct (randint R _ _ _) as [e|[d g]]; [|destruct (d <? 0)]; exact Hrows.
    + cbn [gen_id length] in Hgen.
      assert (Hnogen : forall z, In z q -> gen_id (e_event z) = [])
        by (intros z Hz; apply (ids_none gen_id q); [lia|exact Hz]).
      assert (Hnoinit : forall z, In z q -> init_id (e_event z) = []).
      { intros z Hz.
        destruct (e_event z) eqn:Hevz; try reflexivity. exfalso.
        pose proof (wf_sorted R P st Hwf) as Hs. rewrite Hq in Hs.
        apply StronglySorted_inv in Hs as [_ Hs]. rewrite Forall_forall in Hs.
        specialize (Hs z Hz).
        pose proof (wf_entries R P st Hwf) as Hok. rewrite Hq in Hok.
        rewrite Forall_forall in Hok.
        destruct (Hok x (or_introl eq_refl)) as [Hnx Hokx].
        destruct (Hok z (or_intror Hz)) as [_ Hokz].
        rewrite Hev in Hokx. rewrite Hevz in Hokz.
        destruct Hokx as [Hpx' _]. destruct Hokz as (Hpz & Htz & _).
        unfold key_lt in Hs. rewrite Hpx', Hpz in Hs. cbn in Hs. lia. }
      apply tidy_customer_generator_loop.
      * unfold schedule. cbn [queue now eid].
        destruct Htq as (Hpq' & Hlq & Hsq). split; [|split].
        -- apply heappush_Forall. split; [exact I|exact Hpq'].
        -- rewrite length_ids_heappush. cbn [e_event init_id length].
           assert (Hl0 : ids init_id q = []).
           { clear - Hnoinit. induction q as [|z q IH]; [reflexivity|].
             rewrite ids_cons, (Hnoinit z (or_introl eq_refl)). cbn [app].
             apply IH. intros w Hw. apply Hnoinit. right. exact Hw. }
           rewrite Hl0. cbn. lia.
        -- intros y z ry p rz g Hy Hz Hsy Hsz Hlt.
           apply heappush_In in Hy, Hz.
           destruct Hy as [->|Hy], Hz as [->|Hz].
           ++ rewrite Hsy in Hsz. injection Hsz as -> _. lia.
           ++ exfalso. cbn in Hsy. injection Hsy as <- <-.
              assert (rz = 2%nat)
                by (pose proof (stamp_rank _ _ _ Hsz); lia).
              subst rz. pose proof (Hnogen z Hz) as Hn.
              unfold stamp in Hsz.
              destruct (e_event z); try discriminate.
           ++ cbn in Hsz. injection Hsz as <- <-.
              pose proof (proj1 (Hxz y 2%nat (i, e_time x) ry p Hy
                            ltac:(unfold stamp; rewrite Hev; reflexivity) Hsy)
                            ltac:(lia)) as Hap.
              unfold apart in *. cbn [fst snd] in *. lia.
           ++ exact (Hsq y z ry p rz g Hy Hz Hsy Hsz Hlt).
      * unfold schedule. cbn [queue now eid].
        intros z rz pz Hz Hsz Hlt. apply heappush_In in Hz as [->|Hz].
        -- cbn in Hsz. injection Hsz as <- <-.
           unfold apart. cbn [fst snd]. lia.
        -- apply (proj1 (Hxz z 2%nat (i, e_time x) rz pz Hz
                           ltac:(unfold stamp; rewrite Hev; reflexivity) Hsz) Hlt).
  - (* RequestEv *)
    constructor; [exact Hcen'| | |].
    + unfold service_customer_granted, timeout, release.
      destruct (randint R _ _ _) as [e|[d g]]; [|destruct (d <? 0)]; exact Hpq.
    + unfold service_customer_granted, timeout, release.
      destruct (randint R _ _ _) as [e|[d g]]; [|destruct (d <? 0)]; exact Hrows.
    + unfold service_customer_granted, timeout, release. cbn [rng].
      destruct (randint R _ _ _) as [e|[d g]]; [|destruct (d <? 0)].
      * apply tidy_schedule_plain; [|reflexivity].
        apply tidy_schedule_plain; [exact Htq|reflexivity].
      * apply tidy_schedule_plain; [|reflexivity].
        apply tidy_schedule_plain; [exact Htq|reflexivity].
      * unfold schedule, set_rng. cbn [queue now eid].
        apply tidy_push; [exact Htq|unfold punctual; cbn; exact Hpx|reflexivity|].
        intros z rz pz re pe Hz Hsz Hse. cbn in Hse. injection Hse as <- <-.
        split; [lia|]. intros Hlt.
        apply (proj2 (Hxz z 0%nat (i, arrival) rz pz Hz
                        ltac:(unfold stamp; rewrite Hev; reflexivity) Hsz) Hlt).
  - (* ServiceTimeout *)
    unfold service_customer_finish, release.
    constructor; [exact Hcen'|exact Hpq| |].
    + cbn [records schedule]. apply Forall_app. split; [exact Hrows|].
      constructor; [cbn; exact Hpx|constructor].
    + apply tidy_schedule_plain; [|reflexivity].
      apply tidy_schedule_plain; [exact Htq|reflexivity].
  - (* ReleaseEv *)
    assert (E : forall s : state R, put_queue s = [] -> trigger_put R P s = s)
      by (intros s Hs; unfold trigger_put; rewrite Hs; reflexivity).
    rewrite E in * by exact Hpq.
    constructor; [exact Hcen'|exact Hpq|exact Hrows|exact Htq].
  - (* ProcEnd *)
    constructor; [exact Hcen'|exact Hpq|exact Hrows|exact Htq].
Qed.

Lemma prompt_start : forall g, 0 < sim_time P -> prompt (start_state R P g).
Proof.
  intros g Hpos. constructor.
  - apply census_start. exact Hc.
  - reflexivity.
  - constructor.
  - unfold start_state, initial, schedule.
    cbn [now queue eid heappush].
    assert (E : entry_ltb (Entry (0 + (sim_time P - 0)) URGENT 1 Stop)
                  (Entry (0 + 0) URGENT 0 InitGen) = false).
    { apply not_true_is_false. rewrite entry_ltb_spec. unfold key_lt. cbn. lia. }
    rewrite E. split; [|split].
    + repeat constructor.
    + cbn. lia.
    + intros y z ry p rz g' [<-|[<-|[]]] [<-|[<-|[]]] Hsy Hsz Hlt;
        cbn in Hsy, Hsz; try discriminate.
      injection Hsy as <- _. injection Hsz as <- _. lia.
Qed.

Lemma prompt_stop : forall st st',
  prompt st -> step R P st = StopSimulation st' -> prompt st'.
Proof.
  intros st st' Hp Hs.
  pose proof (census_stop R P _ _ (pr_census _ Hp) Hs) as Hcen'.
  destruct Hp as [_ Hpq Hrows Ht].
  destruct (step_stop R P _ _ Hs) as (x & q & Hq & Hev & ->).
  rewrite Hq in Ht.
  constructor; [exact Hcen'|exact Hpq|exact Hrows|exact (tidy_tail _ _ Ht)].
Qed.

Lemma reached_prompt : forall fuel random_seed g0 st,
  reached R P fuel random_seed g0 st -> prompt st.
Proof.
  apply reached_extend.
  - intros g _ Hpos. apply prompt_start. exact Hpos.
  - exact prompt_step.
  - intros st st' _. apply prompt_stop.
Qed.

End Ample.

(** A run with two cashiers, a customer every 3 minutes and 5 minutes of
    service. *)
Definition ample_params : params := mkParams 2 20 3 3 5 5.

Definition ample_final : state lcg :=
  Eval vm_compute in state_of (simulate lcg ample_params 100 42 0).

(** When a service never lasts as long as [num_cashiers] gaps between
    arrivals ([max_service < num_cashiers * min_interarrival], with
    [min_interarrival >= 1]), every customer finds a free cashier: no
    request ever waits in the queue of the resource, so every row has
    [queue_time = 0] and [start_service = arrival_time]. *)
Theorem enough_cashiers_nobody_waits : forall R P fuel random_seed g0 st,
  reached R P fuel random_seed g0 st ->
  1 <= min_interarrival P ->
  max_service P < num_cashiers P * min_interarrival P ->
  put_queue st = [] /\
  forall r, In r (records st) ->
    queue_time r = 0 /\ start_service r = arrival_time r /\
    system_time r = service_duration r.
Proof.
  intros R P fuel random_seed g0 st Hst Hmi Hample.
  assert (Hc : 0 < num_cashiers P).
  { destruct Hst as [H|H];
      (destruct (simulate_unfold R P _ _ _ _ H) as (Hc & _); [eauto|exact Hc]). }
  destruct (reached_prompt R P Hc Hmi Hample _ _ _ _ Hst) as [_ Hpq Hrows _].
  split; [exact Hpq|]. intros r Hr.
  pose proof (reached_history R P _ _ _ _ Hst) as [Hrec _ _ _ _ _].
  rewrite Forall_forall in Hrec, Hrows.
  destruct (Hrec r Hr) as (Hqt & Hsys & Hf & _). specialize (Hrows r Hr). lia.
Qed.

Lemma enough_cashiers_nobody_waits_witness :
  reached lcg ample_params 100 42 0 ample_final /\
  records ample_final <> [] /\
  forall r, In r (records ample_final) ->
    queue_time r = 0 /\ start_service r = arrival_time r /\
    system_time r = service_duration r.
Proof.
  assert (H1 : reached lcg ample_params 100 42 0 ample_final)
    by (right; reflexivity).
  split; [exact H1|]. split; [discriminate|].
  apply (enough_cashiers_nobody_waits lcg ample_params 100 42 0 ample_final H1);
    cbn; lia.
Defined.

(** ** A longer horizon *)

Definition is_stop (ev : event) : bool :=
  match ev with Stop => true | _ => false end.

(** The queue without the stop event. *)
Definition body (q : list entry) : list entry :=
  filter (fun x => negb (is_stop (e_event x))) q.

Lemma body_In : forall q x, In x (body q) -> In x q.
Proof. intros q x H. apply filter_In in H. tauto. Qed.

Lemma body_cons_stop : forall x q,
  is_stop (e_event x) = true -> body (x :: q) = body q.
Proof. intros x q H. unfold body. cbn [filter]. rewrite H. reflexivity. Qed.

Lemma body_cons_other : forall x q,
  is_stop (e_event x) = false -> body (x :: q) = x :: body q.
Proof. intros x q H. unfold body. cbn [filter]. rewrite H. reflexivity. Qed.

Lemma heappush_least : forall e q,
  (forall z, In z q -> key_lt e z) -> heappush e q = e :: q.
Proof.
  intros e [|y q] H; cbn [heappush]; [reflexivity|].
  rewrite (proj2 (entry_ltb_spec e y)) by (apply H; left; reflexivity).
  reflexivity.
Qed.

(** Pushing an event does not depend on where the stop event is. *)
Lemma body_heappush : forall e q,
  is_stop (e_event e) = false -> StronglySorted key_lt q ->
  body (heappush e q) = heappush e (body q).
Proof.
  intros e q He Hs. induction Hs as [|y q Hs IH Hy]; cbn [heappush].
  - rewrite body_cons_other by exact He. reflexivity.
  - destruct (entry_ltb e y) eqn:E.
    + rewrite body_cons_other by exact He.
      symmetry. apply heappush_least. intros z Hz. apply body_In in Hz.
      apply entry_ltb_spec in E. destruct Hz as [<-|Hz]; [exact E|].
      rewrite Forall_forall in Hy. eapply key_lt_trans; [exact E|auto].
    + destruct (is_stop (e_event y)) eqn:Ey.
      * rewrite !body_cons_stop by exact Ey. exact IH.
      * rewrite !body_cons_other by exact Ey. cbn [heappush].
        rewrite E, IH. reflexivity.
Qed.

Section Horizon.

Variable R : RandomSource.
Variables P P' : params.
Hypothesis Hcashiers : num_cashiers P' = num_cashiers P.
Hypothesis Hmin_ia : min_interarrival P' = min_interarrival P.
Hypothesis Hmax_ia : max_interarrival P' = max_interarrival P.
Hypothesis Hmin_sv : min_service P' = min_service P.
Hypothesis Hmax_sv : max_service P' = max_service P.
Hypothesis Hlonger : sim_time P <= sim_time P'.

(** Two states that differ in the stop event only. *)
Record agree (s s' : state R) : Prop := {
  ag_now : now s' = now s;
  ag_eid : eid s' = eid s;
  ag_users : users s' = users s;
  ag_put_queue : put_queue s' = put_queue s;
  ag_rng : rng s' = rng s;
  ag_records : records s' = records s;
  ag_arrivals : arrivals s' = arrivals s;
  ag_body : body (queue s') = body (queue s);
  ag_sorted : StronglySorted key_lt (queue s);
  ag_sorted' : StronglySorted key_lt (queue s');
  ag_fresh : Forall (fun x => (e_eid x < eid s)%nat) (queue s);
  ag_fresh' : Forall (fun x => (e_eid x < eid s)%nat) (queue s')
}.

Ltac open_agree s s' H :=
  destruct s as [?n ?q ?e ?u ?w ?g ?rs ?ar], s' as [?n ?q ?e ?u ?w ?g ?rs ?ar];
  destruct H as [? ? ? ? ? ? ? ? ? ? ? ?];
  cbn [now queue eid users put_queue rng records arrivals] in *; subst.

Lemma agree_schedule : forall s s' ev p d,
  agree s s' -> is_stop ev = false ->
  agree (schedule R ev p d s) (schedule R ev p d s').
Proof.
  intros s s' ev p d H Hev. open_agree s s' H. unfold schedule.
  cbn [now queue eid users put_queue rng records arrivals].
  assert (Hne : forall q, Forall (fun x => (e_eid x < e)%nat) q ->
                Forall (fun y => e_eid y <> e) q)
    by (intros q1 Hq; eapply Forall_impl; [|exact Hq]; cbn; intros; lia).
  assert (Hlt : forall q, Forall (fun x => (e_eid x < e)%nat) q ->
                Forall (fun y => (e_eid y < S e)%nat) q)
    by (intros q1 Hq; eapply Forall_impl; [|exact Hq]; cbn; intros; lia).
  constructor; cbn [now queue eid users put_queue rng records arrivals];
    try reflexivity.
  - rewrite !body_heappush by assumption. congruence.
  - apply heappush_sorted; [assumption|]. apply Hne. assumption.
  - apply heappush_sorted; [assumption|]. apply Hne. assumption.
  - apply heappush_Forall. split; [cbn; lia|]. apply Hlt. assumption.
  - apply heappush_Forall. split; [cbn; lia|]. apply Hlt. assumption.
Qed.

(** The same change of the other fields on both sides. *)
Lemma agree_fields : forall s s' u w g rs ar,
  agree s s' ->
  agree (mkState R (now s) (queue s) (eid s) u w g rs ar)
        (mkState R (now s) (queue s') (eid s) u w g rs ar).
Proof.
  intros s s' u w g rs ar H. open_agree s s' H.
  constructor; cbn [now queue eid users put_queue rng records arrivals];
    try reflexivity; assumption.
Qed.

Ltac same_fields H :=
  rewrite ?(ag_now _ _ H), ?(ag_eid _ _ H), ?(ag_users _ _ H),
          ?(ag_put_queue _ _ H),
          ?(ag_rng _ _ H), ?(ag_records _ _ H), ?(ag_arrivals _ _ H),
          ?Hcashiers, ?Hmin_ia, ?Hmax_ia, ?Hmin_sv, ?Hmax_sv.

Lemma agree_trigger_put : forall s s',
  agree s s' -> agree (trigger_put R P s) (trigger_put R P' s').
Proof.
  intros s s' H. unfold trigger_put. same_fields H.
  destruct (put_queue s) as [|[i a] rest]; [exact H|].
  destruct (Z.of_nat (length (users s)) <? num_cashiers P); [|exact H].
  apply agree_schedule; [|reflexivity]. apply agree_fields. exact H.
Qed.

Lemma agree_release : forall s s' i,
  agree s s' -> agree (release R i s) (release R i s').
Proof.
  intros s s' i H. unfold release. same_fields H.
  apply agree_schedule; [|reflexivity]. apply agree_fields. exact H.
Qed.

Lemma agree_set_rng : forall s s' g,
  agree s s' -> agree (set_rng R g s) (set_rng R g s').
Proof.
  intros s s' g H. unfold set_rng. same_fields H. apply agree_fields. exact H.
Qed.

Lemma agree_customer_generator_loop : forall s s' i,
  agree s s' ->
  agree (customer_generator_loop R P i s) (customer_generator_loop R P' i s').
Proof.
  intros s s' i H. unfold customer_generator_loop, timeout. same_fields H.
  destruct (randint R (rng s) _ _) as [e|[d g]].
  - apply agree_schedule; [exact H|reflexivity].
  - destruct (d <? 0); (apply agree_schedule; [|reflexivity]);
      apply agree_set_rng; exact H.
Qed.

Lemma agree_service_customer_start : forall s s' i,
  agree s s' ->
  agree (service_customer_start R P i s) (service_customer_start R P' i s').
Proof.
  intros s s' i H. rewrite !service_customer_start_arrived.
  apply agree_trigger_put. unfold arrived. same_fields H.
  apply agree_fields. exact H.
Qed.

Lemma agree_service_customer_granted : forall s s' i a,
  agree s s' ->
  agree (service_customer_granted R P i a s)
        (service_customer_granted R P' i a s').
Proof.
  intros s s' i a H. unfold service_customer_granted, timeout. same_fields H.
  destruct (randint R (rng s) _ _) as [e|[d g]].
  - apply agree_schedule; [|reflexivity]. apply agree_release. exact H.
  - destruct (d <? 0); (apply agree_schedule; [|reflexivity]).
    + apply agree_release, agree_set_rng. exact H.
    + apply agree_set_rng. exact H.
Qed.

Lemma agree_service_customer_finish : forall s s' i a st d,
  agree s s' ->
  agree (service_customer_finish R i a st d s)
        (service_customer_finish R i a st d s').
Proof.
  intros s s' i a st d H. unfold service_customer_finish. same_fields H.
  apply agree_schedule; [|reflexivity]. apply agree_release.
  apply agree_fields. exact H.
Qed.

(** Before the shorter horizon the two loops process the same event. *)
Lemma agree_step : forall s s' s1,
  agree s s' -> wf R P s -> wf R P' s' -> step R P s = Continue s1 ->
  exists s1', step R P' s' = Continue s1' /\ agree s1 s1'.
Proof.
  intros s s' s1 H Hwf Hwf' Hstep. unfold step in *.
  destruct (queue s) as [|x rest] eqn:Hq; [discriminate|].
  assert (Hx : is_stop (e_event x) = false)
    by (destruct (e_event x); try reflexivity; discriminate).
  assert (Hns : e_event x <> Stop) by (intros E; rewrite E in Hx; discriminate).
  destruct (wf_pop R P s x rest Hwf Hq Hns) as (Hwf1 & _ & _).
  pose proof (wf_now _ _ _ Hwf1) as Hn1. cbn [now] in Hn1.
  pose proof (ag_body _ _ H) as Hb. rewrite Hq, body_cons_other in Hb by exact Hx.
  destruct (queue s') as [|y rest'] eqn:Hq'; [discriminate|].
  assert (Hy : is_stop (e_event y) = false).
  { destruct (is_stop (e_event y)) eqn:Ey; [exfalso|reflexivity].
    rewrite body_cons_stop in Hb by exact Ey.
    assert (Hin : In x rest') by (apply body_In; rewrite Hb; left; reflexivity).
    pose proof (wf_sorted _ _ _ Hwf') as Hs. rewrite Hq' in Hs.
    apply StronglySorted_inv in Hs as [_ Hs]. rewrite Forall_forall in Hs.
    specialize (Hs x Hin).
    pose proof (wf_entries _ _ _ Hwf') as Hok. rewrite Hq' in Hok.
    apply Forall_cons_iff in Hok as [[_ Hoky] _].
    destruct (e_event y); try discriminate. unfold key_lt in Hs. lia. }
  rewrite body_cons_other in Hb by exact Hy. injection Hb as -> Hb.
  assert (H1 : agree
            (mkState R (e_time x) rest (eid s) (users s) (put_queue s) (rng s)
               (records s) (arrivals s))
            (mkState R (e_time x) rest' (eid s') (users s') (put_queue s')
               (rng s') (records s') (arrivals s'))).
  { pose proof (ag_sorted _ _ H) as Hs. rewrite Hq in Hs.
    pose proof (ag_sorted' _ _ H) as Hs'. rewrite Hq' in Hs'.
    pose proof (ag_fresh _ _ H) as Hf. rewrite Hq in Hf.
    pose proof (ag_fresh' _ _ H) as Hf'. rewrite Hq' in Hf'.
    apply StronglySorted_inv in Hs as [Hs _], Hs' as [Hs' _].
    apply Forall_cons_iff in Hf as [_ Hf], Hf' as [_ Hf'].
    destruct H.
    constructor; cbn [now queue eid users put_queue rng records arrivals];
      try assumption; reflexivity. }
  destruct (e_event x) eqn:Hev; try discriminate; injection Hstep as <-;
    eexists; (split; [reflexivity|]).
  - apply agree_customer_generator_loop. exact H1.
  - apply agree_service_customer_start. exact H1.
  - unfold customer_generator_resume. apply agree_customer_generator_loop.
    apply agree_schedule; [exact H1|reflexivity].
  - apply agree_service_customer_granted. exact H1.
  - apply agree_service_customer_finish. exact H1.
  - apply agree_trigger_put. exact H1.
  - exact H1.
Qed.

(** When the shorter run stops, nothing that is left is due before its
    horizon. *)
Lemma agree_stop : forall s s' sF,
  agree s s' -> wf R P s -> wf R P' s' -> step R P s = StopSimulation sF ->
  records s' = records sF /\
  Forall (fun x => sim_time P <= e_time x) (queue s').
Proof.
  intros s s' sF H Hwf Hwf' Hstep.
  destruct (step_stop R P _ _ Hstep) as (x & rest & Hq & Hev & ->).
  cbn [records]. split; [exact (ag_records _ _ H)|].
  pose proof (wf_sorted _ _ _ Hwf) as Hs. rewrite Hq in Hs.
  apply StronglySorted_inv in Hs as [_ Hs]. rewrite Forall_forall in Hs.
  pose proof (wf_entries _ _ _ Hwf) as Hok. rewrite Hq in Hok.
  apply Forall_cons_iff in Hok as [[_ Hokx] _]. rewrite Hev in Hokx.
  pose proof (wf_entries _ _ _ Hwf') as Hok'. rewrite Forall_forall in Hok'.
  apply Forall_forall. intros z Hz.
  destruct (is_stop (e_event z)) eqn:Ez.
  - destruct (Hok' z Hz) as [_ Hokz].
    destruct (e_event z); try discriminate. lia.
  - assert (Hzb : In z (body (queue s')))
      by (apply filter_In; split; [exact Hz|rewrite Ez; reflexivity]).
    rewrite (ag_body _ _ H), Hq, body_cons_stop in Hzb
      by (rewrite Hev; reflexivity).
    apply body_In in Hzb. specialize (Hs z Hzb). unfold key_lt in Hs. lia.
Qed.

(** From then on every row is finished at the shorter horizon or
    later. *)
Definition late (base : list record) (s : state R) : Prop :=
  Forall (fun x => sim_time P <= e_time x) (queue s) /\
  exists l, records s = base ++ l /\
            Forall (fun r => sim_time P <= finish_time r) l.

Lemma late_schedule : forall base s ev p d,
  late base s -> sim_time P <= now s -> 0 <= d ->
  late base (schedule R ev p d s).
Proof.
  intros base s ev p d [Hq Hr] Hn Hd. split; [|exact Hr].
  unfold schedule. cbn [queue]. apply heappush_Forall. split; [cbn; lia|exact Hq].
Qed.

Lemma late_trigger_put : forall base s,
  late base s -> sim_time P <= now s -> late base (trigger_put R P' s).
Proof.
  intros base s H Hn. unfold trigger_put.
  destruct (put_queue s) as [|[i a] rest]; [exact H|].
  destruct (Z.of_nat (length (users s)) <? num_cashiers P'); [|exact H].
  apply late_schedule; [exact H|exact Hn|lia].
Qed.

Lemma late_customer_generator_loop : forall base s i,
  late base s -> sim_time P <= now s ->
  late base (customer_generator_loop R P' i s).
Proof.
  intros base s i H Hn. unfold customer_generator_loop, timeout.
  destruct (randint R (rng s) _ _) as [e|[d g]].
  - apply late_schedule; [exact H|exact Hn|lia].
  - destruct (d <? 0) eqn:E.
    + apply late_schedule; [exact H|exact Hn|lia].
    + apply Z.ltb_ge in E. apply late_schedule; [exact H|exact Hn|exact E].
Qed.

Lemma late_step : forall base s s1,
  late base s -> step R P' s = Continue s1 -> late base s1.
Proof.
  intros base s s1 [Hq Hr] Hstep. unfold step in Hstep.
  destruct (queue s) as [|x rest] eqn:Hqs; [discriminate|].
  apply Forall_cons_iff in Hq as [Hx Hq].
  set (st1 := mkState R (e_time x) rest (eid s) (users s) (put_queue s)
                (rng s) (records s) (arrivals s)) in *.
  assert (H1 : late base st1) by (split; [exact Hq|exact Hr]).
  assert (Hn : sim_time P <= now st1) by exact Hx.
  destruct (e_event x) eqn:Hev; try discriminate; injection Hstep as <-.
  - apply late_customer_generator_loop; assumption.
  - rewrite service_customer_start_arrived.
    apply late_trigger_put; [|exact Hn]. exact H1.
  - unfold customer_generator_resume.
    apply late_customer_generator_loop; [|exact Hn].
    apply late_schedule; [exact H1|exact Hn|lia].
  - unfold service_customer_granted, timeout, release.
    destruct (randint R (rng st1) _ _) as [e|[d g]].
    + apply late_schedule; [|exact Hn|lia].
      apply late_schedule; [exact H1|exact Hn|lia].
    + destruct (d <? 0) eqn:E.
      * apply late_schedule; [|exact Hn|lia].
        apply late_schedule; [exact H1|exact Hn|lia].
      * apply Z.ltb_ge in E. apply late_schedule; [exact H1|exact Hn|exact E].
  - unfold service_customer_finish, release.
    apply late_schedule; [|exact Hn|lia].
    apply late_schedule; [|exact Hn|lia].
    split; [exact Hq|]. cbn [records st1].
    destruct Hr as (l & Hl & Hlate). exists (l ++ [mkRecord i arrival start
      (e_time x) (start - arrival) dur (e_time x - arrival)]).
    split; [rewrite Hl, app_assoc; reflexivity|].
    apply Forall_app. split; [exact Hlate|].
    constructor; [exact Hx|constructor].
  - apply late_trigger_put; assumption.
  - exact H1.
Qed.

Lemma late_loop : forall m base s sF,
  late base s -> env_loop R P' m s = Finished sF ->
  exists l, records sF = base ++ l /\
            Forall (fun r => sim_time P <= finish_time r) l.
Proof.
  induction m as [|m IH]; intros base s sF Hl Hrun; cbn [env_loop] in Hrun.
  - discriminate.
  - destruct (step R P' s) as [s1|s1|] eqn:Hs; try discriminate.
    + apply (IH base s1); [|exact Hrun]. eapply late_step; eassumption.
    + injection Hrun as <-.
      destruct (step_stop R P' _ _ Hs) as (x & q & _ & _ & ->).
      exact (proj2 Hl).
Qed.

Lemma agree_loop : forall n m s s' sF sF',
  agree s s' -> wf R P s -> wf R P' s' ->
  env_loop R P n s = Finished sF -> env_loop R P' m s' = Finished sF' ->
  exists l, records sF' = records sF ++ l /\
            Forall (fun r => sim_time P <= finish_time r) l.
Proof.
  induction n as [|n IH]; intros m s s' sF sF' H Hwf Hwf' Hrun Hrun';
    cbn [env_loop] in Hrun.
  - discriminate.
  - destruct (step R P s) as [s1|s1|] eqn:Hs; try discriminate.
    + destruct (agree_step s s' s1 H Hwf Hwf' Hs) as (s1' & Hs' & H1).
      destruct m as [|m]; cbn [env_loop] in Hrun'; [discriminate|].
      rewrite Hs' in Hrun'.
      apply (IH m s1 s1'); try assumption.
      * eapply wf_step; eassumption.
      * eapply wf_step; eassumption.
    + injection Hrun as <-.
      destruct (agree_stop s s' s1 H Hwf Hwf' Hs) as [Hrec Hq].
      rewrite <- Hrec. apply (late_loop m (records s') s'); [|exact Hrun'].
      split; [exact Hq|]. exists []. split; [rewrite app_nil_r; reflexivity|].
      constructor.
Qed.

Lemma agree_start_state : forall g,
  0 < sim_time P -> agree (start_state R P g) (start_state R P' g).
Proof.
  intros g Hpos. unfold start_state, initial, schedule.
  cbn [now queue eid users put_queue rng records arrivals heappush].
  assert (E : forall T, 0 < T ->
            entry_ltb (Entry (0 + (T - 0)) URGENT 1 Stop)
              (Entry (0 + 0) URGENT 0 InitGen) = false).
  { intros T HT. apply not_true_is_false. rewrite entry_ltb_spec.
    unfold key_lt. cbn. lia. }
  rewrite !E by lia.
  constructor; cbn [now queue eid users put_queue rng records arrivals];
    try reflexivity.
  - repeat constructor. unfold key_lt. cbn. lia.
  - repeat constructor. unfold key_lt. cbn. lia.
  - repeat constructor.
  - repeat constructor.
Qed.

End Horizon.

(** The busy run stopped at 12. *)
Definition medium_params : params := mkParams 1 12 2 2 4 4.

(** With the same seed and the same other arguments, a longer horizon
    only adds rows: the result for the longer horizon starts with the
    rows of the result for the shorter one, and the rows that follow
    are finished at the shorter horizon or later. *)
Theorem longer_horizon_appends_rows :
  forall R P P' fuel fuel' random_seed g0 df df',
  num_cashiers P' = num_cashiers P ->
  min_interarrival P' = min_interarrival P ->
  max_interarrival P' = max_interarrival P ->
  min_service P' = min_service P ->
  max_service P' = max_service P ->
  sim_time P <= sim_time P' ->
  run_simulation R P fuel random_seed g0 = Returned df ->
  run_simulation R P' fuel' random_seed g0 = Returned df' ->
  exists rest, df' = df ++ rest /\
               Forall (fun r => sim_time P <= finish_time r) rest.
Proof.
  intros R P P' fuel fuel' random_seed g0 df df' H1 H2 H3 H4 H5 Hle Hrun Hrun'.
  unfold run_simulation in Hrun, Hrun'.
  destruct (simulate R P fuel random_seed g0) as [sF| |] eqn:Hs;
    try discriminate.
  destruct (simulate R P' fuel' random_seed g0) as [sF'| |] eqn:Hs';
    try discriminate.
  injection Hrun as <-. injection Hrun' as <-.
  destruct (simulate_unfold R P _ _ _ _ Hs) as (_ & Hpos & Hloop); [eauto|].
  destruct (simulate_unfold R P' _ _ _ _ Hs') as (_ & Hpos' & Hloop'); [eauto|].
  apply (agree_loop R P P' H1 H2 H3 H4 H5 Hle fuel fuel' _ _ sF sF'
           (agree_start_state R P P' Hle _ Hpos)
           (wf_start_state R P _ Hpos) (wf_start_state R P' _ Hpos')
           Hloop Hloop').
Qed.

Lemma longer_horizon_appends_rows_witness :
  exists rest,
    busy_df = [mkRecord 1 2 2 6 0 4 4; mkRecord 2 4 6 10 2 4 6] ++ rest /\
    Forall (fun r => 12 <= finish_time r) rest.
Proof.
  apply (longer_horizon_appends_rows lcg medium_params busy_params 100 100 42 0
           [mkRecord 1 2 2 6 0 4 4; mkRecord 2 4 6 10 2 4 6] busy_df);
    try reflexivity; try (cbn; lia); vm_compute; reflexivity.
Defined.

(** ** What a report of [main] shows *)

(** A form with the same number of cashiers in both scenarios. *)
Definition twin_form : form := mkForm 20 2 2 4 4 1 1 42 true.

(** [main] shows the report only when the button was pressed and both
    runs returned rows; the two tables are then what [run_simulation]
    returns for the two scenarios with the seed of the form, in whatever
    state the generator is; so they are the same table when the two
    scenarios have the same number of cashiers. *)
Theorem report_shows_both_runs : forall R fuel f g0 df_a df_b,
  main R fuel f g0 = Report df_a df_b ->
  run_button f = true /\
  (forall g, run_simulation R (scenario f (f_num_cashiers_a f)) fuel
               (f_random_seed f) g = Returned df_a) /\
  (forall g, run_simulation R (scenario f (f_num_cashiers_b f)) fuel
               (f_random_seed f) g = Returned df_b) /\
  df_a <> [] /\ df_b <> [] /\
  (f_num_cashiers_a f = f_num_cashiers_b f -> df_a = df_b).
Proof.
  intros R fuel f g0 df_a df_b H. unfold main in H.
  destruct (widgets_ok f); [cbn [negb] in H|discriminate].
  destruct (run_button f); [|discriminate]. split; [reflexivity|].
  destruct (simulate R (scenario f (f_num_cashiers_a f)) fuel (f_random_seed f) g0)
    as [sa| |] eqn:Hsa; try discriminate.
  destruct (run_simulation R (scenario f (f_num_cashiers_b f)) fuel
              (f_random_seed f) (rng sa)) as [df| |] eqn:Hb; try discriminate.
  destruct (df_empty (records sa) || df_empty df) eqn:He; [discriminate|].
  injection H as <- <-.
  apply orb_false_iff in He as [Hea Heb].
  assert (Ha : forall g, run_simulation R (scenario f (f_num_cashiers_a f)) fuel
                 (f_random_seed f) g = Returned (records sa)).
  { intros g. unfold run_simulation.
    change (simulate R (scenario f (f_num_cashiers_a f)) fuel (f_random_seed f) g)
      with (simulate R (scenario f (f_num_cashiers_a f)) fuel (f_random_seed f) g0).
    rewrite Hsa. reflexivity. }
  split; [exact Ha|]. split; [intros g; exact Hb|].
  split; [intros E; rewrite E in Hea; discriminate|].
  split; [intros E; rewrite E in Heb; discriminate|].
  intros Hsame. rewrite <- Hsame in Hb. rewrite (Ha (rng sa)) in Hb.
  injection Hb as Hb. exact Hb.
Qed.

Lemma report_shows_both_runs_witness :
  main lcg 100 twin_form 0 = Report busy_df busy_df /\
  run_button twin_form = true /\
  (forall g, run_simulation lcg (scenario twin_form 1) 100 42 g =
             Returned busy_df) /\
  busy_df <> [].
Proof.
  assert (H : main lcg 100 twin_form 0 = Report busy_df busy_df)
    by (vm_compute; reflexivity).
  split; [exact H|].
  destruct (report_shows_both_runs lcg 100 twin_form 0 busy_df busy_df H)
    as (H1 & H2 & _ & H4 & _).
  split; [exact H1|]. split; [exact H2|exact H4].
Defined.

(** ** The defaults of the widgets *)

